(** * Production-schedule reflow: shallow embedding and verified properties

    The development follows the TypeScript sources:
    - [utils/date-utils.ts]       shift calendar and time walker,
    - [reflow/reflow.service.ts]  dependency graph (Kahn) and placer,
    - [reflow/constraint-checker.ts] the validator called by the placer,
    - [constraint-checker.ts]     the standalone validator copy,
    - [run-scenarios.ts]          the document types of [reflow/types.ts],
                                  appended to the scenario runner.

    Modelling conventions:
    - Instants are Luxon [DateTime] values in zone UTC.  They are modelled by
      their epoch milliseconds (what [toMillis] returns); ISO strings in the
      documents are the serialisation of these instants, so [parseUTC] and
      [toISO] are the identity here.  Durations and hours are integers.
    - A JavaScript [Map] is an insertion-ordered association list.
    - Arrays that the code grows with [push] are lists extended at the end;
      error messages and change records are the values interpolated into
      the message templates.
    - Loops with an iteration bound recurse on the number of iterations that
      are left and carry ghost flags telling whether the bound was hit.
      Loops without a bound ([while (remaining > 0)] of the shift-only walk,
      [while (current < end)] of [minutesInRange]) take fuel and return
      [None] when it runs out; Kahn's [while (queue.length > 0)] runs on a
      fuel that is proved sufficient ([kahn_total]).
    - A thrown error is [inl], a returned value [inr].
    - Work-order records are values.  Where the identity of a record matters
      (the array that [reflow] returns) the records are cells of a store and
      a reference is the position of its cell ([reflowOnStore]). *)

From Stdlib Require Import ZArith List String Bool Lia Arith.
From Stdlib Require Import Sorting.Sorted Sorting.Permutation.
Import ListNotations.
Open Scope Z_scope.

(** ** Instants (Luxon DateTime, zone UTC) *)

Definition DateTime := Z.

Module Luxon.

Definition MS_PER_MINUTE : Z := 60000.
Definition MS_PER_HOUR : Z := 3600000.
Definition MS_PER_DAY : Z := 86400000.

(** [dt.weekday]: 1 = Monday ... 7 = Sunday; 1970-01-01 was a Thursday. *)
Definition weekday (dt : DateTime) : Z := (dt / MS_PER_DAY + 3) mod 7 + 1.

(** [dt.hour] and [dt.minute]. *)
Definition hour (dt : DateTime) : Z := (dt mod MS_PER_DAY) / MS_PER_HOUR.
Definition minute (dt : DateTime) : Z := (dt mod MS_PER_HOUR) / MS_PER_MINUTE.

(** [dt.startOf('day')]. *)
Definition startOfDay (dt : DateTime) : DateTime := dt - dt mod MS_PER_DAY.

(** [sod.set({ hour: h, minute: 0, second: 0, millisecond: 0 })] applied to a
    start of day. *)
Definition setHour (sod : DateTime) (h : Z) : DateTime := sod + h * MS_PER_HOUR.

(** [dt.plus({ days: d })] and [dt.plus({ minutes: m })]; UTC has no
    daylight-saving shifts, so both are plain additions. *)
Definition plusDays (dt : DateTime) (d : Z) : DateTime := dt + d * MS_PER_DAY.
Definition plusMinutes (dt : DateTime) (m : Z) : DateTime := dt + m * MS_PER_MINUTE.

(** [Math.floor(a.diff(b, 'minutes').minutes)]. *)
Definition diffMinutesFloor (a b : DateTime) : Z := (a - b) / MS_PER_MINUTE.

(** [DateTime.max(...xs)] over a non-empty argument list headed by [x]. *)
Definition maxOf (x : DateTime) (xs : list DateTime) : DateTime :=
  fold_left Z.max xs x.

End Luxon.
Import Luxon.

(** ** Documents *)

(** The document types of [reflow/types.ts]; their declarations are read from
    the copy of that file appended to [src/run-scenarios.ts] (lines 107 to
    187).  The records carry the fields the code reads: of a work order and
    of a work center [docType] is left out, of a work order also
    [manufacturingOrderId]; dates are instants. *)

(** [Shift] (run-scenarios.ts, lines 133 to 137). *)
Record Shift := mkShift {
  dayOfWeek : Z;
  startHour : Z;
  endHour : Z
}.

(** [MaintenanceWindow] (run-scenarios.ts, lines 140 to 144). *)
Record MaintenanceWindow := mkWindow {
  mw_startDate : DateTime;
  mw_endDate : DateTime;
  mw_reason : option string
}.

(** [WorkCenter] (run-scenarios.ts, lines 147 to 152). *)
Record WorkCenter := mkWorkCenter {
  name : string;
  shifts : list Shift;
  maintenanceWindows : list MaintenanceWindow
}.

(** [WorkOrder] (run-scenarios.ts, lines 120 to 130). *)
Record WorkOrder := mkWorkOrder {
  workOrderNumber : string;
  workCenterId : string;
  startDate : DateTime;
  endDate : DateTime;
  durationMinutes : Z;
  isMaintenance : bool;
  dependsOnWorkOrderIds : list string
}.

(** [MaintenanceRange] of date-utils.ts: a window with parsed bounds. *)
Record MaintenanceRange := mkRange {
  r_start : DateTime;
  r_end : DateTime
}.

(** ** JavaScript [Map] with string keys

    Iteration follows insertion order and [set] on a present key keeps the
    key's position; both are observable in the code ([for (const [id, d] of
    inDegree)]), hence an association list rather than an unordered map. *)

Module JsMap.
Section WithValues.
Context {V : Type}.

Definition t := list (string * V).

Definition empty : t := [].

Fixpoint get (m : t) (k : string) : option V :=
  match m with
  | [] => None
  | (k', v) :: rest => if String.eqb k' k then Some v else get rest k
  end.

Definition has (m : t) (k : string) : bool :=
  match get m k with Some _ => true | None => false end.

Fixpoint set (m : t) (k : string) (v : V) : t :=
  match m with
  | [] => [(k, v)]
  | (k', v') :: rest =>
      if String.eqb k' k then (k', v) :: rest else (k', v') :: set rest k v
  end.

Definition keys (m : t) : list string := map fst m.
End WithValues.
Arguments t : clear implicits.
End JsMap.

(** ** date-utils.ts: shift calendar *)

Definition toPlanDayOfWeek (luxonWeekday : Z) : Z :=
  if luxonWeekday =? 7 then 0 else luxonWeekday.

Definition isInShift (dt : DateTime) (s : Shift) : bool :=
  let day := toPlanDayOfWeek (weekday dt) in
  if negb (dayOfWeek s =? day) then false
  else
    let h := hour dt in
    let m := minute dt in
    if (h >? startHour s) && (h <? endHour s) then true
    else if (h =? startHour s) && (h <? endHour s) then true
    else if (h =? endHour s) && (m =? 0) then false
    else false.

Definition isWithinShift (dt : DateTime) (shifts : list Shift) : bool :=
  existsb (isInShift dt) shifts.

Fixpoint getShiftSegmentEnd (dt : DateTime) (shifts : list Shift) : DateTime :=
  match shifts with
  | [] => dt (* fallback *)
  | s :: rest =>
      if negb (dayOfWeek s =? toPlanDayOfWeek (weekday dt))
      then getShiftSegmentEnd dt rest
      else if (hour dt >=? startHour s) && (hour dt <? endHour s)
           then setHour (startOfDay dt) (endHour s)
           else getShiftSegmentEnd dt rest
  end.

(** Inner loop of [getNextShiftStart] for one day: every shift of that day of
    week proposes its start; [best] keeps the earliest proposal at or after
    [dt]. *)
Fixpoint nextShiftStart_scanShifts (dt : DateTime) (dow : Z) (startOfDay' : DateTime)
    (shifts : list Shift) (best : option DateTime) : option DateTime :=
  match shifts with
  | [] => best
  | s :: rest =>
      if negb (dayOfWeek s =? dow)
      then nextShiftStart_scanShifts dt dow startOfDay' rest best
      else
        let candidate := setHour startOfDay' (startHour s) in
        let best' :=
          if (candidate >=? dt)
             && match best with None => true | Some b => candidate <? b end
          then Some candidate else best in
        nextShiftStart_scanShifts dt dow startOfDay' rest best'
  end.

(** Outer loop [for (let d = 0; d <= 7; d++)], over the list of day offsets. *)
Fixpoint nextShiftStart_scanDays (dt : DateTime) (shifts : list Shift)
    (offsets : list Z) (best : option DateTime) : option DateTime :=
  match offsets with
  | [] => best
  | d :: rest =>
      let day := plusDays dt d in
      let dow := toPlanDayOfWeek (weekday day) in
      nextShiftStart_scanDays dt shifts rest
        (nextShiftStart_scanShifts dt dow (startOfDay day) shifts best)
  end.

Definition dayOffsets : list Z := [0; 1; 2; 3; 4; 5; 6; 7].

Definition getNextShiftStart (dt : DateTime) (shifts : list Shift) : DateTime :=
  match shifts with
  | [] => dt
  | _ =>
      match nextShiftStart_scanDays dt shifts dayOffsets None with
      | Some best => best
      | None => dt
      end
  end.

(** ** date-utils.ts: maintenance ranges and the time walker *)

Definition inRange (dt : DateTime) (r : MaintenanceRange) : bool :=
  (dt >=? r_start r) && (dt <? r_end r).

Definition isInMaintenanceRange (dt : DateTime) (ranges : list MaintenanceRange) : bool :=
  existsb (inRange dt) ranges.

Fixpoint getMaintenanceRangeEnd (dt : DateTime) (ranges : list MaintenanceRange)
    : option DateTime :=
  match ranges with
  | [] => None
  | r :: rest => if inRange dt r then Some (r_end r) else getMaintenanceRangeEnd dt rest
  end.

Definition nonEmpty {A : Type} (l : list A) : bool :=
  match l with [] => false | _ => true end.

(** A value returned by one of the bounded loops, together with a ghost flag
    telling through which [return] it left: [capped = false] for the
    [return] inside the loop (or a loop condition that became false on its
    own), [capped = true] when the iteration counter reached its bound and
    the trailing [return current] was taken.  The code returns [value] in
    both cases. *)
Record Traced := mkTraced {
  value : DateTime;
  capped : bool
}.

Definition MAX_ITER_WORKING_MOMENT : nat := 1000.
Definition MAX_ITER_SEGMENTS : nat := 5000.

(** The [for (let i = 0; i < MAX_ITER; i++)] loop of [getNextWorkingMoment];
    [i] counts the iterations that are left. *)
Fixpoint nextWorkingMoment_loop (shifts : list Shift) (ranges : list MaintenanceRange)
    (i : nat) (current : DateTime) : Traced :=
  match i with
  | O => mkTraced current true
  | S i' =>
      if nonEmpty shifts && negb (isWithinShift current shifts)
      then nextWorkingMoment_loop shifts ranges i' (getNextShiftStart current shifts)
      else if nonEmpty ranges && isInMaintenanceRange current ranges
      then match getMaintenanceRangeEnd current ranges with
           | Some e => nextWorkingMoment_loop shifts ranges i' e
           | None => mkTraced current true (* break *)
           end
      else mkTraced current false
  end.

Definition getNextWorkingMoment_traced (dt : DateTime) (shifts : list Shift)
    (ranges : list MaintenanceRange) : Traced :=
  nextWorkingMoment_loop shifts ranges MAX_ITER_WORKING_MOMENT dt.

Definition getNextWorkingMoment (dt : DateTime) (shifts : list Shift)
    (ranges : list MaintenanceRange) : DateTime :=
  value (getNextWorkingMoment_traced dt shifts ranges).

Definition getWorkingSegmentEnd (dt : DateTime) (shifts : list Shift)
    (ranges : list MaintenanceRange) : DateTime :=
  fold_left
    (fun segmentEnd r =>
       if (r_start r >? dt) && (r_start r <? segmentEnd) then r_start r else segmentEnd)
    ranges (getShiftSegmentEnd dt shifts).

(** The result of the segment walk with its ghost state: [stalled] tells
    that some stabilisation loop called on the way left through its cap,
    [unplaced] is the value of [remaining] at the trailing [return current]
    (zero at the [return] inside the loop, where everything is placed).  The
    code returns [walk_end] only. *)
Record WalkTraced := mkWalk {
  walk_end : DateTime;
  stalled : bool;
  unplaced : Z
}.

(** Some iteration bound was hit during the walk. *)
Definition walkCapped (w : WalkTraced) : bool :=
  stalled w || (unplaced w >? 0).

(** The segment loop of [calculateEndDateWithShiftsAndMaintenance]:
    [for (let i = 0; i < MAX_ITER && remaining > 0; i++)]; [i] counts the
    iterations that are left, [flag] is the ghost flag accumulated so far. *)
Fixpoint walk_loop (shifts : list Shift) (ranges : list MaintenanceRange)
    (i : nat) (current : DateTime) (remaining : Z) (flag : bool) : WalkTraced :=
  match i with
  | O => mkWalk current flag remaining
  | S i' =>
      if negb (remaining >? 0) then mkWalk current flag remaining
      else
        let segmentEnd := getWorkingSegmentEnd current shifts ranges in
        let minutesInSegment := diffMinutesFloor segmentEnd current in
        if minutesInSegment <=? 0 then
          let next := getNextWorkingMoment_traced segmentEnd shifts ranges in
          walk_loop shifts ranges i' (value next) remaining (flag || capped next)
        else if remaining <=? minutesInSegment then
          mkWalk (plusMinutes current remaining) flag 0
        else
          let next := getNextWorkingMoment_traced segmentEnd shifts ranges in
          walk_loop shifts ranges i' (value next) (remaining - minutesInSegment)
            (flag || capped next)
  end.

Definition calculateEndDateWithShiftsAndMaintenance_traced (startDate : DateTime)
    (durationMinutes' : Z) (shifts : list Shift) (ranges : list MaintenanceRange)
    : WalkTraced :=
  match shifts with
  | [] => mkWalk (plusMinutes startDate durationMinutes') false 0
  | _ =>
      let first := getNextWorkingMoment_traced startDate shifts ranges in
      walk_loop shifts ranges MAX_ITER_SEGMENTS (value first) durationMinutes'
        (capped first)
  end.

Definition calculateEndDateWithShiftsAndMaintenance (startDate : DateTime)
    (durationMinutes' : Z) (shifts : list Shift) (ranges : list MaintenanceRange)
    : DateTime :=
  walk_end (calculateEndDateWithShiftsAndMaintenance_traced startDate durationMinutes'
              shifts ranges).

(** [WorkingSegment] and [getWorkingSegments]: the same walk, collecting the
    contiguous working intervals. *)
Record WorkingSegment := mkSegment {
  seg_start : DateTime;
  seg_end : DateTime
}.

Fixpoint segments_loop (shifts : list Shift) (ranges : list MaintenanceRange)
    (i : nat) (current : DateTime) (remaining : Z) (segments : list WorkingSegment)
    : list WorkingSegment :=
  match i with
  | O => segments
  | S i' =>
      if negb (remaining >? 0) then segments
      else
        let segmentEnd := getWorkingSegmentEnd current shifts ranges in
        let minutesInSegment := diffMinutesFloor segmentEnd current in
        if minutesInSegment <=? 0 then
          segments_loop shifts ranges i' (getNextWorkingMoment segmentEnd shifts ranges)
            remaining segments
        else if remaining <=? minutesInSegment then
          segments ++ [mkSegment current (plusMinutes current remaining)]
        else
          segments_loop shifts ranges i' (getNextWorkingMoment segmentEnd shifts ranges)
            (remaining - minutesInSegment) (segments ++ [mkSegment current segmentEnd])
  end.

Definition getWorkingSegments (startDate : DateTime) (durationMinutes' : Z)
    (shifts : list Shift) (ranges : list MaintenanceRange) : list WorkingSegment :=
  match shifts with
  | [] => [mkSegment startDate (plusMinutes startDate durationMinutes')]
  | _ =>
      segments_loop shifts ranges MAX_ITER_SEGMENTS
        (getNextWorkingMoment startDate shifts ranges) durationMinutes' []
  end.

(** [calculateEndDateWithShifts]: the shift-only walk.  Its [while (remaining
    > 0)] loop has no iteration bound; [fuel] bounds the number of iterations
    and [None] means the fuel ran out before the loop ended. *)
Fixpoint shiftWalk_loop (shifts : list Shift) (fuel : nat) (current : DateTime)
    (remaining : Z) : option DateTime :=
  match fuel with
  | O => None
  | S fuel' =>
      if negb (remaining >? 0) then Some current
      else
        let segmentEnd := getShiftSegmentEnd current shifts in
        let minutesInSegment := diffMinutesFloor segmentEnd current in
        if minutesInSegment <=? 0 then
          shiftWalk_loop shifts fuel' (getNextShiftStart current shifts) remaining
        else if remaining <=? minutesInSegment then
          Some (plusMinutes current remaining)
        else
          shiftWalk_loop shifts fuel' segmentEnd (remaining - minutesInSegment)
  end.

Definition calculateEndDateWithShifts (fuel : nat) (startDate : DateTime)
    (durationMinutes' : Z) (shifts : list Shift) : option DateTime :=
  match shifts with
  | [] => Some (plusMinutes startDate durationMinutes')
  | _ =>
      let current :=
        if negb (isWithinShift startDate shifts)
        then getNextShiftStart startDate shifts else startDate in
      shiftWalk_loop shifts fuel current durationMinutes'
  end.

(** [minutesInRange]: working minutes of [start, end] inside shifts; like
    the shift-only walk its [while] loop is unbounded, so it takes fuel. *)
Fixpoint minutesInRange_loop (shifts : list Shift) (fuel : nat) (current end' : DateTime)
    (total : Z) : option Z :=
  match fuel with
  | O => None
  | S fuel' =>
      if negb (current <? end') then Some total
      else
        let segmentEnd := getShiftSegmentEnd current shifts in
        let segmentEndClamped := if segmentEnd >? end' then end' else segmentEnd in
        let total' :=
          if segmentEndClamped >? current
          then total + diffMinutesFloor segmentEndClamped current else total in
        if segmentEnd >=? end' then Some total'
        else minutesInRange_loop shifts fuel' (getNextShiftStart segmentEnd shifts) end' total'
  end.

Definition minutesInRange (fuel : nat) (start end' : DateTime) (shifts : list Shift)
    : option Z :=
  if (start >=? end') || negb (nonEmpty shifts) then Some 0
  else
    let current :=
      if negb (isWithinShift start shifts) then getNextShiftStart start shifts else start in
    minutesInRange_loop shifts fuel current end' 0.

(** ** Validation errors

    The validators push formatted messages; an error is modelled by the
    message kind together with the values interpolated into it. *)
Inductive ValidationError :=
| WorkCenterConflict (workCenter : string) (a : string) (aEnd : DateTime)
    (b : string) (bStart : DateTime)
| UnknownDependency (order dependency : string)
| StartsBeforeDependencyEnds (order : string) (start latest : DateTime)
| StartOutsideShift (order : string) (start : DateTime) (workCenter : string)
| EndMismatch (order : string) (storedEnd expected : DateTime)
| MaintenanceOverlap (order : string) (start end' : DateTime)
    (winStart winEnd : DateTime) (workCenter : string) (reason : option string).

Record ValidationResult := mkValidation {
  valid : bool;
  errors : list ValidationError
}.

Definition END_TOLERANCE_MS : Z := 60 * 1000.

Definition orDefault {A : Type} (o : option A) (d : A) : A :=
  match o with Some x => x | None => d end.

Definition rangesOf (windows : list MaintenanceWindow) : list MaintenanceRange :=
  map (fun w => mkRange (mw_startDate w) (mw_endDate w)) windows.

(** The checks shared verbatim by both copies of the constraint checker. *)
Module CheckerCommon.

Definition groupByCenter (workOrders : list WorkOrder) : JsMap.t (list WorkOrder) :=
  fold_left
    (fun byCenter wo =>
       let list := orDefault (JsMap.get byCenter (workCenterId wo)) [] in
       JsMap.set byCenter (workCenterId wo) (list ++ [wo]))
    workOrders JsMap.empty.

(** [[...orders].sort((a, b) => a.start - b.start)]; the sort of an array
    is stable, which determines the result: stable insertion sort. *)
Fixpoint insertByStart (wo : WorkOrder) (sorted : list WorkOrder) : list WorkOrder :=
  match sorted with
  | [] => [wo]
  | x :: rest =>
      if startDate wo <=? startDate x then wo :: x :: rest
      else x :: insertByStart wo rest
  end.

Definition sortByStart (orders : list WorkOrder) : list WorkOrder :=
  fold_right insertByStart [] orders.

(** [for (let i = 0; i < sorted.length - 1; i++)]: adjacent pairs. *)
Fixpoint checkAdjacent (workCenter : string) (sorted : list WorkOrder)
    (errors : list ValidationError) : list ValidationError :=
  match sorted with
  | a :: ((b :: _) as rest) =>
      checkAdjacent workCenter rest
        (if endDate a >? startDate b
         then errors ++ [WorkCenterConflict workCenter (workOrderNumber a) (endDate a)
                           (workOrderNumber b) (startDate b)]
         else errors)
  | _ => errors
  end.

Definition checkWorkCenterConflicts (workOrders : list WorkOrder)
    (errors : list ValidationError) : list ValidationError :=
  fold_left
    (fun errs entry => checkAdjacent (fst entry) (sortByStart (snd entry)) errs)
    (groupByCenter workOrders) errors.

Definition indexByNumber (workOrders : list WorkOrder) : JsMap.t WorkOrder :=
  fold_left (fun m wo => JsMap.set m (workOrderNumber wo) wo) workOrders JsMap.empty.

(** One [dependsOn] entry in the inner loop of [checkDependencies]; the
    accumulator is [maxParentEnd] with the error list. *)
Definition scanParent (byNumber : JsMap.t WorkOrder) (wo : WorkOrder)
    (acc : option DateTime * list ValidationError) (id : string)
    : option DateTime * list ValidationError :=
  match JsMap.get byNumber id with
  | None => (fst acc, snd acc ++ [UnknownDependency (workOrderNumber wo) id])
  | Some parent =>
      let parentEnd := endDate parent in
      match fst acc with
      | None => (Some parentEnd, snd acc)
      | Some m => if parentEnd >? m then (Some parentEnd, snd acc) else acc
      end
  end.

Definition scanParents (byNumber : JsMap.t WorkOrder) (wo : WorkOrder)
    (acc : option DateTime * list ValidationError)
    : option DateTime * list ValidationError :=
  fold_left (scanParent byNumber wo) (dependsOnWorkOrderIds wo) acc.

(** The body of the outer loop of [checkDependencies] for one order. *)
Definition checkDependenciesOf (byNumber : JsMap.t WorkOrder)
    (errors : list ValidationError) (wo : WorkOrder) : list ValidationError :=
  match dependsOnWorkOrderIds wo with
  | [] => errors
  | _ =>
      let '(maxParentEnd, errors') := scanParents byNumber wo (None, errors) in
      match maxParentEnd with
      | None => errors'
      | Some m =>
          if startDate wo <? m
          then errors' ++ [StartsBeforeDependencyEnds (workOrderNumber wo)
                             (startDate wo) m]
          else errors'
      end
  end.

Definition checkDependencies (workOrders : list WorkOrder)
    (errors : list ValidationError) : list ValidationError :=
  fold_left (checkDependenciesOf (indexByNumber workOrders)) workOrders errors.

(** [workCenters.find((c) => c.name === id)]: the first center of that
    name. *)
Definition findCenter (workCenters : list WorkCenter) (id : string) : option WorkCenter :=
  find (fun c => String.eqb (name c) id) workCenters.

End CheckerCommon.

(** ** reflow/constraint-checker.ts: the validator the placer calls *)
Module Checker.
Import CheckerCommon.

(** One iteration of the loop of [checkShifts]; [None] when the unbounded
    shift-only walk runs out of fuel. *)
Definition checkShiftsOf (fuel : nat) (workCenters : list WorkCenter) (wo : WorkOrder)
    (errors : list ValidationError) : option (list ValidationError) :=
  match findCenter workCenters (workCenterId wo) with
  | None => Some errors
  | Some wc =>
      match shifts wc with
      | [] => Some errors
      | _ =>
          let start := startDate wo in
          let errors1 :=
            if negb (isWithinShift start (shifts wc))
            then errors ++ [StartOutsideShift (workOrderNumber wo) start (workCenterId wo)]
            else errors in
          let maintenanceRanges := rangesOf (maintenanceWindows wc) in
          match
            (if nonEmpty maintenanceRanges
             then Some (calculateEndDateWithShiftsAndMaintenance start
                          (durationMinutes wo) (shifts wc) maintenanceRanges)
             else calculateEndDateWithShifts fuel start (durationMinutes wo) (shifts wc))
          with
          | None => None
          | Some computedEnd =>
              let diffMs := Z.abs (computedEnd - endDate wo) in
              Some (if diffMs >? END_TOLERANCE_MS
                    then errors1 ++ [EndMismatch (workOrderNumber wo) (endDate wo)
                                       computedEnd]
                    else errors1)
          end
      end
  end.

Fixpoint checkShifts (fuel : nat) (workOrders : list WorkOrder)
    (workCenters : list WorkCenter) (errors : list ValidationError)
    : option (list ValidationError) :=
  match workOrders with
  | [] => Some errors
  | wo :: rest =>
      match checkShiftsOf fuel workCenters wo errors with
      | None => None
      | Some errors' => checkShifts fuel rest workCenters errors'
      end
  end.

(** Work may span maintenance; no strict overlap check. *)
Definition checkMaintenance (_workOrders : list WorkOrder)
    (_workCenters : list WorkCenter) (errors : list ValidationError)
    : list ValidationError :=
  errors.

Definition validateSchedule (fuel : nat) (workOrders : list WorkOrder)
    (workCenters : list WorkCenter) : option ValidationResult :=
  let errors1 := checkWorkCenterConflicts workOrders [] in
  let errors2 := checkDependencies workOrders errors1 in
  match checkShifts fuel workOrders workCenters errors2 with
  | None => None
  | Some errors3 =>
      let errors4 := checkMaintenance workOrders workCenters errors3 in
      Some (mkValidation (Nat.eqb (List.length errors4) 0) errors4)
  end.

End Checker.

(** ** constraint-checker.ts: the standalone copy of the validator

    It imports the top-level [date-utils.ts], whose [isWithinShift] and
    [calculateEndDateWithShifts] are textually those of
    [utils/date-utils.ts]. *)
Module Standalone.
Import CheckerCommon.

Definition checkShiftsOf (fuel : nat) (workCenters : list WorkCenter) (wo : WorkOrder)
    (errors : list ValidationError) : option (list ValidationError) :=
  match findCenter workCenters (workCenterId wo) with
  | None => Some errors
  | Some wc =>
      match shifts wc with
      | [] => Some errors
      | _ =>
          let start := startDate wo in
          let errors1 :=
            if negb (isWithinShift start (shifts wc))
            then errors ++ [StartOutsideShift (workOrderNumber wo) start (workCenterId wo)]
            else errors in
          match calculateEndDateWithShifts fuel start (durationMinutes wo) (shifts wc) with
          | None => None
          | Some computedEnd =>
              let diffMs := Z.abs (computedEnd - endDate wo) in
              Some (if diffMs >? END_TOLERANCE_MS
                    then errors1 ++ [EndMismatch (workOrderNumber wo) (endDate wo)
                                       computedEnd]
                    else errors1)
          end
      end
  end.

Fixpoint checkShifts (fuel : nat) (workOrders : list WorkOrder)
    (workCenters : list WorkCenter) (errors : list ValidationError)
    : option (list ValidationError) :=
  match workOrders with
  | [] => Some errors
  | wo :: rest =>
      match checkShiftsOf fuel workCenters wo errors with
      | None => None
      | Some errors' => checkShifts fuel rest workCenters errors'
      end
  end.

Definition indexCenters (workCenters : list WorkCenter) : JsMap.t WorkCenter :=
  fold_left (fun m wc => JsMap.set m (name wc) wc) workCenters JsMap.empty.

(** Inner loop of [checkMaintenance] over the windows of the order's center. *)
Definition scanWindows (wo : WorkOrder) (windows : list MaintenanceWindow)
    (errors : list ValidationError) : list ValidationError :=
  fold_left
    (fun errs win =>
       if (startDate wo <? mw_endDate win) && (endDate wo >? mw_startDate win)
       then errs ++ [MaintenanceOverlap (workOrderNumber wo) (startDate wo) (endDate wo)
                       (mw_startDate win) (mw_endDate win) (workCenterId wo)
                       (mw_reason win)]
       else errs)
    windows errors.

(** The body of the loop of [checkMaintenance] for one order. *)
Definition checkMaintenanceOf (centerByKey : JsMap.t WorkCenter)
    (errors : list ValidationError) (wo : WorkOrder) : list ValidationError :=
  match JsMap.get centerByKey (workCenterId wo) with
  | None => errors
  | Some wc =>
      match maintenanceWindows wc with
      | [] => errors
      | windows => scanWindows wo windows errors
      end
  end.

Definition checkMaintenance (workOrders : list WorkOrder)
    (workCenters : list WorkCenter) (errors : list ValidationError)
    : list ValidationError :=
  fold_left (checkMaintenanceOf (indexCenters workCenters)) workOrders errors.

Definition validateSchedule (fuel : nat) (workOrders : list WorkOrder)
    (workCenters : list WorkCenter) : option ValidationResult :=
  let errors1 := checkWorkCenterConflicts workOrders [] in
  let errors2 := checkDependencies workOrders errors1 in
  match checkShifts fuel workOrders workCenters errors2 with
  | None => None
  | Some errors3 =>
      let errors4 := checkMaintenance workOrders workCenters errors3 in
      Some (mkValidation (Nat.eqb (List.length errors4) 0) errors4)
  end.

End Standalone.

(** ** reflow/reflow.service.ts *)

Definition MAX_MAINTENANCE_ITERATIONS : nat := 500.

Definition windowContains (dt : DateTime) (w : MaintenanceWindow) : bool :=
  (dt >=? mw_startDate w) && (dt <? mw_endDate w).

Definition isInMaintenance (dt : DateTime) (windows : list MaintenanceWindow) : bool :=
  existsb (windowContains dt) windows.

Definition snapToShift (current : DateTime) (shifts : list Shift) : DateTime :=
  if nonEmpty shifts && negb (isWithinShift current shifts)
  then getNextShiftStart current shifts else current.

(** Body of the [while] of [getNextAvailableStart]: the [for] over the
    windows jumps past the first window containing [current], re-snaps to a
    shift and breaks. *)
Fixpoint skipFirstWindow (current : DateTime) (shifts : list Shift)
    (windows : list MaintenanceWindow) : DateTime :=
  match windows with
  | [] => current
  | w :: rest =>
      if windowContains current w then snapToShift (mw_endDate w) shifts
      else skipFirstWindow current shifts rest
  end.

(** [while (isInMaintenance(current, windows) && iterations < MAX)]; [i]
    counts the iterations that are left. *)
Fixpoint nextAvailableStart_loop (shifts : list Shift) (windows : list MaintenanceWindow)
    (i : nat) (current : DateTime) : Traced :=
  match i with
  | O => mkTraced current (isInMaintenance current windows)
  | S i' =>
      if isInMaintenance current windows
      then nextAvailableStart_loop shifts windows i' (skipFirstWindow current shifts windows)
      else mkTraced current false
  end.

Definition getNextAvailableStart_traced (dt : DateTime) (shifts : list Shift)
    (windows : list MaintenanceWindow) : Traced :=
  nextAvailableStart_loop shifts windows MAX_MAINTENANCE_ITERATIONS (snapToShift dt shifts).

Definition getNextAvailableStart (dt : DateTime) (shifts : list Shift)
    (windows : list MaintenanceWindow) : DateTime :=
  value (getNextAvailableStart_traced dt shifts windows).

(** *** Dependency graph: Kahn's algorithm *)

Inductive ReflowError :=
| CircularDependency (inCycle : list string)
| InvalidSchedule (messages : list ValidationError).

Definition indexByNumber (workOrders : list WorkOrder) : JsMap.t WorkOrder :=
  fold_left (fun m wo => JsMap.set m (workOrderNumber wo) wo) workOrders JsMap.empty.

Record Graph := mkGraph {
  inDegree : JsMap.t Z;
  children : JsMap.t (list string)
}.

Definition initGraph (workOrders : list WorkOrder) : Graph :=
  fold_left
    (fun g wo =>
       mkGraph (JsMap.set (inDegree g) (workOrderNumber wo) 0)
               (JsMap.set (children g) (workOrderNumber wo) []))
    workOrders (mkGraph JsMap.empty JsMap.empty).

(** One [dependsOn] entry of [wo]: dropped when the id is unknown, otherwise
    one more incoming edge for [wo] and [wo] pushed onto the children of the
    dependency. *)
Definition addEdge (byNumber : JsMap.t WorkOrder) (wo : WorkOrder) (g : Graph)
    (depId : string) : Graph :=
  if negb (JsMap.has byNumber depId) then g
  else
    let inDegree' :=
      JsMap.set (inDegree g) (workOrderNumber wo)
        (orDefault (JsMap.get (inDegree g) (workOrderNumber wo)) 0 + 1) in
    let list := orDefault (JsMap.get (children g) depId) [] in
    mkGraph inDegree' (JsMap.set (children g) depId (list ++ [workOrderNumber wo])).

Definition buildGraph (workOrders : list WorkOrder) : Graph :=
  let byNumber := indexByNumber workOrders in
  fold_left
    (fun g wo => fold_left (addEdge byNumber wo) (dependsOnWorkOrderIds wo) g)
    workOrders (initGraph workOrders).

Definition initialQueue (inDegree' : JsMap.t Z) : list string :=
  map fst (filter (fun entry => snd entry =? 0) inDegree').

(** One child [c] of the dequeued node. *)
Definition visitChild (state : JsMap.t Z * list string) (c : string)
    : JsMap.t Z * list string :=
  let d := orDefault (JsMap.get (fst state) c) 1 - 1 in
  (JsMap.set (fst state) c d, if d =? 0 then snd state ++ [c] else snd state).

(** [while (queue.length > 0)]: unbounded in the code; [fuel] bounds the
    iterations, [None] when it runs out.  Returns the order and the final
    in-degree table. *)
Fixpoint kahn_loop (children' : JsMap.t (list string)) (fuel : nat)
    (queue result : list string) (inDegree' : JsMap.t Z)
    : option (list string * JsMap.t Z) :=
  match fuel with
  | O => None
  | S fuel' =>
      match queue with
      | [] => Some (result, inDegree')
      | n :: rest =>
          let '(inDegree'', queue') :=
            fold_left visitChild (orDefault (JsMap.get children' n) []) (inDegree', rest) in
          kahn_loop children' fuel' queue' (result ++ [n]) inDegree''
      end
  end.

Definition memString (x : string) (l : list string) : bool :=
  existsb (String.eqb x) l.

(** The sort itself; the loop runs at most once per order plus the final
    test of the empty queue (see [kahn_total]). *)
Definition kahn (workOrders : list WorkOrder) : option (list string * JsMap.t Z) :=
  let g := buildGraph workOrders in
  kahn_loop (children g) (S (List.length workOrders)) (initialQueue (inDegree g)) []
    (inDegree g).

Definition topologicalOrder (workOrders : list WorkOrder)
    : option (ReflowError + list string) :=
  match kahn workOrders with
  | None => None
  | Some (result, _) =>
      if negb (Nat.eqb (List.length result) (List.length workOrders)) then
        let inCycle :=
          filter (fun id => negb (memString id result)) (map workOrderNumber workOrders) in
        Some (inl (CircularDependency inCycle))
      else Some (inr result)
  end.

(** *** The placer *)

Inductive ChangeField := StartDateField | EndDateField.

Inductive ChangeReason :=
| ReasonDependency | ReasonWorkCenterConflict | ReasonShiftOrMaintenance
| ReasonCascadeFromNewStart.

(** The [howCreated] sentences. *)
Inductive HowCreated :=
| HowAfterDependency | HowAfterPriorOrder | HowAlignedToShift
| HowRecalculatedFromNewStart | HowRecalculatedShiftAware.

(** [Change]: the fields of the declaration (run-scenarios.ts, lines 167 to
    173) and [howCreated], which the placer writes with every record. *)
Record Change := mkChange {
  workOrderId : string;
  field : ChangeField;
  oldValue : DateTime;
  newValue : DateTime;
  reason : ChangeReason;
  howCreated : HowCreated
}.

(** The parenthesised cause of an explanation sentence. *)
Inductive ExplainedCause :=
| CauseDependencyOnParent | CauseAfterPriorOrder | CauseShiftMaintenance
| CauseRecalculatedFromNewStart | CauseShiftAwarePause.

Inductive ExplanationPart :=
| StartMoved (order : string) (newStart : DateTime) (cause : ExplainedCause)
| EndMoved (order : string) (newEnd : DateTime) (cause : ExplainedCause).

Inductive Explanation :=
| NoChangesRequired
| Sentences (parts : list ExplanationPart).

(** [ReflowResult] (run-scenarios.ts, lines 176 to 180). *)
Record ReflowResult := mkResult {
  updatedWorkOrders : list WorkOrder;
  changes : list Change;
  explanation : Explanation
}.

Record Slot := mkSlot {
  slot_start : DateTime;
  slot_end : DateTime
}.

Record PlacerState := mkPlacer {
  scheduledByCenter : JsMap.t (list Slot);
  newSchedule : JsMap.t Slot;
  changesSoFar : list Change;
  explanationParts : list ExplanationPart
}.

Definition initialPlacer : PlacerState :=
  mkPlacer JsMap.empty JsMap.empty [] [].

Definition lastEndOnCenterOf (st : PlacerState) (wo : WorkOrder) : option DateTime :=
  match orDefault (JsMap.get (scheduledByCenter st) (workCenterId wo)) [] with
  | [] => None
  | x :: xs => Some (maxOf (slot_end x) (map slot_end xs))
  end.

(** The end of a parent as a dependent sees it. *)
Definition parentEndOf (newSchedule' : JsMap.t Slot) (parent : WorkOrder) : DateTime :=
  if isMaintenance parent then endDate parent
  else match JsMap.get newSchedule' (workOrderNumber parent) with
       | Some next => slot_end next
       | None => endDate parent
       end.

Definition maxParentEndOf (byNumber : JsMap.t WorkOrder) (newSchedule' : JsMap.t Slot)
    (wo : WorkOrder) : option DateTime :=
  fold_left
    (fun maxParentEnd depId =>
       match JsMap.get byNumber depId with
       | None => maxParentEnd
       | Some parent =>
           let parentEnd := parentEndOf newSchedule' parent in
           match maxParentEnd with
           | None => Some parentEnd
           | Some m => if parentEnd >? m then Some parentEnd else maxParentEnd
           end
       end)
    (dependsOnWorkOrderIds wo) None.

Definition isSome {A : Type} (o : option A) : bool :=
  match o with Some _ => true | None => false end.

Definition equalsOpt (dt : DateTime) (o : option DateTime) : bool :=
  match o with Some x => dt =? x | None => false end.

(** [wc?.shifts ?? []] and [wc?.maintenanceWindows ?? []]. *)
Definition centerShifts (wc : option WorkCenter) : list Shift :=
  match wc with Some c => shifts c | None => [] end.

Definition centerWindows (wc : option WorkCenter) : list MaintenanceWindow :=
  match wc with Some c => maintenanceWindows c | None => [] end.

(** [candidateStart] of the loop body: the maximum of the last end on the
    center, the latest parent end and the order's own start, snapped to the
    next available start. *)
Definition candidateStartOf (byNumber : JsMap.t WorkOrder)
    (workCenterByName : JsMap.t WorkCenter) (st : PlacerState) (wo : WorkOrder)
    : DateTime :=
  let wc := JsMap.get workCenterByName (workCenterId wo) in
  let lastEndOnCenter := lastEndOnCenterOf st wo in
  let maxParentEnd := maxParentEndOf byNumber (newSchedule st) wo in
  let orderStartFloor := startDate wo in
  getNextAvailableStart
    (maxOf (orDefault lastEndOnCenter orderStartFloor)
       [orDefault maxParentEnd orderStartFloor; orderStartFloor])
    (centerShifts wc) (centerWindows wc).

(** The body of [for (const woId of nonMaintenanceIds)] for the order [wo]
    found under that id. *)
Definition placeOrder (byNumber : JsMap.t WorkOrder)
    (workCenterByName : JsMap.t WorkCenter) (st : PlacerState) (wo : WorkOrder)
    : PlacerState :=
  let wc := JsMap.get workCenterByName (workCenterId wo) in
  let shifts' := centerShifts wc in
  let maintenanceWindows' := centerWindows wc in
  let lastEndOnCenter := lastEndOnCenterOf st wo in
  let maxParentEnd := maxParentEndOf byNumber (newSchedule st) wo in
  let candidateStart := candidateStartOf byNumber workCenterByName st wo in
  let maintenanceRanges := rangesOf maintenanceWindows' in
  let end' :=
    calculateEndDateWithShiftsAndMaintenance candidateStart (durationMinutes wo) shifts'
      maintenanceRanges in
  let woId := workOrderNumber wo in
  let newSchedule' := JsMap.set (newSchedule st) woId (mkSlot candidateStart end') in
  let list := orDefault (JsMap.get (scheduledByCenter st) (workCenterId wo)) [] in
  let scheduled' :=
    JsMap.set (scheduledByCenter st) (workCenterId wo) (list ++ [mkSlot candidateStart end']) in
  let byDependency := isSome maxParentEnd && equalsOpt candidateStart maxParentEnd in
  let byCenter := isSome lastEndOnCenter && equalsOpt candidateStart lastEndOnCenter in
  let '(changes1, parts1) :=
    if negb (candidateStart =? startDate wo) then
      (changesSoFar st ++
         [mkChange woId StartDateField (startDate wo) candidateStart
            (if byDependency then ReasonDependency
             else if byCenter then ReasonWorkCenterConflict
             else ReasonShiftOrMaintenance)
            (if byDependency then HowAfterDependency
             else if byCenter then HowAfterPriorOrder
             else HowAlignedToShift)],
       explanationParts st ++
         [StartMoved woId candidateStart
            (if byDependency then CauseDependencyOnParent
             else if isSome lastEndOnCenter then CauseAfterPriorOrder
             else CauseShiftMaintenance)])
    else (changesSoFar st, explanationParts st) in
  let cascade := isSome maxParentEnd || isSome lastEndOnCenter in
  let '(changes2, parts2) :=
    if negb (end' =? endDate wo) then
      (changes1 ++
         [mkChange woId EndDateField (endDate wo) end'
            (if cascade then ReasonCascadeFromNewStart else ReasonShiftOrMaintenance)
            (if cascade then HowRecalculatedFromNewStart else HowRecalculatedShiftAware)],
       parts1 ++
         [EndMoved woId end'
            (if cascade then CauseRecalculatedFromNewStart else CauseShiftAwarePause)])
    else (changes1, parts1) in
  mkPlacer scheduled' newSchedule' changes2 parts2.

(** [orderIds.filter((id) => !byNumber.get(id)!.isMaintenance)], resolved to
    the orders.  Every id of the topological order is a key of [byNumber], so
    the non-null assertion cannot fail; an unknown id yields nothing here. *)
Definition nonMaintenanceOrders (byNumber : JsMap.t WorkOrder) (orderIds : list string)
    : list WorkOrder :=
  flat_map
    (fun id =>
       match JsMap.get byNumber id with
       | Some wo => if isMaintenance wo then [] else [wo]
       | None => []
       end)
    orderIds.

Definition indexCenters (workCenters : list WorkCenter) : JsMap.t WorkCenter :=
  fold_left (fun m wc => JsMap.set m (name wc) wc) workCenters JsMap.empty.

Definition place (workOrders : list WorkOrder) (workCenters : list WorkCenter)
    (orderIds : list string) : PlacerState :=
  let byNumber := indexByNumber workOrders in
  fold_left (placeOrder byNumber (indexCenters workCenters))
    (nonMaintenanceOrders byNumber orderIds) initialPlacer.

(** [workOrders.map(...)]: maintenance orders and orders without a new slot
    are passed through, the others are copied with the new dates. *)
Definition updateOrder (newSchedule' : JsMap.t Slot) (wo : WorkOrder) : WorkOrder :=
  if isMaintenance wo then wo
  else match JsMap.get newSchedule' (workOrderNumber wo) with
       | None => wo
       | Some next =>
           mkWorkOrder (workOrderNumber wo) (workCenterId wo) (slot_start next)
             (slot_end next) (durationMinutes wo) (isMaintenance wo)
             (dependsOnWorkOrderIds wo)
       end.

(** [reflow]: [None] only when the validator's unbounded walk runs out of
    [fuel]; [inl] is a thrown error, [inr] the returned result. *)
Definition reflow (fuel : nat) (workOrders : list WorkOrder)
    (workCenters : list WorkCenter) : option (ReflowError + ReflowResult) :=
  match topologicalOrder workOrders with
  | None => None
  | Some (inl e) => Some (inl e)
  | Some (inr orderIds) =>
      let st := place workOrders workCenters orderIds in
      let updated := map (updateOrder (newSchedule st)) workOrders in
      match Checker.validateSchedule fuel updated workCenters with
      | None => None
      | Some validation =>
          if negb (valid validation) then Some (inl (InvalidSchedule (errors validation)))
          else
            Some (inr (mkResult updated (changesSoFar st)
                         (match explanationParts st with
                          | [] => NoChangesRequired
                          | parts => Sentences parts
                          end)))
      end
  end.

(** ** Concrete calendars and schedules used by the examples *)

Module Examples.
Open Scope string_scope.

(** Day [d] after 1970-01-01 (a Thursday), at [h]:[m] UTC. *)
Definition at_ (d h m : Z) : DateTime :=
  d * MS_PER_DAY + h * MS_PER_HOUR + m * MS_PER_MINUTE.

(** Monday 1970-01-05 is day 4, Tuesday day 5. *)
Definition monday : Z := 4.
Definition tuesday : Z := 5.

(** Shift Monday to Friday, 08:00 to 17:00. *)
Definition weekShifts : list Shift :=
  map (fun d => mkShift d 8 17) [1; 2; 3; 4; 5].

Definition line1 : WorkCenter := mkWorkCenter "Line1" weekShifts [].

(** The delay cascade A -> B -> C on one center with overlapping stored
    times. *)
Definition orderA := mkWorkOrder "A" "Line1" (at_ monday 8 0) (at_ monday 10 0) 120 false [].
Definition orderB := mkWorkOrder "B" "Line1" (at_ monday 9 0) (at_ monday 11 0) 120 false ["A"].
Definition orderC := mkWorkOrder "C" "Line1" (at_ monday 9 0) (at_ monday 10 0) 60 false ["B"].
Definition cascade : list WorkOrder := [orderA; orderB; orderC].

(** The two-order cycle. *)
Definition cycleA := mkWorkOrder "A" "Line1" (at_ monday 8 0) (at_ monday 9 0) 60 false ["B"].
Definition cycleB := mkWorkOrder "B" "Line1" (at_ monday 9 0) (at_ monday 10 0) 60 false ["A"].

(** A center with a maintenance window Tuesday 08:00 to 09:00, and an order
    that runs into the end of Monday's shift. *)
Definition line2 : WorkCenter :=
  mkWorkCenter "Line2" weekShifts
    [mkWindow (at_ tuesday 8 0) (at_ tuesday 9 0) (Some "inspection")].
Definition lateOrder :=
  mkWorkOrder "W" "Line2" (at_ monday 16 0) (at_ monday 18 0) 120 false [].
(** The same order as the placer leaves it: paused over the shift gap and
    the window, done Tuesday 10:00. *)
Definition lateOrderPlaced :=
  mkWorkOrder "W" "Line2" (at_ monday 16 0) (at_ tuesday 10 0) 120 false [].

(** The two-order cycle again, A also listing an id that no order carries. *)
Definition danglingA :=
  mkWorkOrder "A" "Line1" (at_ monday 8 0) (at_ monday 9 0) 60 false ["B"; "X"].
Definition danglingB :=
  mkWorkOrder "B" "Line1" (at_ monday 9 0) (at_ monday 10 0) 60 false ["A"].

(** A center open one hour a week (Monday 08:00 to 09:00) with one window
    long past, and an order of 5001 working hours on it. *)
Definition cell : WorkCenter :=
  mkWorkCenter "Cell" [mkShift 1 8 9] [mkWindow (at_ 0 0 0) (at_ 0 1 0) None].
Definition longOrder :=
  mkWorkOrder "Long" "Cell" (at_ monday 8 0) (at_ monday 9 0) (5001 * 60) false [].

(** Two consistent orders on Line1, the later one listed first. *)
Definition lateFirst := mkWorkOrder "X" "Line1" (at_ monday 10 0) (at_ monday 11 0) 60 false [].
Definition earlySecond := mkWorkOrder "Y" "Line1" (at_ monday 8 0) (at_ monday 9 0) 60 false [].

(** The cascade as the placer leaves it. *)
Definition cascadePlaced : list WorkOrder :=
  [mkWorkOrder "A" "Line1" (at_ monday 8 0) (at_ monday 10 0) 120 false [];
   mkWorkOrder "B" "Line1" (at_ monday 10 0) (at_ monday 12 0) 120 false ["A"];
   mkWorkOrder "C" "Line1" (at_ monday 12 0) (at_ monday 13 0) 60 false ["B"]].

(** A shift list whose only entry is an empty window, Tuesday 09:00 to 09:00. *)
Definition emptyShift : list Shift := [mkShift 2 9 9].
End Examples.

(** ** Vocabulary of the statements *)

Definition isMaintenanceOverlap (e : ValidationError) : bool :=
  match e with MaintenanceOverlap _ _ _ _ _ _ _ => true | _ => false end.

(** [Appends errs errs']: [errs'] extends [errs] by errors that are not
    maintenance overlaps. *)
Definition Appends (errs errs' : list ValidationError) : Prop :=
  exists extra,
    errs' = errs ++ extra /\ Forall (fun e => isMaintenanceOverlap e = false) extra.

(** Number of occurrences of [c] in a list of ids. *)
Definition occurrences (c : string) (l : list string) : nat :=
  count_occ string_dec l c.

Definition childrenOf (children' : JsMap.t (list string)) (n : string) : list string :=
  orDefault (JsMap.get children' n) [].

(** Edges into [c] whose source, among the nodes [nodes], has not been emitted
    into [result] yet. *)
Definition pendingEdges (children' : JsMap.t (list string)) (nodes result : list string)
    (c : string) : nat :=
  list_sum
    (map (fun n => if memString n result then O else occurrences c (childrenOf children' n))
       nodes).

(** The tables built by [topologicalOrder] before the queue is seeded. *)
Definition GraphOK (nodes : list string) (g : Graph) : Prop :=
  JsMap.keys (inDegree g) = nodes
  /\ JsMap.keys (children g) = nodes
  /\ (forall c, In c nodes ->
        JsMap.get (inDegree g) c
        = Some (Z.of_nat (pendingEdges (children g) nodes [] c)))
  /\ (forall n c, In c (childrenOf (children g) n) -> In c nodes).

(** State of Kahn's loop in the middle of the visit of a dequeued node:
    [todo] is the part of its children list still to be visited, [st] the
    in-degree table with the queue.  With [todo = []] this is the invariant
    of the [while] loop itself. *)
Definition VisitInv (children' : JsMap.t (list string)) (nodes result todo : list string)
    (st : JsMap.t Z * list string) : Prop :=
  JsMap.keys (fst st) = nodes
  /\ NoDup (result ++ snd st)
  /\ incl (result ++ snd st) nodes
  /\ (forall c, In c nodes ->
        JsMap.get (fst st) c
        = Some (Z.of_nat (pendingEdges children' nodes result c + occurrences c todo)))
  /\ (forall c, In c nodes ->
        (In c (result ++ snd st) <-> JsMap.get (fst st) c = Some 0)).

(** One correction of the stabilisation loop of [getNextWorkingMoment]. *)
Definition correctOnce (shifts : list Shift) (ranges : list MaintenanceRange)
    (current : DateTime) : DateTime :=
  if nonEmpty shifts && negb (isWithinShift current shifts)
  then getNextShiftStart current shifts
  else if nonEmpty ranges && isInMaintenanceRange current ranges
  then orDefault (getMaintenanceRangeEnd current ranges) current
  else current.

(** One iteration of the segment loop that neither ends the loop nor
    returns: the state is [(current, remaining)]. *)
Definition segmentOnce (shifts : list Shift) (ranges : list MaintenanceRange)
    (s : DateTime * Z) : DateTime * Z :=
  let segmentEnd := getWorkingSegmentEnd (fst s) shifts ranges in
  let minutesInSegment := diffMinutesFloor segmentEnd (fst s) in
  (getNextWorkingMoment segmentEnd shifts ranges,
   if minutesInSegment <=? 0 then snd s else snd s - minutesInSegment).

(** The segment loop goes on after the iteration started in state [s]. *)
Definition segmentPending (shifts : list Shift) (ranges : list MaintenanceRange)
    (s : DateTime * Z) : bool :=
  let minutesInSegment :=
    diffMinutesFloor (getWorkingSegmentEnd (fst s) shifts ranges) (fst s) in
  (snd s >? 0) && ((minutesInSegment <=? 0) || negb (snd s <=? minutesInSegment)).

(** Orders compared by start, and intervals that do not overlap. *)
Definition startsNoLater (a b : WorkOrder) : Prop := startDate a <= startDate b.
Definition endsBefore (a b : WorkOrder) : Prop := endDate a <= startDate b.
Definition apart (a b : WorkOrder) : Prop :=
  endDate a <= startDate b \/ endDate b <= startDate a.
Definition apartOnCenter (a b : WorkOrder) : Prop :=
  workCenterId a = workCenterId b -> apart a b.
Definition onCenter (c : string) (wo : WorkOrder) : bool :=
  String.eqb (workCenterId wo) c.

(** The placer would leave [wo] where it is: its stored start is already an
    available start of its center and its stored end is the end of the time
    walk from there. *)
Definition keepsItsSlot (workCenterByName : JsMap.t WorkCenter) (wo : WorkOrder) : Prop :=
  let wc := JsMap.get workCenterByName (workCenterId wo) in
  getNextAvailableStart (startDate wo) (centerShifts wc) (centerWindows wc) = startDate wo
  /\ calculateEndDateWithShiftsAndMaintenance (startDate wo) (durationMinutes wo)
       (centerShifts wc) (rangesOf (centerWindows wc)) = endDate wo.

(** [a], processed before [b], is out of [b]'s way when they share a center. *)
Definition queuedBefore (a b : WorkOrder) : Prop :=
  workCenterId a = workCenterId b -> endDate a <= startDate b.

(** Order ids of the changes of a returned result. *)
Definition changedOrders (r : option (ReflowError + ReflowResult)) : option (list string) :=
  match r with
  | Some (inr result) => Some (map workOrderId (changes result))
  | _ => None
  end.

(** What the placer has recorded after leaving the orders [done] in place. *)
Definition InPlace (byNumber : JsMap.t WorkOrder) (done : list WorkOrder)
    (st : PlacerState) : Prop :=
  changesSoFar st = []
  /\ explanationParts st = []
  /\ (forall id slot, JsMap.get (newSchedule st) id = Some slot ->
        exists wo, JsMap.get byNumber id = Some wo
                   /\ slot = mkSlot (startDate wo) (endDate wo))
  /\ (forall c slots, JsMap.get (scheduledByCenter st) c = Some slots ->
        forall s, In s slots ->
          exists a, In a done /\ workCenterId a = c
                    /\ s = mkSlot (startDate a) (endDate a)).

(** Minute alignment, well-formed shifts, and the count of working minutes
    between two instants: the minute ticks from the start that lie inside a
    shift and outside every maintenance range. *)
Definition aligned (t : DateTime) : Prop := t mod MS_PER_MINUTE = 0.

Definition alignedRange (r : MaintenanceRange) : Prop :=
  aligned (r_start r) /\ aligned (r_end r).

Definition wellFormedShift (s : Shift) : Prop :=
  0 <= startHour s /\ endHour s <= 24.

Definition working (shifts : list Shift) (ranges : list MaintenanceRange)
    (t : DateTime) : bool :=
  isWithinShift t shifts && negb (isInMaintenanceRange t ranges).

(** Number of working instants among the [n] minute ticks [from],
    [from + 1 min], ... *)
Fixpoint workingMinutes (shifts : list Shift) (ranges : list MaintenanceRange)
    (from : DateTime) (n : nat) : Z :=
  match n with
  | O => 0
  | S n' =>
      (if working shifts ranges from then 1 else 0)
      + workingMinutes shifts ranges (from + MS_PER_MINUTE) n'
  end.

Definition workingMinutesBetween (shifts : list Shift) (ranges : list MaintenanceRange)
    (start end' : DateTime) : Z :=
  workingMinutes shifts ranges start (Z.to_nat ((end' - start) / MS_PER_MINUTE)).

(** The start proposed by shift [s] on the day [d] days after [dt], and the
    condition under which the scan of [getNextShiftStart] proposes it. *)
Definition candidateStart (dt : DateTime) (d : Z) (s : Shift) : DateTime :=
  setHour (startOfDay (plusDays dt d)) (startHour s).

Definition onDay (dt : DateTime) (d : Z) (s : Shift) : Prop :=
  dayOfWeek s = toPlanDayOfWeek (weekday (plusDays dt d)).

(** Every slot the placer records ends where the walk from its start ends. *)
Definition Walked (byNumber : JsMap.t WorkOrder) (centers : JsMap.t WorkCenter)
    (ns : JsMap.t Slot) : Prop :=
  forall id slot, JsMap.get ns id = Some slot ->
    exists wo,
      JsMap.get byNumber id = Some wo
      /\ slot_end slot
         = calculateEndDateWithShiftsAndMaintenance (slot_start slot) (durationMinutes wo)
             (centerShifts (JsMap.get centers (workCenterId wo)))
             (rangesOf (centerWindows (JsMap.get centers (workCenterId wo)))).

(** [reflow] returned a result (no error, no divergence) whose orders occupy
    the slots [slots], as (start, end) pairs. *)
Definition returnsWithSlots (r : option (ReflowError + ReflowResult))
    (slots : list (DateTime * DateTime)) : Prop :=
  match r with
  | Some (inr result) =>
      map (fun wo => (startDate wo, endDate wo)) (updatedWorkOrders result) = slots
  | _ => False
  end.

(** Unfolds the calendar arithmetic down to integer division and modulo. *)
Ltac timeconsts :=
  unfold aligned, weekday, hour, minute, startOfDay, setHour, plusDays, plusMinutes,
    diffMinutesFloor, MS_PER_MINUTE, MS_PER_HOUR, MS_PER_DAY in *.

(** ** Further concrete cases *)

Module Cases.
Open Scope string_scope.

(** An order that lists itself as a dependency. *)
Definition selfOrder :=
  mkWorkOrder "S" "Line1" (Examples.at_ Examples.monday 8 0)
    (Examples.at_ Examples.monday 9 0) 60 false ["S"].

(** A center whose only shift is an empty window, and an order on it. *)
Definition closedCenter : WorkCenter := mkWorkCenter "Closed" Examples.emptyShift [].
Definition closedOrder :=
  mkWorkOrder "Z" "Closed" (Examples.at_ Examples.monday 8 0)
    (Examples.at_ Examples.monday 9 0) 60 false [].

(** The center of [Examples.cell] without its maintenance window. *)
Definition cellWithoutWindow : WorkCenter := mkWorkCenter "Cell" [mkShift 1 8 9] [].

(** Tuesday 08:30, inside the maintenance window of Line2. *)
Definition duringInspection : DateTime := Examples.at_ Examples.tuesday 8 30.

(** The cascade of [Examples] as [reflow] returns it, with its change
    records and explanation. *)
Definition placedB :=
  mkWorkOrder "B" "Line1" (Examples.at_ Examples.monday 10 0)
    (Examples.at_ Examples.monday 12 0) 120 false ["A"].

Definition cascadeResult : ReflowResult :=
  mkResult Examples.cascadePlaced
    [mkChange "B" StartDateField (Examples.at_ Examples.monday 9 0)
       (Examples.at_ Examples.monday 10 0) ReasonDependency HowAfterDependency;
     mkChange "B" EndDateField (Examples.at_ Examples.monday 11 0)
       (Examples.at_ Examples.monday 12 0) ReasonCascadeFromNewStart
       HowRecalculatedFromNewStart;
     mkChange "C" StartDateField (Examples.at_ Examples.monday 9 0)
       (Examples.at_ Examples.monday 12 0) ReasonDependency HowAfterDependency;
     mkChange "C" EndDateField (Examples.at_ Examples.monday 10 0)
       (Examples.at_ Examples.monday 13 0) ReasonCascadeFromNewStart
       HowRecalculatedFromNewStart]
    (Sentences
       [StartMoved "B" (Examples.at_ Examples.monday 10 0) CauseDependencyOnParent;
        EndMoved "B" (Examples.at_ Examples.monday 12 0) CauseRecalculatedFromNewStart;
        StartMoved "C" (Examples.at_ Examples.monday 12 0) CauseDependencyOnParent;
        EndMoved "C" (Examples.at_ Examples.monday 13 0) CauseRecalculatedFromNewStart]).

(** The late order on Line2 as [reflow] returns it. *)
Definition lateResult : ReflowResult :=
  mkResult [Examples.lateOrderPlaced]
    [mkChange "W" EndDateField (Examples.at_ Examples.monday 18 0)
       (Examples.at_ Examples.tuesday 10 0) ReasonShiftOrMaintenance
       HowRecalculatedShiftAware]
    (Sentences [EndMoved "W" (Examples.at_ Examples.tuesday 10 0) CauseShiftAwarePause]).
End Cases.

(** ** Vocabulary of the further properties *)

(** [a] occurs before [b] in the list [l]. *)
Definition Precedes (a b : string) (l : list string) : Prop :=
  exists l1 l2 l3, l = l1 ++ a :: l2 ++ b :: l3.

(** In the emitted order [result], every node stands after the sources of
    its incoming edges. *)
Definition ParentsFirst (children' : JsMap.t (list string)) (nodes result : list string)
    : Prop :=
  forall c n, In c result -> In n nodes -> In c (childrenOf children' n) ->
    Precedes n c result.

(** No order of the list depends on an id of the list. *)
Definition independentOrders (workOrders : list WorkOrder) : Prop :=
  forall wo dep, In wo workOrders -> In dep (dependsOnWorkOrderIds wo) ->
    ~ In dep (map workOrderNumber workOrders).

(** A shift on a real day of the week with a non-empty window of hours. *)
Definition properShift (s : Shift) : Prop :=
  0 <= dayOfWeek s <= 6 /\ 0 <= startHour s < endHour s /\ endHour s <= 24.

(** The slot the placer computes for [wo] in the state [st]. *)
Definition slotOf (byNumber : JsMap.t WorkOrder) (workCenterByName : JsMap.t WorkCenter)
    (st : PlacerState) (wo : WorkOrder) : Slot :=
  let wc := JsMap.get workCenterByName (workCenterId wo) in
  let start := candidateStartOf byNumber workCenterByName st wo in
  mkSlot start
    (calculateEndDateWithShiftsAndMaintenance start (durationMinutes wo)
       (centerShifts wc) (rangesOf (centerWindows wc))).

(** Maintenance windows that end after [t]. *)
Definition liveWindows (t : DateTime) (windows : list MaintenanceWindow) : nat :=
  List.length (filter (fun w => t <? mw_endDate w) windows).

(** A shift whose window of hours is empty. *)
Definition emptyShiftWindow (s : Shift) : Prop := endHour s <= startHour s.

(** Whole minutes of a working segment, and of a list of segments. *)
Definition segmentMinutes (s : WorkingSegment) : Z :=
  diffMinutesFloor (seg_end s) (seg_start s).

Definition totalMinutes (segments : list WorkingSegment) : Z :=
  fold_right (fun s acc => segmentMinutes s + acc) 0 segments.

(** The stored interval of [wo] overlaps the maintenance window [win]. *)
Definition overlapsWindow (wo : WorkOrder) (win : MaintenanceWindow) : Prop :=
  startDate wo < mw_endDate win /\ mw_startDate win < endDate wo.

(** The message the standalone validator pushes for such an overlap. *)
Definition overlapError (wo : WorkOrder) (win : MaintenanceWindow) : ValidationError :=
  MaintenanceOverlap (workOrderNumber wo) (startDate wo) (endDate wo)
    (mw_startDate win) (mw_endDate win) (workCenterId wo) (mw_reason win).

(** Every dependency of [wo] is an order of the schedule that ends no later
    than [wo] starts. *)
Definition dependenciesMet (workOrders : list WorkOrder) (wo : WorkOrder) : Prop :=
  forall dep, In dep (dependsOnWorkOrderIds wo) ->
    exists parent,
      JsMap.get (CheckerCommon.indexByNumber workOrders) dep = Some parent
      /\ endDate parent <= startDate wo.

(** Maintenance ranges that end after [t]. *)
Definition liveRanges (t : DateTime) (ranges : list MaintenanceRange) : nat :=
  List.length (filter (fun r => t <? r_end r) ranges).

(** The change record [c] reports that the placer moved the start, or the
    end, of [wo] to that of [slot], and the date did change. *)
Definition describesMove (c : Change) (wo : WorkOrder) (slot : Slot) : Prop :=
  workOrderId c = workOrderNumber wo
  /\ match field c with
     | StartDateField =>
         oldValue c = startDate wo /\ newValue c = slot_start slot
         /\ startDate wo <> slot_start slot
     | EndDateField =>
         oldValue c = endDate wo /\ newValue c = slot_end slot
         /\ endDate wo <> slot_end slot
     end.

(** A change record for the field [f] of [wo] among [cs]. *)
Definition hasChange (cs : list Change) (wo : WorkOrder) (f : ChangeField) : Prop :=
  exists c, In c cs /\ workOrderId c = workOrderNumber wo /\ field c = f.

(** What the placer has recorded after placing the orders [done]. *)
Definition Recorded (done : list WorkOrder) (st : PlacerState) : Prop :=
  (forall c, In c (changesSoFar st) ->
     exists wo slot,
       In wo done /\ JsMap.get (newSchedule st) (workOrderNumber wo) = Some slot
       /\ describesMove c wo slot)
  /\ (forall wo, In wo done ->
        exists slot,
          JsMap.get (newSchedule st) (workOrderNumber wo) = Some slot
          /\ (startDate wo <> slot_start slot ->
              hasChange (changesSoFar st) wo StartDateField)
          /\ (endDate wo <> slot_end slot ->
              hasChange (changesSoFar st) wo EndDateField))
  /\ List.length (explanationParts st) = List.length (changesSoFar st).

(** The conflict message [e] names two orders of [workOrders] on the center
    [c], the first starting no later than the second and still running when
    the second starts. *)
Definition realConflict (workOrders : list WorkOrder) (e : ValidationError) : Prop :=
  exists a b,
    In a workOrders /\ In b workOrders
    /\ workCenterId a = workCenterId b
    /\ e = WorkCenterConflict (workCenterId a) (workOrderNumber a) (endDate a)
             (workOrderNumber b) (startDate b)
    /\ startDate a <= startDate b < endDate a.

(** Decides the well-formedness of a concrete list of shifts. *)
Ltac calendar_facts :=
  repeat constructor; unfold properShift, wellFormedShift, emptyShiftWindow; simpl; lia.

(** ** Work-order records as objects

    [reflow] receives an array of references to work-order records and
    returns an array of references.  The store holds the records in
    allocation order and a reference is the position of its record; the
    input array [workOrders] refers to the first [length workOrders]
    records of the store, in order.  No statement of [reflow] assigns to a
    field of a work-order record: the placer keeps its results in maps of
    its own, and records are only created, by the object spread of the final
    [workOrders.map(...)]. *)

Definition Ref := nat.
Definition Store := list WorkOrder.

(** The records an array of references refers to. *)
Definition deref (store : Store) (refs : list Ref) : list WorkOrder :=
  flat_map
    (fun ref => match nth_error store ref with Some wo => [wo] | None => [] end)
    refs.

(** The callback of [workOrders.map(...)] applied to the record [wo] held at
    [ref]: [return wo] hands the reference back, the object spread
    [{ ...wo, startDate, endDate }] allocates a record at the end of the
    store.  [acc] is the store with the part of the output array built so
    far. *)
Definition updateOrderRef (newSchedule' : JsMap.t Slot) (acc : Store * list Ref)
    (entry : Ref * WorkOrder) : Store * list Ref :=
  let ref := fst entry in
  let wo := snd entry in
  if isMaintenance wo then (fst acc, snd acc ++ [ref])
  else match JsMap.get newSchedule' (workOrderNumber wo) with
       | None => (fst acc, snd acc ++ [ref])
       | Some next =>
           (fst acc ++
              [mkWorkOrder (workOrderNumber wo) (workCenterId wo) (slot_start next)
                 (slot_end next) (durationMinutes wo) (isMaintenance wo)
                 (dependsOnWorkOrderIds wo)],
            snd acc ++ [List.length (fst acc)])
       end.

Definition updateOrderRefs (newSchedule' : JsMap.t Slot) (workOrders : list WorkOrder)
    : Store * list Ref :=
  fold_left (updateOrderRef newSchedule')
    (combine (seq 0 (List.length workOrders)) workOrders) (workOrders, []).

(** [reflow] on the store: the store after the call and the returned array
    of references come with the result; [updatedWorkOrders] lists the
    records the returned references refer to. *)
Definition reflowOnStore (fuel : nat) (workOrders : list WorkOrder)
    (workCenters : list WorkCenter)
    : option (ReflowError + (Store * list Ref * ReflowResult)) :=
  match topologicalOrder workOrders with
  | None => None
  | Some (inl e) => Some (inl e)
  | Some (inr orderIds) =>
      let st := place workOrders workCenters orderIds in
      let objects := updateOrderRefs (newSchedule st) workOrders in
      let updated := deref (fst objects) (snd objects) in
      match Checker.validateSchedule fuel updated workCenters with
      | None => None
      | Some validation =>
          if negb (valid validation) then Some (inl (InvalidSchedule (errors validation)))
          else
            Some (inr (fst objects, snd objects,
                       mkResult updated (changesSoFar st)
                         (match explanationParts st with
                          | [] => NoChangesRequired
                          | parts => Sentences parts
                          end)))
      end
  end.

(** The outcome of [reflowOnStore] without the store. *)
Definition withoutStore (r : option (ReflowError + (Store * list Ref * ReflowResult)))
    : option (ReflowError + ReflowResult) :=
  match r with
  | None => None
  | Some (inl e) => Some (inl e)
  | Some (inr objects) => Some (inr (snd objects))
  end.

Module Servicing.
Open Scope string_scope.

(** A maintenance order on Line1, Tuesday 08:00 to 10:00, an order stored
    inside that interval on the same center, and an order that depends on
    the maintenance order. *)
Definition servicing :=
  mkWorkOrder "M" "Line1" (Examples.at_ Examples.tuesday 8 0)
    (Examples.at_ Examples.tuesday 10 0) 120 true [].

(** [afterServicing] as [reflow] returns it. *)
Definition afterServicingPlaced :=
  mkWorkOrder "D" "Line1" (Examples.at_ Examples.tuesday 10 0)
    (Examples.at_ Examples.tuesday 10 30) 30 false ["M"].

Definition result : ReflowResult :=
  mkResult [servicing; afterServicingPlaced]
    [mkChange "D" StartDateField (Examples.at_ Examples.tuesday 8 0)
       (Examples.at_ Examples.tuesday 10 0) ReasonDependency HowAfterDependency;
     mkChange "D" EndDateField (Examples.at_ Examples.tuesday 8 30)
       (Examples.at_ Examples.tuesday 10 30) ReasonCascadeFromNewStart
       HowRecalculatedFromNewStart]
    (Sentences
       [StartMoved "D" (Examples.at_ Examples.tuesday 10 0) CauseDependencyOnParent;
        EndMoved "D" (Examples.at_ Examples.tuesday 10 30) CauseRecalculatedFromNewStart]).
End Servicing.

(** [ref'] is what the callback of [workOrders.map(...)] returned for the
    record of [entry]: it refers, in [store], to the updated record; a
    maintenance order keeps its reference, and a rescheduled order has a
    reference allocated after [store0]. *)
Definition Rebuilt (newSchedule' : JsMap.t Slot) (store0 store : Store)
    (entry : Ref * WorkOrder) (ref' : Ref) : Prop :=
  nth_error store ref' = Some (updateOrder newSchedule' (snd entry))
  /\ (isMaintenance (snd entry) = true -> ref' = fst entry)
  /\ (isMaintenance (snd entry) = false ->
      JsMap.get newSchedule' (workOrderNumber (snd entry)) <> None ->
      (List.length store0 <= ref')%nat).


(** ** Auxiliary facts: maps *)

Section JsMapFacts.
Context {V : Type}.
Implicit Types (m : JsMap.t V) (k : string) (v : V).

Lemma get_set_same m k v : JsMap.get (JsMap.set m k v) k = Some v.
Proof.
  induction m as [| [k' v'] m IH]; simpl.
  - now rewrite String.eqb_refl.
  - destruct (String.eqb k' k) eqn:E; simpl; rewrite E; auto.
Qed.

Lemma get_set_other m k k' v :
  k <> k' -> JsMap.get (JsMap.set m k v) k' = JsMap.get m k'.
Proof.
  intros Hne. induction m as [| [k0 v0] m IH]; simpl.
  - destruct (String.eqb k k') eqn:E; auto.
    apply String.eqb_eq in E. contradiction.
  - destruct (String.eqb k0 k) eqn:E; simpl.
    + apply String.eqb_eq in E; subst k0.
      destruct (String.eqb k k') eqn:E'; auto.
      apply String.eqb_eq in E'. contradiction.
    + now rewrite IH.
Qed.

Lemma get_In m k v : JsMap.get m k = Some v -> In (k, v) m.
Proof.
  induction m as [| [k' v'] m IH]; simpl; [discriminate |].
  destruct (String.eqb k' k) eqn:E.
  - apply String.eqb_eq in E. intros [= ->]. subst. now left.
  - intros H. right. auto.
Qed.

Lemma get_None_keys m k : JsMap.get m k = None <-> ~ In k (JsMap.keys m).
Proof.
  induction m as [| [k' v'] m IH]; simpl.
  - tauto.
  - destruct (String.eqb k' k) eqn:E.
    + apply String.eqb_eq in E. split; [discriminate | intros H; exfalso; auto].
    + apply String.eqb_neq in E. rewrite IH. tauto.
Qed.

Lemma keys_set m k v :
  JsMap.keys (JsMap.set m k v)
  = if JsMap.has m k then JsMap.keys m else JsMap.keys m ++ [k].
Proof.
  unfold JsMap.has.
  induction m as [| [k' v'] m IH]; simpl; auto.
  destruct (String.eqb k' k) eqn:E; simpl; auto.
  unfold JsMap.keys in *. rewrite IH.
  destruct (JsMap.get m k); auto.
Qed.

Lemma keys_set_In m k v x :
  In x (JsMap.keys (JsMap.set m k v)) <-> x = k \/ In x (JsMap.keys m).
Proof.
  rewrite keys_set. unfold JsMap.has.
  destruct (JsMap.get m k) eqn:E.
  - split; auto. intros [-> | H]; auto.
    destruct (in_dec string_dec k (JsMap.keys m)) as [Hin | Hout]; auto.
    apply get_None_keys in Hout. congruence.
  - rewrite in_app_iff. simpl. intuition.
Qed.

Lemma keys_set_NoDup m k v :
  NoDup (JsMap.keys m) -> NoDup (JsMap.keys (JsMap.set m k v)).
Proof.
  intros Hnd. rewrite keys_set. unfold JsMap.has.
  destruct (JsMap.get m k) eqn:E; auto.
  apply get_None_keys in E.
  apply NoDup_app; auto.
  - constructor; [intros [] | constructor].
  - intros x Hx [<- | []]. contradiction.
Qed.
End JsMapFacts.

(** ** Auxiliary facts: the validators only append errors *)

Lemma Appends_refl errs : Appends errs errs.
Proof. exists []. split; [now rewrite app_nil_r | constructor]. Qed.

Lemma Appends_trans a b c : Appends a b -> Appends b c -> Appends a c.
Proof.
  intros (x & -> & Hx) (y & -> & Hy). exists (x ++ y). split.
  - now rewrite app_assoc.
  - apply Forall_app; auto.
Qed.

Lemma Appends_one errs e :
  isMaintenanceOverlap e = false -> Appends errs (errs ++ [e]).
Proof. intros H. exists [e]. split; auto. Qed.

Lemma Appends_nil errs : Appends errs [] -> errs = [].
Proof. intros (x & H & _). symmetry in H. now apply app_eq_nil in H. Qed.

Lemma Appends_In errs errs' e : Appends errs errs' -> In e errs -> In e errs'.
Proof. intros (x & -> & _) H. apply in_or_app; auto. Qed.

Create HintDb appends.
#[local] Hint Resolve Appends_refl Appends_one : appends.

Section CheckerFacts.
Import CheckerCommon.

Lemma checkAdjacent_app c sorted errs :
  checkAdjacent c sorted errs = errs ++ checkAdjacent c sorted [].
Proof.
  revert errs. induction sorted as [| a rest IH]; intros errs; simpl.
  - now rewrite app_nil_r.
  - destruct rest as [| b rest']; [now rewrite app_nil_r |].
    destruct (endDate a >? startDate b).
    + rewrite IH. rewrite (IH [_]). now rewrite <- app_assoc.
    + apply IH.
Qed.

Lemma checkAdjacent_Appends c sorted errs :
  Appends errs (checkAdjacent c sorted errs).
Proof.
  revert errs. induction sorted as [| a rest IH]; intros errs; simpl.
  - auto with appends.
  - destruct rest as [| b rest']; [auto with appends |].
    eapply Appends_trans; [| apply IH].
    destruct (endDate a >? startDate b); auto with appends.
Qed.

Lemma conflicts_fold_Appends (entries : list (string * list WorkOrder)) errs :
  Appends errs
    (fold_left (fun errs entry => checkAdjacent (fst entry) (sortByStart (snd entry)) errs)
       entries errs).
Proof.
  revert errs. induction entries as [| e entries IH]; intros errs; simpl.
  - auto with appends.
  - eapply Appends_trans; [apply checkAdjacent_Appends | apply IH].
Qed.

Lemma checkWorkCenterConflicts_Appends wos errs :
  Appends errs (checkWorkCenterConflicts wos errs).
Proof. apply conflicts_fold_Appends. Qed.

Lemma scanParents_fold_Appends byNumber wo deps acc :
  Appends (snd acc) (snd (fold_left (scanParent byNumber wo) deps acc)).
Proof.
  revert acc. induction deps as [| d deps IH]; intros acc; simpl.
  - auto with appends.
  - eapply Appends_trans; [| apply IH].
    unfold scanParent. destruct (JsMap.get byNumber d); simpl.
    + destruct (fst acc); simpl; [destruct (_ >? _) |]; simpl; auto with appends.
    + auto with appends.
Qed.

Lemma scanParents_Appends byNumber wo acc :
  Appends (snd acc) (snd (scanParents byNumber wo acc)).
Proof. apply scanParents_fold_Appends. Qed.

Lemma checkDependenciesOf_Appends byNumber errs wo :
  Appends errs (checkDependenciesOf byNumber errs wo).
Proof.
  unfold checkDependenciesOf.
  destruct (dependsOnWorkOrderIds wo) eqn:Hd; [auto with appends |].
  pose proof (scanParents_Appends byNumber wo (None, errs)) as H.
  destruct (scanParents byNumber wo (None, errs)) as [mx errs']. simpl in H.
  destruct mx as [m |]; auto.
  destruct (startDate wo <? m); auto.
  eapply Appends_trans; [apply H | auto with appends].
Qed.

Lemma dependencies_fold_Appends byNumber wos errs :
  Appends errs (fold_left (checkDependenciesOf byNumber) wos errs).
Proof.
  revert errs. induction wos as [| wo wos IH]; intros errs; simpl.
  - auto with appends.
  - eapply Appends_trans; [apply checkDependenciesOf_Appends | apply IH].
Qed.

Lemma checkDependencies_Appends wos errs :
  Appends errs (checkDependencies wos errs).
Proof. apply dependencies_fold_Appends. Qed.

Lemma Checker_checkShiftsOf_Appends fuel wcs wo errs errs' :
  Checker.checkShiftsOf fuel wcs wo errs = Some errs' -> Appends errs errs'.
Proof.
  unfold Checker.checkShiftsOf.
  destruct (findCenter wcs (workCenterId wo)) as [wc |];
    [| intros [= <-]; auto with appends].
  destruct (shifts wc) as [| s l]; [intros [= <-]; auto with appends |].
  match goal with |- match ?c with _ => _ end = _ -> _ => destruct c end;
    [| discriminate].
  intros H. injection H as <-.
  destruct (negb _); destruct (_ >? END_TOLERANCE_MS); auto with appends.
  eapply Appends_trans; apply Appends_one; reflexivity.
Qed.

Lemma Checker_checkShifts_Appends fuel wos wcs errs errs' :
  Checker.checkShifts fuel wos wcs errs = Some errs' -> Appends errs errs'.
Proof.
  revert errs. induction wos as [| wo wos IH]; intros errs; simpl.
  - intros [= <-]. auto with appends.
  - destruct (Checker.checkShiftsOf fuel wcs wo errs) eqn:E; [| discriminate].
    intros H. eapply Appends_trans; [eapply Checker_checkShiftsOf_Appends; eauto | eauto].
Qed.

Lemma Checker_validate_inv fuel wos wcs r :
  Checker.validateSchedule fuel wos wcs = Some r ->
  exists errs3,
    Checker.checkShifts fuel wos wcs
      (checkDependencies wos (checkWorkCenterConflicts wos [])) = Some errs3
    /\ errors r = errs3
    /\ valid r = Nat.eqb (List.length errs3) 0.
Proof.
  unfold Checker.validateSchedule, Checker.checkMaintenance.
  destruct (Checker.checkShifts _ _ _ _) as [errs3 |]; [| discriminate].
  intros [= <-]. exists errs3. auto.
Qed.

Lemma Checker_validate_valid fuel wos wcs r :
  Checker.validateSchedule fuel wos wcs = Some r -> valid r = true ->
  errors r = []
  /\ checkWorkCenterConflicts wos [] = []
  /\ checkDependencies wos [] = []
  /\ Checker.checkShifts fuel wos wcs [] = Some [].
Proof.
  intros H Hv. apply Checker_validate_inv in H as (errs3 & H3 & He & Hval).
  rewrite Hv in Hval. symmetry in Hval. apply Nat.eqb_eq in Hval.
  apply length_zero_iff_nil in Hval. rewrite Hval in He, H3. clear Hval.
  pose proof (Checker_checkShifts_Appends _ _ _ _ _ H3) as A3.
  apply Appends_nil in A3.
  pose proof (checkDependencies_Appends wos (checkWorkCenterConflicts wos [])) as A2.
  rewrite A3 in A2. apply Appends_nil in A2.
  rewrite A2 in A3, H3. rewrite A3 in H3. auto.
Qed.
End CheckerFacts.

(** ** The standalone maintenance check reports every overlap *)

Section StandaloneFacts.

Lemma scanWindows_keeps wo windows errs e :
  In e errs -> In e (Standalone.scanWindows wo windows errs).
Proof.
  unfold Standalone.scanWindows. revert errs.
  induction windows as [| w ws IH]; intros errs H; simpl; auto.
  apply IH. destruct (_ && _); auto. apply in_or_app; auto.
Qed.

Lemma scanWindows_reports wo windows errs win :
  In win windows ->
  startDate wo < mw_endDate win -> mw_startDate win < endDate wo ->
  In (MaintenanceOverlap (workOrderNumber wo) (startDate wo) (endDate wo)
        (mw_startDate win) (mw_endDate win) (workCenterId wo) (mw_reason win))
     (Standalone.scanWindows wo windows errs).
Proof.
  unfold Standalone.scanWindows. revert errs.
  induction windows as [| w ws IH]; intros errs Hin H1 H2; simpl; [destruct Hin |].
  destruct Hin as [-> | Hin].
  - apply scanWindows_keeps.
    replace (startDate wo <? mw_endDate win) with true by (symmetry; apply Z.ltb_lt; lia).
    replace (endDate wo >? mw_startDate win) with true
      by (symmetry; apply Z.gtb_lt; lia).
    simpl. apply in_or_app. right. now left.
  - now apply IH.
Qed.

Lemma checkMaintenanceOf_keeps centers wo errs e :
  In e errs -> In e (Standalone.checkMaintenanceOf centers errs wo).
Proof.
  intros H. unfold Standalone.checkMaintenanceOf.
  destruct (JsMap.get centers (workCenterId wo)) as [wc |]; auto.
  destruct (maintenanceWindows wc); auto. now apply scanWindows_keeps.
Qed.

Lemma checkMaintenance_fold_keeps centers wos errs e :
  In e errs -> In e (fold_left (Standalone.checkMaintenanceOf centers) wos errs).
Proof.
  revert errs. induction wos as [| wo wos IH]; intros errs H; simpl; auto.
  apply IH. now apply checkMaintenanceOf_keeps.
Qed.

Lemma standalone_checkMaintenance_reports wos wcs errs wo wc win :
  In wo wos ->
  JsMap.get (Standalone.indexCenters wcs) (workCenterId wo) = Some wc ->
  In win (maintenanceWindows wc) ->
  startDate wo < mw_endDate win -> mw_startDate win < endDate wo ->
  In (MaintenanceOverlap (workOrderNumber wo) (startDate wo) (endDate wo)
        (mw_startDate win) (mw_endDate win) (workCenterId wo) (mw_reason win))
     (Standalone.checkMaintenance wos wcs errs).
Proof.
  intros Hin Hwc Hwin H1 H2. unfold Standalone.checkMaintenance. revert errs.
  induction wos as [| w wos IH]; intros errs; simpl; [destruct Hin |].
  destruct Hin as [-> | Hin]; [| now apply IH].
  apply checkMaintenance_fold_keeps.
  unfold Standalone.checkMaintenanceOf. rewrite Hwc.
  destruct (maintenanceWindows wc) eqn:E; [destruct Hwin |].
  rewrite <- E in *. now apply scanWindows_reports.
Qed.
End StandaloneFacts.

(** ** Claims about the validators and the interface of [reflow] *)

(** C8 (zero-shift fallback).  With an empty shift list the walk returns the
    start plus [durationMinutes] minutes of wall-clock time, whatever the
    maintenance ranges are; the segment-producing variant returns that single
    interval. *)
Theorem zero_shift_fallback :
  forall (start : DateTime) (duration : Z) (ranges : list MaintenanceRange),
    calculateEndDateWithShiftsAndMaintenance start duration [] ranges
      = start + duration * MS_PER_MINUTE
    /\ calculateEndDateWithShiftsAndMaintenance start duration [] ranges
      = calculateEndDateWithShiftsAndMaintenance start duration [] []
    /\ getWorkingSegments start duration [] ranges
      = [mkSegment start (start + duration * MS_PER_MINUTE)].
Proof. intros. repeat split. Qed.

(** What a returned result consists of. *)
Lemma reflow_inv fuel wos wcs res :
  reflow fuel wos wcs = Some (inr res) ->
  exists orderIds,
    topologicalOrder wos = Some (inr orderIds)
    /\ updatedWorkOrders res
       = map (updateOrder (newSchedule (place wos wcs orderIds))) wos
    /\ changes res = changesSoFar (place wos wcs orderIds)
    /\ Checker.validateSchedule fuel (updatedWorkOrders res) wcs
       = Some (mkValidation true []).
Proof.
  unfold reflow.
  destruct (topologicalOrder wos) as [[e | ids] |]; try discriminate.
  destruct (Checker.validateSchedule fuel _ wcs) as [v |] eqn:Hv; [| discriminate].
  destruct (valid v) eqn:Hvalid; simpl; [| discriminate].
  intros [= <-]. exists ids. simpl. repeat split; auto. rewrite Hv.
  destruct (Checker_validate_valid _ _ _ _ Hv Hvalid) as (He & _).
  destruct v as [vb ve]. simpl in *. now subst.
Qed.

(** C4 (round trip).  Whenever [reflow] returns a result, the validator it
    uses, run on the returned orders with the same work centers, reports
    valid with an empty error list. *)
Theorem reflow_round_trip :
  forall fuel workOrders workCenters result,
    reflow fuel workOrders workCenters = Some (inr result) ->
    Checker.validateSchedule fuel (updatedWorkOrders result) workCenters
      = Some (mkValidation true []).
Proof.
  intros fuel wos wcs res Hr.
  destruct (reflow_inv _ _ _ _ Hr) as (ids & _ & _ & _ & Hv).
  exact Hv.
Qed.

Lemma reflow_round_trip_witness :
  exists result,
    reflow 100 Examples.cascade [Examples.line1] = Some (inr result)
    /\ Checker.validateSchedule 100 (updatedWorkOrders result) [Examples.line1]
       = Some (mkValidation true []).
Proof.
  eexists. split.
  - vm_compute. reflexivity.
  - apply (reflow_round_trip 100 Examples.cascade [Examples.line1]).
    vm_compute. reflexivity.
Defined.

(** C10 (maintenance check).  In the validator called by [reflow] the
    maintenance check returns the error list unchanged and no schedule ever
    gets a maintenance-overlap error from that validator; the standalone
    validator reports every order whose stored interval overlaps a window of
    its center, and is then not valid. *)
Theorem maintenance_check_is_noop_in_reflow_validator :
  (forall workOrders workCenters errs,
      Checker.checkMaintenance workOrders workCenters errs = errs)
  /\ (forall fuel workOrders workCenters report,
        Checker.validateSchedule fuel workOrders workCenters = Some report ->
        Forall (fun e => isMaintenanceOverlap e = false) (errors report))
  /\ (forall fuel workOrders workCenters report wo wc win,
        Standalone.validateSchedule fuel workOrders workCenters = Some report ->
        In wo workOrders ->
        JsMap.get (Standalone.indexCenters workCenters) (workCenterId wo) = Some wc ->
        In win (maintenanceWindows wc) ->
        startDate wo < mw_endDate win -> mw_startDate win < endDate wo ->
        In (MaintenanceOverlap (workOrderNumber wo) (startDate wo) (endDate wo)
              (mw_startDate win) (mw_endDate win) (workCenterId wo) (mw_reason win))
           (errors report)
        /\ valid report = false).
Proof.
  split; [reflexivity | split].
  - intros fuel wos wcs r H.
    apply Checker_validate_inv in H as (errs3 & H3 & <- & _).
    apply Checker_checkShifts_Appends in H3.
    pose proof (CheckerCommon.checkDependencies wos
                  (CheckerCommon.checkWorkCenterConflicts wos [])) as errs2.
    pose proof (Appends_trans _ _ _
                  (checkWorkCenterConflicts_Appends wos [])
                  (Appends_trans _ _ _ (checkDependencies_Appends wos _) H3)) as A.
    destruct A as (extra & -> & Hextra). exact Hextra.
  - intros fuel wos wcs r wo wc win H Hin Hwc Hwin H1 H2.
    unfold Standalone.validateSchedule in H.
    destruct (Standalone.checkShifts _ _ _ _) as [errs3 |]; [| discriminate].
    injection H as <-. simpl.
    pose proof (standalone_checkMaintenance_reports wos wcs errs3 wo wc win
                  Hin Hwc Hwin H1 H2) as Hrep.
    split; [exact Hrep |].
    destruct (Standalone.checkMaintenance wos wcs errs3); [destruct Hrep | reflexivity].
Qed.

Lemma maintenance_check_is_noop_in_reflow_validator_witness :
  Checker.validateSchedule 100 [Examples.lateOrderPlaced] [Examples.line2]
    = Some (mkValidation true [])
  /\ exists report,
       Standalone.validateSchedule 100 [Examples.lateOrderPlaced] [Examples.line2]
         = Some report
       /\ In (MaintenanceOverlap "W"%string (Examples.at_ 4 16 0) (Examples.at_ 5 10 0)
                (Examples.at_ 5 8 0) (Examples.at_ 5 9 0) "Line2"%string
                (Some "inspection"%string))
             (errors report)
       /\ valid report = false.
Proof.
  split; [vm_compute; reflexivity |].
  eexists. split; [vm_compute; reflexivity |].
  destruct maintenance_check_is_noop_in_reflow_validator as (_ & _ & H).
  apply (H 100%nat [Examples.lateOrderPlaced] [Examples.line2] _
           Examples.lateOrderPlaced Examples.line2
           (mkWindow (Examples.at_ 5 8 0) (Examples.at_ 5 9 0) (Some "inspection"%string))).
  - vm_compute. reflexivity.
  - simpl. auto.
  - vm_compute. reflexivity.
  - simpl. auto.
  - vm_compute. reflexivity.
  - vm_compute. reflexivity.
Defined.

(** ** Kahn's algorithm: the graph tables *)

Section SumFacts.
Lemma list_sum_update (f f' : string -> nat) (nodes : list string) (k : string) (a : nat) :
  NoDup nodes -> In k nodes ->
  (forall n, n <> k -> f' n = f n) -> f' k = (f k + a)%nat ->
  list_sum (map f' nodes) = (list_sum (map f nodes) + a)%nat.
Proof.
  intros Hnd Hin Hother Hk. induction nodes as [| n nodes IH]; [destruct Hin |].
  inversion Hnd as [| ? ? Hnotin Hnd']; subst. simpl.
  destruct Hin as [-> | Hin].
  - rewrite Hk. rewrite (map_ext_in f' f).
    + lia.
    + intros x Hx. apply Hother. intros ->. contradiction.
  - rewrite IH; auto. rewrite Hother; [lia |]. intros ->. contradiction.
Qed.

Lemma list_sum_same (f f' : string -> nat) (nodes : list string) :
  (forall n, In n nodes -> f' n = f n) ->
  list_sum (map f' nodes) = list_sum (map f nodes).
Proof. intros H. f_equal. now apply map_ext_in. Qed.

Lemma memString_In x l : memString x l = true <-> In x l.
Proof.
  unfold memString. rewrite existsb_exists. split.
  - intros (y & Hy & E). apply String.eqb_eq in E. now subst.
  - intros H. exists x. split; auto. apply String.eqb_refl.
Qed.

Lemma memString_false x l : memString x l = false <-> ~ In x l.
Proof.
  rewrite <- memString_In. destruct (memString x l); split; intros; congruence.
Qed.

Lemma occurrences_app c l1 l2 :
  occurrences c (l1 ++ l2) = (occurrences c l1 + occurrences c l2)%nat.
Proof. apply count_occ_app. Qed.

Lemma occurrences_pos c l : In c l <-> (occurrences c l > 0)%nat.
Proof. apply count_occ_In. Qed.
End SumFacts.

Section GraphFacts.

Lemma has_keys {V : Type} (m : JsMap.t V) k : JsMap.has m k = true <-> In k (JsMap.keys m).
Proof.
  unfold JsMap.has. destruct (JsMap.get m k) eqn:E.
  - split; auto. intros _.
    destruct (in_dec string_dec k (JsMap.keys m)) as [H | H]; auto.
    apply get_None_keys in H. congruence.
  - apply get_None_keys in E. split; [discriminate | contradiction].
Qed.

Lemma keys_set_present {V : Type} (m : JsMap.t V) k v :
  In k (JsMap.keys m) -> JsMap.keys (JsMap.set m k v) = JsMap.keys m.
Proof. intros H. rewrite keys_set. apply has_keys in H. now rewrite H. Qed.

Lemma get_Some_keys {V : Type} (m : JsMap.t V) k v :
  JsMap.get m k = Some v -> In k (JsMap.keys m).
Proof. intros H. apply has_keys. unfold JsMap.has. now rewrite H. Qed.

Lemma keys_get_Some {V : Type} (m : JsMap.t V) k :
  In k (JsMap.keys m) -> exists v, JsMap.get m k = Some v.
Proof.
  intros H. destruct (JsMap.get m k) eqn:E; eauto.
  apply get_None_keys in E. contradiction.
Qed.

Lemma indexByNumber_keys_gen (l : list WorkOrder) (m : JsMap.t WorkOrder) k :
  In k (JsMap.keys (fold_left (fun m wo => JsMap.set m (workOrderNumber wo) wo) l m))
  <-> In k (JsMap.keys m) \/ In k (map workOrderNumber l).
Proof.
  revert m. induction l as [| wo l IH]; intros m; simpl; [tauto |].
  rewrite IH, keys_set_In. intuition.
Qed.

Lemma indexByNumber_keys wos k :
  In k (JsMap.keys (indexByNumber wos)) <-> In k (map workOrderNumber wos).
Proof. unfold indexByNumber. rewrite indexByNumber_keys_gen. simpl. tauto. Qed.

Lemma indexByNumber_get_In_gen (l : list WorkOrder) (m : JsMap.t WorkOrder) k wo :
  JsMap.get (fold_left (fun m wo => JsMap.set m (workOrderNumber wo) wo) l m) k = Some wo ->
  (In wo l /\ workOrderNumber wo = k) \/ JsMap.get m k = Some wo.
Proof.
  revert m. induction l as [| w l IH]; intros m H; simpl in *; auto.
  apply IH in H as [[H1 H2] | H]; auto.
  destruct (string_dec (workOrderNumber w) k) as [E | E].
  - subst k. rewrite get_set_same in H. injection H as <-. auto.
  - rewrite get_set_other in H; auto.
Qed.

Lemma indexByNumber_get_In wos k wo :
  JsMap.get (indexByNumber wos) k = Some wo -> In wo wos /\ workOrderNumber wo = k.
Proof.
  intros H. apply indexByNumber_get_In_gen in H as [H | H]; auto. discriminate.
Qed.

Lemma initGraph_gen (l : list WorkOrder) (g : Graph) :
  JsMap.keys (inDegree g) = JsMap.keys (children g) ->
  NoDup (JsMap.keys (inDegree g)) ->
  (forall c v, JsMap.get (inDegree g) c = Some v -> v = 0) ->
  (forall n v, JsMap.get (children g) n = Some v -> v = []) ->
  let g' :=
    fold_left
      (fun g wo =>
         mkGraph (JsMap.set (inDegree g) (workOrderNumber wo) 0)
                 (JsMap.set (children g) (workOrderNumber wo) []))
      l g in
  JsMap.keys (inDegree g') = JsMap.keys (children g')
  /\ NoDup (JsMap.keys (inDegree g'))
  /\ (forall c v, JsMap.get (inDegree g') c = Some v -> v = 0)
  /\ (forall n v, JsMap.get (children g') n = Some v -> v = [])
  /\ (forall k, In k (JsMap.keys (inDegree g'))
                <-> In k (JsMap.keys (inDegree g)) \/ In k (map workOrderNumber l)).
Proof.
  revert g. induction l as [| wo l IH]; intros g Hk Hnd Hz Hc; simpl.
  - repeat split; auto; tauto.
  - specialize (IH (mkGraph (JsMap.set (inDegree g) (workOrderNumber wo) 0)
                            (JsMap.set (children g) (workOrderNumber wo) []))).
    simpl in IH. destruct IH as (H1 & H2 & H3 & H4 & H5).
    + rewrite !keys_set. unfold JsMap.has.
      destruct (JsMap.get (inDegree g) (workOrderNumber wo)) eqn:E1;
        destruct (JsMap.get (children g) (workOrderNumber wo)) eqn:E2;
        rewrite Hk; auto.
      * apply get_Some_keys in E1. rewrite Hk in E1.
        apply get_None_keys in E2. contradiction.
      * apply get_Some_keys in E2. rewrite <- Hk in E2.
        apply get_None_keys in E1. contradiction.
    + now apply keys_set_NoDup.
    + intros c v. destruct (string_dec (workOrderNumber wo) c) as [<- | Hne].
      * rewrite get_set_same. congruence.
      * rewrite get_set_other; auto. apply Hz.
    + intros n v. destruct (string_dec (workOrderNumber wo) n) as [<- | Hne].
      * rewrite get_set_same. congruence.
      * rewrite get_set_other; auto. apply Hc.
    + repeat split; auto.
      * intros Hin. apply H5 in Hin. rewrite keys_set_In in Hin. intuition.
      * intros Hin. apply H5. rewrite keys_set_In. intuition.
Qed.

Lemma pendingEdges_blank (ch : JsMap.t (list string)) nodes result c :
  (forall n v, JsMap.get ch n = Some v -> v = []) ->
  pendingEdges ch nodes result c = O.
Proof.
  intros Hc. unfold pendingEdges.
  induction nodes as [| n nodes IH]; simpl; auto.
  rewrite IH. destruct (memString n result); auto.
  unfold childrenOf. destruct (JsMap.get ch n) eqn:E; simpl; auto.
  apply Hc in E. now subst.
Qed.

Lemma initGraph_ok wos :
  let nodes := JsMap.keys (inDegree (initGraph wos)) in
  GraphOK nodes (initGraph wos)
  /\ NoDup nodes
  /\ (forall k, In k nodes <-> In k (map workOrderNumber wos)).
Proof.
  unfold initGraph.
  destruct (initGraph_gen wos (mkGraph JsMap.empty JsMap.empty))
    as (H1 & H2 & H3 & H4 & H5); simpl; auto; try discriminate; [constructor |].
  simpl in *. repeat split; auto.
  - intros c Hc. destruct (keys_get_Some _ _ Hc) as (v & Hv).
    rewrite Hv. apply H3 in Hv. subst v.
    rewrite pendingEdges_blank; auto.
  - intros n c. unfold childrenOf.
    destruct (JsMap.get _ n) eqn:E; simpl; [| tauto].
    apply H4 in E. subst. simpl. tauto.
  - intros Hin. apply H5 in Hin. tauto.
  - intros Hin. apply H5. tauto.
Qed.
End GraphFacts.

Section BuildGraphFacts.

Lemma childrenOf_set_same ch k l : childrenOf (JsMap.set ch k l) k = l.
Proof. unfold childrenOf. now rewrite get_set_same. Qed.

Lemma childrenOf_set_other ch k n l :
  k <> n -> childrenOf (JsMap.set ch k l) n = childrenOf ch n.
Proof. intros H. unfold childrenOf. now rewrite get_set_other. Qed.

Lemma occurrences_snoc c l w :
  occurrences c (l ++ [w]) = (occurrences c l + if string_dec w c then 1 else 0)%nat.
Proof.
  rewrite occurrences_app. unfold occurrences at 2. simpl.
  destruct (string_dec w c); reflexivity.
Qed.

Lemma addEdge_ok nodes byNumber wo g depId :
  NoDup nodes -> GraphOK nodes g ->
  In (workOrderNumber wo) nodes ->
  (JsMap.has byNumber depId = true -> In depId nodes) ->
  GraphOK nodes (addEdge byNumber wo g depId).
Proof.
  intros Hnd (K1 & K2 & Hdeg & Hch) Hw Hdep. unfold addEdge.
  destruct (JsMap.has byNumber depId) eqn:Hhas; simpl; [| repeat split; auto].
  specialize (Hdep eq_refl).
  set (w := workOrderNumber wo) in *.
  set (L := orDefault (JsMap.get (children g) depId) []).
  repeat split; simpl.
  - rewrite keys_set_present; auto. now rewrite K1.
  - rewrite keys_set_present; auto. now rewrite K2.
  - intros c Hc. destruct (string_dec w c) as [<- | Hne].
    + rewrite get_set_same. rewrite (Hdeg w Hw). simpl. f_equal.
      unfold pendingEdges. simpl.
      rewrite (list_sum_update
                 (fun n => occurrences w (childrenOf (children g) n))
                 (fun n => occurrences w (childrenOf (JsMap.set (children g) depId (L ++ [w])) n))
                 nodes depId 1); auto.
      * lia.
      * intros n Hn. rewrite childrenOf_set_other; auto.
      * rewrite childrenOf_set_same, occurrences_snoc.
        destruct (string_dec w w); [reflexivity | contradiction].
    + rewrite get_set_other; auto. rewrite (Hdeg c Hc). do 2 f_equal.
      unfold pendingEdges. simpl. apply list_sum_same. intros n Hn.
      destruct (string_dec depId n) as [<- | Hdn].
      * rewrite childrenOf_set_same, occurrences_snoc.
        destruct (string_dec w c); [contradiction |]. unfold L, childrenOf. lia.
      * now rewrite childrenOf_set_other.
  - intros n c. destruct (string_dec depId n) as [<- | Hdn].
    + rewrite childrenOf_set_same, in_app_iff. intros [H | [<- | []]]; auto.
      apply (Hch depId). exact H.
    + rewrite childrenOf_set_other; auto. apply Hch.
Qed.

Lemma addEdges_ok nodes byNumber wo deps g :
  NoDup nodes -> GraphOK nodes g ->
  In (workOrderNumber wo) nodes ->
  (forall depId, JsMap.has byNumber depId = true -> In depId nodes) ->
  GraphOK nodes (fold_left (addEdge byNumber wo) deps g).
Proof.
  intros Hnd Hg Hw Hdep. revert g Hg.
  induction deps as [| d deps IH]; intros g Hg; simpl; auto.
  apply IH. apply addEdge_ok; auto.
Qed.

Lemma buildGraph_fold_ok nodes byNumber (l : list WorkOrder) g :
  NoDup nodes -> GraphOK nodes g ->
  (forall wo, In wo l -> In (workOrderNumber wo) nodes) ->
  (forall depId, JsMap.has byNumber depId = true -> In depId nodes) ->
  GraphOK nodes
    (fold_left (fun g wo => fold_left (addEdge byNumber wo) (dependsOnWorkOrderIds wo) g)
       l g).
Proof.
  intros Hnd Hg Hl Hdep. revert g Hg.
  induction l as [| wo l IH]; intros g Hg; simpl; auto.
  apply IH.
  - intros w Hw. apply Hl. now right.
  - apply addEdges_ok; auto. apply Hl. now left.
Qed.

Lemma buildGraph_ok wos :
  let nodes := JsMap.keys (inDegree (buildGraph wos)) in
  GraphOK nodes (buildGraph wos)
  /\ NoDup nodes
  /\ (forall k, In k nodes <-> In k (map workOrderNumber wos)).
Proof.
  destruct (initGraph_ok wos) as (Hg & Hnd & Hk).
  set (nodes0 := JsMap.keys (inDegree (initGraph wos))) in *.
  assert (Hb : GraphOK nodes0 (buildGraph wos)).
  { unfold buildGraph. apply buildGraph_fold_ok; auto.
    - intros wo Hwo. apply Hk. now apply in_map.
    - intros d Hd. apply Hk. apply indexByNumber_keys. now apply has_keys. }
  assert (E : JsMap.keys (inDegree (buildGraph wos)) = nodes0) by apply Hb.
  simpl. rewrite E. auto.
Qed.
End BuildGraphFacts.

(** ** Kahn's algorithm: the loop *)

Section KahnFacts.
Variable ch : JsMap.t (list string).
Variable nodes : list string.
Hypothesis nodes_NoDup : NoDup nodes.
Hypothesis children_known : forall n c, In c (childrenOf ch n) -> In c nodes.

Lemma pendingEdges_split result n c :
  In n nodes -> ~ In n result ->
  pendingEdges ch nodes result c
  = (pendingEdges ch nodes (result ++ [n]) c + occurrences c (childrenOf ch n))%nat.
Proof.
  intros Hn Hout. unfold pendingEdges.
  apply list_sum_update with (k := n); auto.
  - intros n' Hne.
    destruct (memString n' result) eqn:E1; destruct (memString n' (result ++ [n])) eqn:E2;
      auto.
    + apply memString_In in E1. apply memString_false in E2.
      exfalso. apply E2. apply in_or_app. auto.
    + apply memString_In in E2. apply memString_false in E1.
      apply in_app_or in E2 as [H | [H' | []]]; [contradiction | congruence].
  - apply memString_false in Hout. rewrite Hout.
    replace (memString n (result ++ [n])) with true; auto.
    symmetry. apply memString_In. apply in_or_app. right. now left.
Qed.

Lemma visitChild_ok result c0 todo st :
  In c0 nodes ->
  VisitInv ch nodes result (c0 :: todo) st ->
  VisitInv ch nodes result todo (visitChild st c0).
Proof.
  intros Hc0 (K & Hnd & Hincl & Hdeg & Hzero).
  destruct st as [deg q]. cbn [fst snd] in *.
  assert (Hcur : JsMap.get deg c0
                 = Some (Z.of_nat (pendingEdges ch nodes result c0
                                   + S (occurrences c0 todo)))).
  { rewrite (Hdeg c0 Hc0). unfold occurrences. simpl.
    destruct (string_dec c0 c0); [reflexivity | contradiction]. }
  assert (Hnotin : ~ In c0 (result ++ q)).
  { intros Hin. apply Hzero in Hin; auto. rewrite Hcur in Hin.
    injection Hin as Hin. lia. }
  unfold visitChild. cbn [fst snd]. rewrite Hcur. cbn [orDefault].
  set (d := Z.of_nat (pendingEdges ch nodes result c0 + S (occurrences c0 todo)) - 1).
  assert (Hd : d = Z.of_nat (pendingEdges ch nodes result c0 + occurrences c0 todo))
    by (unfold d; lia).
  assert (Hother : forall c, c <> c0 -> occurrences c (c0 :: todo) = occurrences c todo).
  { intros c Hne. unfold occurrences. simpl.
    destruct (string_dec c0 c); [congruence | reflexivity]. }
  repeat split; cbn [fst snd].
  - rewrite keys_set_present; auto. now rewrite K.
  - destruct (d =? 0); auto.
    rewrite app_assoc. apply NoDup_app; auto.
    + constructor; [intros [] | constructor].
    + intros x Hx [<- | []]. contradiction.
  - destruct (d =? 0); auto.
    rewrite app_assoc. apply incl_app; auto. intros x [<- | []]. exact Hc0.
  - intros c Hc. destruct (string_dec c0 c) as [<- | Hne].
    + rewrite get_set_same. now rewrite Hd.
    + rewrite get_set_other; auto. rewrite (Hdeg c Hc). now rewrite Hother.
  - destruct (string_dec c0 c) as [<- | Hne].
    + rewrite get_set_same. intros Hin.
      destruct (d =? 0) eqn:E; [apply Z.eqb_eq in E; now rewrite E | contradiction].
    + rewrite get_set_other; auto. intros Hin. apply Hzero; auto.
      destruct (d =? 0); auto.
      rewrite app_assoc in Hin. apply in_app_or in Hin as [Hx | [Hy | []]]; auto.
      congruence.
  - destruct (string_dec c0 c) as [<- | Hne].
    + rewrite get_set_same. intros [= E]. rewrite E. simpl.
      rewrite app_assoc. apply in_or_app. right. now left.
    + rewrite get_set_other; auto. intros H0. apply Hzero in H0; auto.
      destruct (d =? 0); auto. rewrite app_assoc. apply in_or_app. now left.
Qed.

Lemma visitChildren_ok result todo st :
  (forall c, In c todo -> In c nodes) ->
  VisitInv ch nodes result todo st ->
  VisitInv ch nodes result [] (fold_left visitChild todo st).
Proof.
  revert st. induction todo as [| c0 todo IH]; intros st Hin Hinv; simpl; auto.
  apply IH.
  - intros c Hc. apply Hin. now right.
  - apply visitChild_ok; auto. apply Hin. now left.
Qed.

Lemma dequeue_ok n rest result deg :
  VisitInv ch nodes result [] (deg, n :: rest) ->
  VisitInv ch nodes (result ++ [n]) (childrenOf ch n) (deg, rest).
Proof.
  intros (K & Hnd & Hincl & Hdeg & Hzero). simpl in *.
  assert (Hn : In n nodes) by (apply Hincl; apply in_or_app; right; now left).
  assert (Hout : ~ In n result).
  { apply NoDup_remove_2 in Hnd. intros H. apply Hnd. apply in_or_app. now left. }
  repeat split; simpl; auto.
  - now rewrite <- app_assoc.
  - now rewrite <- app_assoc.
  - intros c Hc. rewrite (Hdeg c Hc). do 2 f_equal.
    rewrite (pendingEdges_split result n c Hn Hout). lia.
  - rewrite <- app_assoc. simpl. now apply Hzero.
  - rewrite <- app_assoc. simpl. now apply Hzero.
Qed.

Lemma kahn_loop_total fuel queue result deg :
  VisitInv ch nodes result [] (deg, queue) ->
  (List.length nodes - List.length result < fuel)%nat ->
  exists result' deg',
    kahn_loop ch fuel queue result deg = Some (result', deg')
    /\ VisitInv ch nodes result' [] (deg', []).
Proof.
  revert queue result deg.
  induction fuel as [| fuel IH]; intros queue result deg Hinv Hfuel; [lia |].
  simpl. destruct queue as [| n rest]; [eauto |].
  pose proof (dequeue_ok _ _ _ _ Hinv) as Hv.
  apply visitChildren_ok in Hv; [| apply children_known].
  fold (childrenOf ch n).
  destruct (fold_left visitChild (childrenOf ch n) (deg, rest)) as [deg' queue'].
  apply IH; auto.
  destruct Hinv as (_ & Hnd & Hincl & _). simpl in *.
  pose proof (NoDup_incl_length Hnd Hincl) as Hlen.
  rewrite !length_app in *. simpl in *. lia.
Qed.
End KahnFacts.

Section TopologicalOrderFacts.

Lemma In_keys_of_filter (m : JsMap.t Z) (p : string * Z -> bool) k :
  In k (map fst (filter p m)) -> In k (JsMap.keys m).
Proof.
  intros H. apply in_map_iff in H as ([k' v] & <- & Hin).
  apply filter_In in Hin as [Hin _]. unfold JsMap.keys.
  apply in_map_iff. exists (k', v). auto.
Qed.

Lemma initialQueue_NoDup (m : JsMap.t Z) :
  NoDup (JsMap.keys m) -> NoDup (initialQueue m).
Proof.
  unfold initialQueue. induction m as [| [k v] m IH]; simpl; intros Hnd; auto.
  inversion Hnd as [| ? ? Hout Hnd']; subst.
  destruct (v =? 0); simpl; auto.
  constructor; auto. intros Hin. apply Hout. eapply In_keys_of_filter; eauto.
Qed.

Lemma initialQueue_In (m : JsMap.t Z) c :
  NoDup (JsMap.keys m) -> (In c (initialQueue m) <-> JsMap.get m c = Some 0).
Proof.
  unfold initialQueue. induction m as [| [k v] m IH]; simpl; intros Hnd.
  - split; [intros [] | discriminate].
  - inversion Hnd as [| ? ? Hout Hnd']; subst. specialize (IH Hnd').
    destruct (String.eqb k c) eqn:E.
    + apply String.eqb_eq in E. subst c.
      destruct (v =? 0) eqn:Ev; simpl.
      * apply Z.eqb_eq in Ev. subst. split; auto.
      * apply Z.eqb_neq in Ev. split.
        -- intros Hin. exfalso. apply Hout. eapply In_keys_of_filter; eauto.
        -- intros [= Hv]. contradiction.
    + apply String.eqb_neq in E.
      destruct (v =? 0); simpl; rewrite <- IH; intuition.
Qed.

(** Kahn's loop ends within its fuel on every input; the order it returns
    has no repetition, consists of input ids, and contains exactly the ids
    whose final in-degree is zero. *)
Lemma kahn_total wos :
  exists result deg,
    kahn wos = Some (result, deg)
    /\ NoDup result
    /\ incl result (map workOrderNumber wos)
    /\ (forall id, In id (map workOrderNumber wos) ->
          (In id result <-> JsMap.get deg id = Some 0)).
Proof.
  destruct (buildGraph_ok wos) as ((K1 & K2 & Hdeg & Hch) & Hnd & Hk).
  set (g := buildGraph wos) in *. set (nodes := JsMap.keys (inDegree g)) in *.
  assert (Hlen : (List.length nodes <= List.length wos)%nat).
  { rewrite <- (length_map workOrderNumber wos).
    apply NoDup_incl_length; auto. intros x Hx. now apply Hk. }
  destruct (kahn_loop_total (children g) nodes Hnd Hch (S (List.length wos))
              (initialQueue (inDegree g)) [] (inDegree g))
    as (result & deg & Hrun & Hinv).
  - repeat split; simpl; auto.
    + now apply initialQueue_NoDup.
    + intros x Hx. eapply In_keys_of_filter; eauto.
    + intros c Hc. rewrite (Hdeg c Hc). do 2 f_equal. unfold occurrences. simpl. lia.
    + now apply initialQueue_In.
    + now apply initialQueue_In.
  - simpl. lia.
  - exists result, deg. unfold kahn. fold g. rewrite Hrun.
    destruct Hinv as (_ & Hnd' & Hincl & _ & Hzero). simpl in *.
    rewrite app_nil_r in *. repeat split; auto.
    + intros x Hx. apply Hk. now apply Hincl.
    + intros Hin. apply Hzero; auto; now apply Hk.
    + intros Hz. apply Hzero; auto; now apply Hk.
Qed.

Lemma topologicalOrder_total wos : topologicalOrder wos <> None.
Proof.
  unfold topologicalOrder.
  destruct (kahn_total wos) as (result & deg & -> & _).
  destruct (negb _); discriminate.
Qed.

(** A successful sort is a repetition-free enumeration of the input ids,
    which are then pairwise distinct themselves. *)
Lemma topologicalOrder_ok wos ids :
  topologicalOrder wos = Some (inr ids) ->
  NoDup ids
  /\ List.length ids = List.length wos
  /\ (forall id, In id ids <-> In id (map workOrderNumber wos))
  /\ NoDup (map workOrderNumber wos).
Proof.
  unfold topologicalOrder.
  destruct (kahn_total wos) as (result & deg & -> & Hnd & Hincl & _).
  destruct (Nat.eqb (List.length result) (List.length wos)) eqn:E; simpl;
    [| discriminate].
  intros [= <-]. apply Nat.eqb_eq in E.
  assert (Hlen : (List.length (map workOrderNumber wos) <= List.length result)%nat)
    by (rewrite length_map; lia).
  repeat split; auto.
  - intros Hin. eapply NoDup_length_incl; eauto.
  - eapply NoDup_incl_NoDup; eauto.
Qed.
End TopologicalOrderFacts.

(** C6 (cycle detection).  Kahn's sort always ends.  Whenever it emits fewer
    ids than there are orders, [reflow] fails with the circular-dependency
    error and carries no orders; the ids it names are the input ids the sort
    did not emit, and an input id is named exactly when its in-degree is not
    zero when the sort ends.  For two orders A and B that depend on each
    other the error names A and B. *)
Theorem cycle_detection :
  forall fuel workOrders workCenters,
    (exists result deg,
        kahn workOrders = Some (result, deg)
        /\ ((List.length result < List.length workOrders)%nat ->
            let named :=
              filter (fun id => negb (memString id result))
                (map workOrderNumber workOrders) in
            reflow fuel workOrders workCenters = Some (inl (CircularDependency named))
            /\ (forall id, In id (map workOrderNumber workOrders) ->
                  (In id named <-> JsMap.get deg id <> Some 0))))
    /\ (forall a b,
          workOrderNumber a = "A"%string -> dependsOnWorkOrderIds a = ["B"%string] ->
          workOrderNumber b = "B"%string -> dependsOnWorkOrderIds b = ["A"%string] ->
          reflow fuel [a; b] workCenters
          = Some (inl (CircularDependency ["A"%string; "B"%string]))).
Proof.
  intros fuel wos wcs. split.
  - destruct (kahn_total wos) as (result & deg & Hk & Hnd & Hincl & Hzero).
    exists result, deg. split; auto. intros Hlt named. split.
    + unfold reflow, topologicalOrder. rewrite Hk.
      replace (Nat.eqb (List.length result) (List.length wos)) with false
        by (symmetry; apply Nat.eqb_neq; lia).
      reflexivity.
    + intros id Hid. unfold named. rewrite filter_In, negb_true_iff, memString_false.
      rewrite <- (Hzero id Hid). tauto.
  - intros [ida ca sa ea da ma depa] [idb cb sb eb db mb depb]. simpl.
    intros -> -> -> ->. reflexivity.
Qed.

Lemma cycle_detection_witness :
  reflow 0 [Examples.cycleA; Examples.cycleB] [Examples.line1]
  = Some (inl (CircularDependency ["A"%string; "B"%string])).
Proof.
  destruct (cycle_detection 0 [Examples.cycleA; Examples.cycleB] [Examples.line1])
    as [(result & deg & Hk & H) _].
  vm_compute in Hk. injection Hk as <- <-.
  destruct (H ltac:(simpl; lia)) as [Hr _]. exact Hr.
Defined.

(** ** Unknown dependency ids *)

Section UnknownDependencyFacts.
Import CheckerCommon.

Lemma scanParent_keeps byNumber wo acc id e :
  In e (snd acc) -> In e (snd (scanParent byNumber wo acc id)).
Proof.
  intros H. unfold scanParent. destruct (JsMap.get byNumber id); simpl.
  - destruct (fst acc); simpl; auto. destruct (_ >? _); auto.
  - apply in_or_app. auto.
Qed.

Lemma scanParents_fold_keeps byNumber wo deps acc e :
  In e (snd acc) -> In e (snd (fold_left (scanParent byNumber wo) deps acc)).
Proof.
  revert acc. induction deps as [| d deps IH]; intros acc H; simpl; auto.
  apply IH. now apply scanParent_keeps.
Qed.

Lemma scanParents_fold_reports byNumber wo deps acc dep :
  In dep deps -> JsMap.get byNumber dep = None ->
  In (UnknownDependency (workOrderNumber wo) dep)
     (snd (fold_left (scanParent byNumber wo) deps acc)).
Proof.
  revert acc. induction deps as [| d deps IH]; intros acc Hin Hnone; [destruct Hin |].
  simpl. destruct Hin as [-> | Hin]; [| now apply IH].
  apply scanParents_fold_keeps. unfold scanParent. rewrite Hnone. simpl.
  apply in_or_app. right. now left.
Qed.

Lemma checkDependenciesOf_reports byNumber errs wo dep :
  In dep (dependsOnWorkOrderIds wo) -> JsMap.get byNumber dep = None ->
  In (UnknownDependency (workOrderNumber wo) dep) (checkDependenciesOf byNumber errs wo).
Proof.
  intros Hin Hnone. unfold checkDependenciesOf.
  pose proof (scanParents_fold_reports byNumber wo _ (None, errs) dep Hin Hnone) as H.
  fold (scanParents byNumber wo (None, errs)) in H.
  destruct (dependsOnWorkOrderIds wo) eqn:E; [destruct Hin |]. rewrite <- E in *.
  destruct (scanParents byNumber wo (None, errs)) as [mx errs']. simpl in H.
  destruct mx as [m |]; auto. destruct (_ <? _); auto. apply in_or_app. auto.
Qed.

Lemma checkDependencies_fold_reports byNumber l errs wo dep :
  In wo l -> In dep (dependsOnWorkOrderIds wo) -> JsMap.get byNumber dep = None ->
  In (UnknownDependency (workOrderNumber wo) dep)
     (fold_left (checkDependenciesOf byNumber) l errs).
Proof.
  revert errs. induction l as [| w l IH]; intros errs Hwo Hdep Hnone; [destruct Hwo |].
  simpl. destruct Hwo as [-> | Hwo]; [| now apply IH].
  eapply Appends_In; [apply dependencies_fold_Appends |].
  now apply checkDependenciesOf_reports.
Qed.

Lemma updateOrder_number ns wo : workOrderNumber (updateOrder ns wo) = workOrderNumber wo.
Proof.
  unfold updateOrder. destruct (isMaintenance wo); auto. destruct (JsMap.get _ _); auto.
Qed.

Lemma updateOrder_dependsOn ns wo :
  dependsOnWorkOrderIds (updateOrder ns wo) = dependsOnWorkOrderIds wo.
Proof.
  unfold updateOrder. destruct (isMaintenance wo); auto. destruct (JsMap.get _ _); auto.
Qed.

Lemma updateOrder_numbers ns wos :
  map workOrderNumber (map (updateOrder ns) wos) = map workOrderNumber wos.
Proof. rewrite map_map. apply map_ext. apply updateOrder_number. Qed.

(** The validator rejects every updated schedule that still lists an id no
    order carries. *)
Lemma validate_updated_reports_unknown fuel ns wos wcs wo dep report :
  In wo wos -> In dep (dependsOnWorkOrderIds wo) ->
  ~ In dep (map workOrderNumber wos) ->
  Checker.validateSchedule fuel (map (updateOrder ns) wos) wcs = Some report ->
  In (UnknownDependency (workOrderNumber wo) dep) (errors report)
  /\ valid report = false.
Proof.
  intros Hwo Hdep Hunknown Hv.
  apply Checker_validate_inv in Hv as (errs3 & H3 & He & Hval).
  assert (Hin : In (UnknownDependency (workOrderNumber wo) dep) errs3).
  { eapply Appends_In; [eapply Checker_checkShifts_Appends; eauto |].
    unfold checkDependencies.
    rewrite <- (updateOrder_number ns wo).
    apply checkDependencies_fold_reports.
    - now apply in_map.
    - now rewrite updateOrder_dependsOn.
    - apply get_None_keys. unfold CheckerCommon.indexByNumber.
      rewrite indexByNumber_keys_gen, updateOrder_numbers. simpl. tauto. }
  rewrite He, Hval. split; auto.
  destruct errs3; [destruct Hin | reflexivity].
Qed.
End UnknownDependencyFacts.

(** C9, as stated, fails: an order may list an unknown id and take part in
    a cycle, and then [reflow] fails with the circular-dependency error, not
    with the invalid-schedule error. *)
Lemma unknown_dependency_in_a_cycle :
  In "X"%string (dependsOnWorkOrderIds Examples.danglingA)
  /\ ~ In "X"%string (map workOrderNumber [Examples.danglingA; Examples.danglingB])
  /\ reflow 0 [Examples.danglingA; Examples.danglingB] [Examples.line1]
     = Some (inl (CircularDependency ["A"%string; "B"%string])).
Proof.
  split; [simpl; auto |]. split; [| reflexivity].
  simpl. intros [H | [H | []]]; discriminate.
Qed.

(** C9 (amended).  When some order lists a [dependsOn] id that no order of
    the input carries, the graph builder leaves the graph unchanged for that
    entry and [reflow] never returns a result: it fails with the
    circular-dependency error when the sort fails, and otherwise, once the
    validator has run, with the invalid-schedule error whose messages contain
    the unknown dependency. *)
Theorem unknown_dependency_never_returns :
  forall fuel workOrders workCenters wo dep,
    In wo workOrders -> In dep (dependsOnWorkOrderIds wo) ->
    ~ In dep (map workOrderNumber workOrders) ->
    (forall g, addEdge (indexByNumber workOrders) wo g dep = g)
    /\ match reflow fuel workOrders workCenters with
       | Some (inr _) => False
       | Some (inl (InvalidSchedule messages)) =>
           In (UnknownDependency (workOrderNumber wo) dep) messages
       | Some (inl (CircularDependency named)) =>
           topologicalOrder workOrders = Some (inl (CircularDependency named))
       | None =>
           exists orderIds,
             topologicalOrder workOrders = Some (inr orderIds)
             /\ Checker.validateSchedule fuel
                  (map (updateOrder (newSchedule (place workOrders workCenters orderIds)))
                     workOrders) workCenters = None
       end.
Proof.
  intros fuel wos wcs wo dep Hwo Hdep Hunknown. split.
  - intros g. unfold addEdge.
    replace (JsMap.has (indexByNumber wos) dep) with false; auto.
    symmetry. destruct (JsMap.has (indexByNumber wos) dep) eqn:E; auto.
    apply has_keys, indexByNumber_keys in E. contradiction.
  - unfold reflow.
    destruct (topologicalOrder wos) as [[e | ids] |] eqn:Ht.
    + unfold topologicalOrder in Ht. destruct (kahn wos) as [[result deg] |]; [| discriminate].
      destruct (negb _); [| discriminate]. injection Ht as <-. reflexivity.
    + destruct (Checker.validateSchedule fuel _ wcs) as [v |] eqn:Hv; [| eauto].
      destruct (validate_updated_reports_unknown _ _ _ _ _ _ _ Hwo Hdep Hunknown Hv)
        as [Hin Hval].
      rewrite Hval. simpl. exact Hin.
    + now apply topologicalOrder_total in Ht.
Qed.

Lemma unknown_dependency_never_returns_witness :
  (forall g,
      addEdge (indexByNumber [mkWorkOrder "A" "Line1" 0 0 10 false ["X"%string]])
        (mkWorkOrder "A" "Line1" 0 0 10 false ["X"%string]) g "X" = g)
  /\ reflow 0 [mkWorkOrder "A" "Line1" 0 0 10 false ["X"%string]] []
     = Some (inl (InvalidSchedule [UnknownDependency "A" "X"])).
Proof.
  destruct (unknown_dependency_never_returns 0
              [mkWorkOrder "A" "Line1" 0 0 10 false ["X"%string]] []
              (mkWorkOrder "A" "Line1" 0 0 10 false ["X"%string]) "X"%string
              ltac:(simpl; auto) ltac:(simpl; auto)
              ltac:(simpl; intros [H | []]; discriminate)) as [Hg _].
  split; [exact Hg | vm_compute; reflexivity].
Defined.

(** ** Iteration bounds *)

Section IterationBoundFacts.

Lemma iter_fixed {A : Type} (f : A -> A) (x : A) n : f x = x -> Nat.iter n f x = x.
Proof. intros H. induction n as [| n IH]; simpl; [reflexivity | now rewrite IH]. Qed.

Lemma nextWorkingMoment_capped shifts ranges n dt :
  capped (nextWorkingMoment_loop shifts ranges n dt) = true ->
  value (nextWorkingMoment_loop shifts ranges n dt)
  = Nat.iter n (correctOnce shifts ranges) dt.
Proof.
  revert dt. induction n as [| n IH]; intros dt; [reflexivity |].
  rewrite Nat.iter_succ_r. cbn [nextWorkingMoment_loop].
  assert (Hstep : correctOnce shifts ranges dt
                  = if nonEmpty shifts && negb (isWithinShift dt shifts)
                    then getNextShiftStart dt shifts
                    else if nonEmpty ranges && isInMaintenanceRange dt ranges
                         then orDefault (getMaintenanceRangeEnd dt ranges) dt
                         else dt) by reflexivity.
  destruct (nonEmpty shifts && negb (isWithinShift dt shifts));
    [rewrite Hstep; apply IH |].
  destruct (nonEmpty ranges && isInMaintenanceRange dt ranges); [| discriminate].
  destruct (getMaintenanceRangeEnd dt ranges) as [e |]; cbn [orDefault] in Hstep;
    rewrite Hstep; [apply IH |].
  intros _. cbn [value]. symmetry. now apply iter_fixed.
Qed.

Lemma nextAvailableStart_capped shifts windows n current :
  capped (nextAvailableStart_loop shifts windows n current) = true ->
  value (nextAvailableStart_loop shifts windows n current)
  = Nat.iter n (fun c => skipFirstWindow c shifts windows) current.
Proof.
  revert current. induction n as [| n IH]; intros current; [reflexivity |].
  rewrite Nat.iter_succ_r. cbn [nextAvailableStart_loop].
  destruct (isInMaintenance current windows); [apply IH | discriminate].
Qed.

Lemma walk_loop_pending shifts ranges n s flag :
  (forall k, (k < n)%nat ->
             segmentPending shifts ranges (Nat.iter k (segmentOnce shifts ranges) s) = true) ->
  walk_end (walk_loop shifts ranges n (fst s) (snd s) flag)
  = fst (Nat.iter n (segmentOnce shifts ranges) s).
Proof.
  revert s flag. induction n as [| n IH]; intros s flag Hp; [reflexivity |].
  rewrite Nat.iter_succ_r.
  pose proof (Hp O ltac:(lia)) as H0.
  change (segmentPending shifts ranges s = true) in H0.
  unfold segmentPending in H0. apply andb_prop in H0 as [Hpos Hgo].
  assert (Hnext : forall k, (k < n)%nat ->
            segmentPending shifts ranges
              (Nat.iter k (segmentOnce shifts ranges) (segmentOnce shifts ranges s)) = true).
  { intros k Hk. rewrite <- Nat.iter_succ_r. apply Hp. lia. }
  rewrite <- (IH (segmentOnce shifts ranges s)
                (flag || capped (getNextWorkingMoment_traced
                                   (getWorkingSegmentEnd (fst s) shifts ranges)
                                   shifts ranges)) Hnext).
  cbn [walk_loop]. rewrite Hpos. cbn [negb].
  unfold segmentOnce, getNextWorkingMoment. cbn [fst snd].
  destruct (diffMinutesFloor (getWorkingSegmentEnd (fst s) shifts ranges) (fst s) <=? 0).
  - reflexivity.
  - cbn [orb] in Hgo. apply negb_true_iff in Hgo. rewrite Hgo. reflexivity.
Qed.

Lemma topologicalOrder_error wos e :
  topologicalOrder wos = Some (inl e) -> exists named, e = CircularDependency named.
Proof.
  unfold topologicalOrder. destruct (kahn wos) as [[result deg] |]; [| discriminate].
  destruct (negb _); [| discriminate]. intros [= <-]. eauto.
Qed.
End IterationBoundFacts.

Lemma longOrder_walk :
  calculateEndDateWithShiftsAndMaintenance_traced
    (startDate Examples.longOrder) (durationMinutes Examples.longOrder)
    (shifts Examples.cell) (rangesOf (maintenanceWindows Examples.cell))
  = mkWalk (Examples.at_ (Examples.monday + 7 * 5000) 8 0) false 60.
Proof. vm_compute. reflexivity. Qed.

Lemma longOrder_reflow_returns :
  returnsWithSlots (reflow 0 [Examples.longOrder] [Examples.cell])
    [(startDate Examples.longOrder, Examples.at_ (Examples.monday + 7 * 5000) 8 0)].
Proof. vm_compute. reflexivity. Qed.

(** C2, as stated, fails: an order of 5001 working hours on a center open
    one hour a week needs 5001 segments; the segment loop stops after 5000,
    the walk returns the instant reached, and [reflow] returns a result
    (whose end leaves the last hour unplaced) instead of failing. *)
Lemma segment_cap_returns_silently :
  walkCapped (calculateEndDateWithShiftsAndMaintenance_traced
                (startDate Examples.longOrder) (durationMinutes Examples.longOrder)
                (shifts Examples.cell) (rangesOf (maintenanceWindows Examples.cell))) = true
  /\ returnsWithSlots (reflow 0 [Examples.longOrder] [Examples.cell])
       [(startDate Examples.longOrder, Examples.at_ (Examples.monday + 7 * 5000) 8 0)].
Proof.
  split; [rewrite longOrder_walk; reflexivity | exact longOrder_reflow_returns].
Qed.

(** C2 (amended).  Exceeding an iteration bound raises no error.  A capped
    stabilisation loop returns the instant reached after its corrections, a
    capped snap-forward loop of the placer the instant reached after its
    jumps, and a segment loop that is still pending in each of its
    iterations the instant at which the next segment would start.  [reflow]
    itself fails only with the circular-dependency error of the sort or with
    the invalid-schedule error of its post-check. *)
Theorem iteration_caps_return_current :
  (forall shifts ranges dt,
      capped (getNextWorkingMoment_traced dt shifts ranges) = true ->
      getNextWorkingMoment dt shifts ranges
      = Nat.iter MAX_ITER_WORKING_MOMENT (correctOnce shifts ranges) dt)
  /\ (forall shifts windows dt,
        capped (getNextAvailableStart_traced dt shifts windows) = true ->
        getNextAvailableStart dt shifts windows
        = Nat.iter MAX_MAINTENANCE_ITERATIONS
            (fun c => skipFirstWindow c shifts windows) (snapToShift dt shifts))
  /\ (forall shifts ranges n current remaining flag,
        (forall k, (k < n)%nat ->
           segmentPending shifts ranges
             (Nat.iter k (segmentOnce shifts ranges) (current, remaining)) = true) ->
        walk_end (walk_loop shifts ranges n current remaining flag)
        = fst (Nat.iter n (segmentOnce shifts ranges) (current, remaining)))
  /\ (forall fuel workOrders workCenters e,
        reflow fuel workOrders workCenters = Some (inl e) ->
        match e with
        | CircularDependency named =>
            topologicalOrder workOrders = Some (inl (CircularDependency named))
        | InvalidSchedule messages =>
            messages <> []
            /\ exists orderIds,
                 topologicalOrder workOrders = Some (inr orderIds)
                 /\ Checker.validateSchedule fuel
                      (map (updateOrder (newSchedule (place workOrders workCenters orderIds)))
                         workOrders) workCenters
                    = Some (mkValidation false messages)
        end).
Proof.
  split; [| split; [| split]].
  - intros shifts ranges dt. apply nextWorkingMoment_capped.
  - intros shifts windows dt. apply nextAvailableStart_capped.
  - intros shifts ranges n current remaining flag.
    apply (walk_loop_pending shifts ranges n (current, remaining) flag).
  - intros fuel wos wcs e. unfold reflow.
    destruct (topologicalOrder wos) as [[e' | ids] |] eqn:Ht; try discriminate.
    + intros [= <-]. destruct (topologicalOrder_error _ _ Ht) as (named & ->).
      reflexivity.
    + destruct (Checker.validateSchedule fuel _ wcs) as [v |] eqn:Hv; [| discriminate].
      destruct (valid v) eqn:Hvalid; simpl; [discriminate |].
      intros [= <-]. split.
      * apply Checker_validate_inv in Hv as (errs3 & _ & He & Hval).
        rewrite Hvalid in Hval. rewrite He. intros ->. discriminate.
      * exists ids. split; auto. rewrite Hv. destruct v; simpl in *. now subst.
Qed.

Lemma iteration_caps_return_current_witness :
  getNextWorkingMoment (Examples.at_ Examples.tuesday 9 0) Examples.emptyShift []
  = Nat.iter MAX_ITER_WORKING_MOMENT (correctOnce Examples.emptyShift [])
      (Examples.at_ Examples.tuesday 9 0).
Proof.
  destruct iteration_caps_return_current as (H & _).
  apply H. vm_compute. reflexivity.
Defined.

(** ** No overlap on a work center *)

Section ConflictFacts.
Import CheckerCommon.

Lemma insertByStart_perm wo l : Permutation (insertByStart wo l) (wo :: l).
Proof.
  induction l as [| x l IH]; simpl; auto.
  destruct (startDate wo <=? startDate x); auto.
  rewrite IH. apply perm_swap.
Qed.

Lemma insertByStart_sorted wo l :
  StronglySorted startsNoLater l -> StronglySorted startsNoLater (insertByStart wo l).
Proof.
  induction l as [| x l IH]; intros Hs; simpl.
  - constructor; auto.
  - inversion Hs as [| ? ? Hs' Hall]; subst.
    destruct (startDate wo <=? startDate x) eqn:E.
    + apply Z.leb_le in E. constructor; auto. constructor; auto.
      eapply Forall_impl; [| exact Hall]. unfold startsNoLater. intros; lia.
    + apply Z.leb_gt in E. constructor; auto.
      eapply Permutation_Forall; [symmetry; apply insertByStart_perm |].
      constructor; auto. unfold startsNoLater. lia.
Qed.

Lemma sortByStart_perm l : Permutation (sortByStart l) l.
Proof.
  induction l as [| x l IH]; simpl; auto.
  rewrite insertByStart_perm. now constructor.
Qed.

Lemma sortByStart_sorted l : StronglySorted startsNoLater (sortByStart l).
Proof.
  induction l as [| x l IH]; simpl; [constructor | now apply insertByStart_sorted].
Qed.

Lemma checkAdjacent_pair c a b rest errs :
  checkAdjacent c (a :: b :: rest) errs
  = checkAdjacent c (b :: rest)
      (if endDate a >? startDate b
       then errs ++ [WorkCenterConflict c (workOrderNumber a) (endDate a)
                       (workOrderNumber b) (startDate b)]
       else errs).
Proof. reflexivity. Qed.

Lemma checkAdjacent_clean c sorted :
  StronglySorted startsNoLater sorted ->
  checkAdjacent c sorted [] = [] ->
  ForallOrdPairs endsBefore sorted.
Proof.
  induction sorted as [| a rest IH]; intros Hs Hc; [constructor |].
  inversion Hs as [| ? ? Hs' Hall]; subst.
  destruct rest as [| b rest']; [constructor; constructor |].
  rewrite checkAdjacent_pair, checkAdjacent_app in Hc.
  apply app_eq_nil in Hc as [Hab Hrest].
  assert (Hle : endDate a <= startDate b).
  { destruct (endDate a >? startDate b) eqn:E; [discriminate |].
    rewrite Z.gtb_ltb in E. apply Z.ltb_ge in E. exact E. }
  constructor; auto.
  inversion Hs' as [| ? ? _ Hall']; subst.
  constructor; [exact Hle |].
  eapply Forall_impl; [| exact Hall']. unfold endsBefore, startsNoLater. intros; lia.
Qed.

Lemma apart_sym a b : apart a b -> apart b a.
Proof. unfold apart. tauto. Qed.

Lemma ForallOrdPairs_perm (l l' : list WorkOrder) :
  Permutation l l' -> ForallOrdPairs apart l -> ForallOrdPairs apart l'.
Proof.
  induction 1 as [| x l l' Hp IH | x y l | l l' l'' Hp1 IH1 Hp2 IH2]; intros H; auto.
  - inversion H; subst. constructor; auto. eapply Permutation_Forall; eauto.
  - inversion H as [| ? ? Hy Hrest]; subst.
    inversion Hrest as [| ? ? Hx Hl]; subst.
    inversion Hy as [| ? ? Hyx Hyl]; subst.
    constructor; [constructor; auto using apart_sym |].
    constructor; auto.
Qed.

Lemma groupByCenter_get_gen (l : list WorkOrder) (m : JsMap.t (list WorkOrder)) c :
  JsMap.get
    (fold_left
       (fun byCenter wo =>
          JsMap.set byCenter (workCenterId wo)
            (orDefault (JsMap.get byCenter (workCenterId wo)) [] ++ [wo]))
       l m) c
  = match filter (onCenter c) l with
    | [] => JsMap.get m c
    | group => Some (orDefault (JsMap.get m c) [] ++ group)
    end.
Proof.
  revert m. induction l as [| wo l IH]; intros m; simpl; auto.
  rewrite IH. unfold onCenter at 2.
  destruct (String.eqb (workCenterId wo) c) eqn:E.
  - apply String.eqb_eq in E. subst c. rewrite get_set_same. simpl.
    destruct (filter (onCenter (workCenterId wo)) l); simpl; auto.
    now rewrite <- app_assoc.
  - apply String.eqb_neq in E. rewrite get_set_other; auto.
Qed.

Lemma groupByCenter_get l c wo :
  In wo l -> workCenterId wo = c ->
  JsMap.get (groupByCenter l) c = Some (filter (onCenter c) l).
Proof.
  intros Hin Hc. unfold groupByCenter. rewrite groupByCenter_get_gen.
  destruct (filter (onCenter c) l) eqn:E; auto.
  assert (H : In wo (filter (onCenter c) l)).
  { apply filter_In. split; auto. unfold onCenter. subst. apply String.eqb_refl. }
  rewrite E in H. destruct H.
Qed.

Lemma conflicts_fold_clean (entries : list (string * list WorkOrder)) errs :
  fold_left (fun errs entry => checkAdjacent (fst entry) (sortByStart (snd entry)) errs)
    entries errs = [] ->
  errs = []
  /\ forall entry, In entry entries ->
       checkAdjacent (fst entry) (sortByStart (snd entry)) [] = [].
Proof.
  revert errs. induction entries as [| e entries IH]; intros errs H; simpl in *.
  - split; auto. intros ? [].
  - apply IH in H as [H1 H2]. rewrite checkAdjacent_app in H1.
    apply app_eq_nil in H1 as [H1 H1']. split; auto.
    intros entry [<- | Hin]; auto.
Qed.

Lemma center_group_apart l c wo :
  checkWorkCenterConflicts l [] = [] ->
  In wo l -> workCenterId wo = c ->
  ForallOrdPairs apart (filter (onCenter c) l).
Proof.
  intros Hclean Hin Hc. unfold checkWorkCenterConflicts in Hclean.
  apply conflicts_fold_clean in Hclean as [_ Hall].
  pose proof (groupByCenter_get l c wo Hin Hc) as Hg. apply get_In in Hg.
  specialize (Hall _ Hg). simpl in Hall.
  apply checkAdjacent_clean in Hall; [| apply sortByStart_sorted].
  eapply ForallOrdPairs_perm; [apply sortByStart_perm |].
  clear -Hall. induction Hall as [| a l' Ha Hl IH]; constructor; auto.
  eapply Forall_impl; [| exact Ha]. unfold endsBefore, apart. intros; lia.
Qed.

Lemma conflicts_clean_pairwise l :
  checkWorkCenterConflicts l [] = [] -> ForallOrdPairs apartOnCenter l.
Proof.
  intros Hclean.
  assert (H : forall c wo, In wo l -> workCenterId wo = c ->
                           ForallOrdPairs apart (filter (onCenter c) l))
    by (intros; eapply center_group_apart; eauto).
  clear Hclean. induction l as [| a l IH]; [constructor |].
  constructor.
  - apply Forall_forall. intros b Hb Hsame.
    specialize (H (workCenterId a) a (or_introl eq_refl) eq_refl).
    simpl in H. unfold onCenter at 1 in H. rewrite String.eqb_refl in H.
    inversion H as [| ? ? Hall _]; subst.
    rewrite Forall_forall in Hall. apply Hall.
    apply filter_In. split; auto. unfold onCenter. rewrite Hsame. apply String.eqb_refl.
  - apply IH. intros c wo Hin Hc.
    specialize (H c wo (or_intror Hin) Hc). simpl in H.
    destruct (onCenter c a); auto. now inversion H.
Qed.

Lemma ForallOrdPairs_nth {A : Type} (R : A -> A -> Prop) (l : list A) i j a b :
  ForallOrdPairs R l -> (i < j)%nat ->
  nth_error l i = Some a -> nth_error l j = Some b -> R a b.
Proof.
  intros H. revert i j. induction H as [| x l Hx Hl IH]; intros i j Hij Hi Hj.
  - destruct i; discriminate.
  - destruct j as [| j]; [lia |]. simpl in Hj.
    destruct i as [| i]; simpl in Hi.
    + injection Hi as <-. rewrite Forall_forall in Hx. apply Hx.
      eapply nth_error_In; eauto.
    + apply (IH i j); auto. lia.
Qed.
End ConflictFacts.

(** C3 (no overlap).  In every result of [reflow], two orders at different
    positions that are not maintenance orders and share a work center have
    intervals that do not overlap: one ends no later than the other starts,
    so no instant lies in both [start, end) intervals. *)
Theorem no_overlap_on_a_work_center :
  forall fuel workOrders workCenters result,
    reflow fuel workOrders workCenters = Some (inr result) ->
    forall i j a b,
      i <> j ->
      nth_error (updatedWorkOrders result) i = Some a ->
      nth_error (updatedWorkOrders result) j = Some b ->
      isMaintenance a = false -> isMaintenance b = false ->
      workCenterId a = workCenterId b ->
      (endDate a <= startDate b \/ endDate b <= startDate a)
      /\ (forall t, ~ (startDate a <= t < endDate a /\ startDate b <= t < endDate b)).
Proof.
  intros fuel wos wcs res Hr i j a b Hij Ha Hb _ _ Hsame.
  destruct (reflow_inv _ _ _ _ Hr) as (ids & _ & _ & _ & Hv).
  destruct (Checker_validate_valid _ _ _ _ Hv eq_refl) as (_ & Hclean & _).
  apply conflicts_clean_pairwise in Hclean.
  assert (Hapart : apart a b).
  { destruct (Nat.lt_total i j) as [Hlt | [Heq | Hgt]]; [| contradiction |].
    - apply (ForallOrdPairs_nth _ _ i j a b Hclean Hlt Ha Hb). exact Hsame.
    - apply apart_sym.
      apply (ForallOrdPairs_nth _ _ j i b a Hclean Hgt Hb Ha). now symmetry. }
  split; [exact Hapart |]. unfold apart in Hapart. intros t. lia.
Qed.

Lemma no_overlap_on_a_work_center_witness :
  Examples.at_ 4 10 0 <= Examples.at_ 4 10 0 \/ Examples.at_ 4 12 0 <= Examples.at_ 4 8 0.
Proof.
  eassert (E : reflow 100 Examples.cascade [Examples.line1] = Some (inr _))
    by (vm_compute; reflexivity).
  exact (proj1 (no_overlap_on_a_work_center 100 Examples.cascade [Examples.line1] _ E
                  0%nat 1%nat
                  (mkWorkOrder "A" "Line1" (Examples.at_ 4 8 0) (Examples.at_ 4 10 0)
                     120 false [])
                  (mkWorkOrder "B" "Line1" (Examples.at_ 4 10 0) (Examples.at_ 4 12 0)
                     120 false ["A"%string])
                  ltac:(discriminate) eq_refl eq_refl eq_refl eq_refl eq_refl)).
Defined.

(** ** Reflow of a schedule that already is in place *)

Section StableScheduleFacts.

Lemma maxOf_le x xs b :
  x <= b -> Forall (fun y => y <= b) xs -> maxOf x xs <= b.
Proof.
  unfold maxOf. revert x. induction xs as [| y xs IH]; intros x Hx Hall; simpl; auto.
  inversion Hall; subst. apply IH; auto. lia.
Qed.

Lemma maxOf_ge x xs : x <= maxOf x xs.
Proof.
  unfold maxOf. revert x. induction xs as [| y xs IH]; intros x; simpl; [lia |].
  specialize (IH (Z.max x y)). lia.
Qed.

Lemma maxOf_ge_In x xs y : In y xs -> y <= maxOf x xs.
Proof.
  unfold maxOf. revert x. induction xs as [| z xs IH]; intros x Hin; [destruct Hin |].
  simpl. destruct Hin as [-> | Hin]; auto.
  pose proof (maxOf_ge (Z.max x y) xs) as H. unfold maxOf in H. lia.
Qed.

(** Dependencies, as the validator accepted them. *)
Lemma scanParent_fold_max byNumber wo deps acc mx errs :
  fold_left (CheckerCommon.scanParent byNumber wo) deps acc = (mx, errs) ->
  (forall m0, fst acc = Some m0 -> exists m, mx = Some m /\ m0 <= m)
  /\ (forall dep parent, In dep deps -> JsMap.get byNumber dep = Some parent ->
        exists m, mx = Some m /\ endDate parent <= m).
Proof.
  revert acc. induction deps as [| d deps IH]; intros acc H; simpl in H.
  - subst acc. split; [intros m0 Hm; exists m0; split; auto; lia | intros ? ? []].
  - apply IH in H as [Hacc Hdeps]. split.
    + intros m0 Hm0. unfold CheckerCommon.scanParent in Hacc.
      destruct (JsMap.get byNumber d) as [p |]; simpl in Hacc.
      * rewrite Hm0 in Hacc.
        destruct (endDate p >? m0) eqn:E; simpl in Hacc.
        -- destruct (Hacc _ eq_refl) as (m & -> & Hle). exists m. split; auto.
           apply Z.gtb_lt in E. lia.
        -- apply Hacc. exact Hm0.
      * apply Hacc. exact Hm0.
    + intros dep parent [-> | Hin] Hget; [| eapply Hdeps; eauto].
      unfold CheckerCommon.scanParent in Hacc. rewrite Hget in Hacc. simpl in Hacc.
      destruct (fst acc) as [m0 |] eqn:Em; simpl in Hacc.
      * destruct (endDate parent >? m0) eqn:E; simpl in Hacc.
        -- apply Hacc. reflexivity.
        -- destruct (Hacc m0 Em) as (m & -> & Hle). exists m. split; auto.
           rewrite Z.gtb_ltb in E. apply Z.ltb_ge in E. lia.
      * apply Hacc. reflexivity.
Qed.

Lemma dependencies_fold_clean byNumber l errs :
  fold_left (CheckerCommon.checkDependenciesOf byNumber) l errs = [] ->
  forall wo, In wo l -> CheckerCommon.checkDependenciesOf byNumber [] wo = [].
Proof.
  revert errs. induction l as [| w l IH]; intros errs H wo Hin; [destruct Hin |].
  simpl in H. destruct Hin as [-> | Hin]; [| eapply IH; eauto].
  pose proof (dependencies_fold_Appends byNumber l (CheckerCommon.checkDependenciesOf byNumber errs wo)) as A.
  rewrite H in A. apply Appends_nil in A.
  pose proof (checkDependenciesOf_Appends byNumber errs wo) as A'.
  rewrite A in A'. apply Appends_nil in A'. subst errs. exact A.
Qed.

Lemma checkDependencies_clean wos wo dep parent :
  CheckerCommon.checkDependencies wos [] = [] ->
  In wo wos -> In dep (dependsOnWorkOrderIds wo) ->
  JsMap.get (indexByNumber wos) dep = Some parent ->
  endDate parent <= startDate wo.
Proof.
  intros Hclean Hwo Hdep Hparent. unfold CheckerCommon.checkDependencies in Hclean.
  pose proof (dependencies_fold_clean _ _ _ Hclean wo Hwo) as H.
  unfold CheckerCommon.checkDependenciesOf in H.
  destruct (dependsOnWorkOrderIds wo) eqn:Ed; [destruct Hdep |]. rewrite <- Ed in *.
  change (JsMap.get (CheckerCommon.indexByNumber wos) dep = Some parent) in Hparent.
  destruct (CheckerCommon.scanParents (CheckerCommon.indexByNumber wos) wo (None, []))
    as [mx errs'] eqn:Es.
  unfold CheckerCommon.scanParents in Es.
  apply scanParent_fold_max in Es as [_ Hmax].
  destruct (Hmax dep parent Hdep Hparent) as (m & -> & Hle).
  destruct (startDate wo <? m) eqn:E.
  - destruct errs'; discriminate.
  - apply Z.ltb_ge in E. lia.
Qed.

Lemma maxParentEnd_bound byNumber ns deps acc bound m :
  (forall dep parent, In dep deps -> JsMap.get byNumber dep = Some parent ->
     parentEndOf ns parent <= bound) ->
  (forall m0, acc = Some m0 -> m0 <= bound) ->
  fold_left
    (fun maxParentEnd depId =>
       match JsMap.get byNumber depId with
       | None => maxParentEnd
       | Some parent =>
           let parentEnd := parentEndOf ns parent in
           match maxParentEnd with
           | None => Some parentEnd
           | Some m => if parentEnd >? m then Some parentEnd else maxParentEnd
           end
       end) deps acc = Some m ->
  m <= bound.
Proof.
  revert acc. induction deps as [| d deps IH]; intros acc Hdeps Hacc H; simpl in H.
  - now apply Hacc.
  - eapply IH; [| | exact H].
    + intros dep parent Hin. apply Hdeps. now right.
    + intros m0. destruct (JsMap.get byNumber d) as [p |] eqn:Ep; [| apply Hacc].
      assert (Hp : parentEndOf ns p <= bound) by (eapply Hdeps; eauto; now left).
      destruct acc as [m1 |]; simpl.
      * destruct (parentEndOf ns p >? m1); intros [= <-]; auto.
      * intros [= <-]. exact Hp.
Qed.

Lemma placeOrder_in_place wos centers done st wo :
  CheckerCommon.checkDependencies wos [] = [] ->
  In wo wos ->
  JsMap.get (indexByNumber wos) (workOrderNumber wo) = Some wo ->
  keepsItsSlot centers wo ->
  Forall (fun a => queuedBefore a wo) done ->
  InPlace (indexByNumber wos) done st ->
  InPlace (indexByNumber wos) (done ++ [wo]) (placeOrder (indexByNumber wos) centers st wo).
Proof.
  intros Hdeps Hwo Hself [Hstart Hend] Hqueue (Hc & He & Hns & Hsched).
  assert (Hlast : forall m, lastEndOnCenterOf st wo = Some m -> m <= startDate wo).
  { unfold lastEndOnCenterOf. intros m.
    destruct (JsMap.get (scheduledByCenter st) (workCenterId wo)) as [slots |] eqn:Eg;
      simpl; [| discriminate].
    destruct slots as [| x xs]; [discriminate |]. intros [= <-].
    assert (Hall : forall s, In s (x :: xs) -> slot_end s <= startDate wo).
    { intros s Hs. destruct (Hsched _ _ Eg s Hs) as (a & Ha & Hca & ->). simpl.
      rewrite Forall_forall in Hqueue. apply (Hqueue a Ha). exact Hca. }
    apply maxOf_le; [apply Hall; now left |].
    apply Forall_forall. intros y Hy. apply in_map_iff in Hy as (s & <- & Hs).
    apply Hall. now right. }
  assert (Hparent : forall m, maxParentEndOf (indexByNumber wos) (newSchedule st) wo = Some m ->
                              m <= startDate wo).
  { intros m. unfold maxParentEndOf. apply maxParentEnd_bound; [| discriminate].
    intros dep parent Hdep Hget.
    assert (Hstored : parentEndOf (newSchedule st) parent = endDate parent).
    { unfold parentEndOf. destruct (isMaintenance parent); auto.
      destruct (JsMap.get (newSchedule st) (workOrderNumber parent)) as [slot |] eqn:En; auto.
      destruct (Hns _ _ En) as (w & Hw & ->). simpl.
      pose proof (indexByNumber_get_In _ _ _ Hget) as [_ Hid]. subst dep.
      congruence. }
    rewrite Hstored. eapply checkDependencies_clean; eauto. }
  assert (Hcand : maxOf (orDefault (lastEndOnCenterOf st wo) (startDate wo))
                    [orDefault (maxParentEndOf (indexByNumber wos) (newSchedule st) wo) (startDate wo);
                     startDate wo] = startDate wo).
  { apply Z.le_antisymm.
    - apply maxOf_le.
      + destruct (lastEndOnCenterOf st wo); simpl; [auto | lia].
      + constructor; [| constructor; [lia | constructor]].
        destruct (maxParentEndOf (indexByNumber wos) (newSchedule st) wo); simpl; [auto | lia].
    - apply maxOf_ge_In. simpl. auto. }
  unfold placeOrder, candidateStartOf. rewrite Hcand, Hstart, Hend.
  rewrite !Z.eqb_refl. cbn [negb].
  unfold InPlace. cbn [changesSoFar explanationParts newSchedule scheduledByCenter].
  split; [exact Hc |]. split; [exact He |]. split.
  - intros id slot.
    destruct (string_dec (workOrderNumber wo) id) as [<- | Hne].
    + rewrite get_set_same. intros [= <-]. eauto.
    + rewrite get_set_other; auto.
  - intros c slots.
    destruct (string_dec (workCenterId wo) c) as [<- | Hne].
    + rewrite get_set_same. intros [= <-] s Hs.
      apply in_app_or in Hs as [Hs | [<- | []]].
      * destruct (JsMap.get (scheduledByCenter st) (workCenterId wo)) as [old |] eqn:Eo;
          simpl in Hs; [| destruct Hs].
        destruct (Hsched _ _ Eo s Hs) as (a & Ha & Hca & ->).
        exists a. split; [apply in_or_app; auto | auto].
      * exists wo. split; [apply in_or_app; right; now left | auto].
    + rewrite get_set_other; auto. intros Hg s Hs.
      destruct (Hsched _ _ Hg s Hs) as (a & Ha & Hca & ->).
      exists a. split; [apply in_or_app; auto | auto].
Qed.

Lemma fold_left_step {A B : Type} (f : A -> B -> A) (x : B) (l : list B) (a : A) :
  fold_left f (x :: l) a = fold_left f l (f a x).
Proof. reflexivity. Qed.

Lemma place_in_place wos centers todo done st :
  CheckerCommon.checkDependencies wos [] = [] ->
  (forall wo, In wo todo ->
     In wo wos /\ JsMap.get (indexByNumber wos) (workOrderNumber wo) = Some wo
     /\ keepsItsSlot centers wo) ->
  ForallOrdPairs queuedBefore (done ++ todo) ->
  InPlace (indexByNumber wos) done st ->
  InPlace (indexByNumber wos) (done ++ todo) (fold_left (placeOrder (indexByNumber wos) centers) todo st).
Proof.
  intros Hdeps. revert done st.
  induction todo as [| wo todo IH]; intros done st Htodo Hq Hinv.
  - cbn [fold_left]. now rewrite app_nil_r.
  - rewrite fold_left_step.
    replace (done ++ wo :: todo) with ((done ++ [wo]) ++ todo)
      by (rewrite <- app_assoc; reflexivity).
    apply IH.
    + intros w Hw. apply Htodo. now right.
    + rewrite <- app_assoc. exact Hq.
    + destruct (Htodo wo (or_introl eq_refl)) as (Hwo & Hself & Hkeep).
      apply placeOrder_in_place; auto.
      clear -Hq. induction done as [| a done IHd]; [constructor |].
      simpl in Hq. inversion Hq as [| ? ? Ha Hrest]; subst.
      constructor; auto.
      rewrite Forall_forall in Ha. apply Ha. apply in_or_app. right. now left.
Qed.

Lemma nonMaintenanceOrders_In byNumber ids wo :
  In wo (nonMaintenanceOrders byNumber ids) ->
  isMaintenance wo = false
  /\ exists id, In id ids /\ JsMap.get byNumber id = Some wo.
Proof.
  unfold nonMaintenanceOrders. intros H.
  apply in_flat_map in H as (id & Hid & Hin).
  destruct (JsMap.get byNumber id) as [w |] eqn:E; [| destruct Hin].
  destruct (isMaintenance w) eqn:Em; [destruct Hin |].
  destruct Hin as [<- | []]. eauto.
Qed.

Lemma NoDup_numbers_eq wos a b :
  NoDup (map workOrderNumber wos) -> In a wos -> In b wos ->
  workOrderNumber a = workOrderNumber b -> a = b.
Proof.
  induction wos as [| w wos IH]; intros Hnd Ha Hb Heq; [destruct Ha |].
  simpl in Hnd. inversion Hnd as [| ? ? Hout Hnd']; subst.
  destruct Ha as [-> | Ha]; destruct Hb as [-> | Hb]; auto.
  - exfalso. apply Hout. rewrite Heq. now apply in_map.
  - exfalso. apply Hout. rewrite <- Heq. now apply in_map.
Qed.

Lemma updateOrder_in_place wos ns wo :
  NoDup (map workOrderNumber wos) -> In wo wos ->
  (forall id slot, JsMap.get ns id = Some slot ->
     exists w, JsMap.get (indexByNumber wos) id = Some w
               /\ slot = mkSlot (startDate w) (endDate w)) ->
  updateOrder ns wo = wo.
Proof.
  intros Hnd Hwo Hns. unfold updateOrder.
  destruct (isMaintenance wo) eqn:Em; auto.
  destruct (JsMap.get ns (workOrderNumber wo)) as [slot |] eqn:E; auto.
  destruct (Hns _ _ E) as (w & Hw & ->). simpl.
  apply indexByNumber_get_In in Hw as [Hin Hid].
  assert (w = wo) by (eapply NoDup_numbers_eq; eauto). subst w.
  destruct wo; simpl in *. now subst.
Qed.
End StableScheduleFacts.

(** C1 (amended).  Take a schedule the validator accepts and whose
    dependency graph sorts.  If every order the placer processes already
    starts at an available start of its center and ends exactly where the
    time walk from that start ends, and if on each center every processed
    order ends before the orders processed after it start, then [reflow]
    returns the input orders unchanged with an empty list of changes, and the
    validator accepts that output. *)
Theorem reflow_keeps_a_settled_schedule :
  forall fuel workOrders workCenters orderIds,
    Checker.validateSchedule fuel workOrders workCenters = Some (mkValidation true []) ->
    topologicalOrder workOrders = Some (inr orderIds) ->
    let queue := nonMaintenanceOrders (indexByNumber workOrders) orderIds in
    Forall (keepsItsSlot (indexCenters workCenters)) queue ->
    ForallOrdPairs queuedBefore queue ->
    reflow fuel workOrders workCenters
    = Some (inr (mkResult workOrders [] NoChangesRequired))
    /\ Checker.validateSchedule fuel workOrders workCenters = Some (mkValidation true []).
Proof.
  intros fuel wos wcs ids Hvalid Hsort queue Hkeep Hqueue.
  split; [| exact Hvalid].
  destruct (Checker_validate_valid _ _ _ _ Hvalid eq_refl) as (_ & _ & Hdeps & _).
  destruct (topologicalOrder_ok _ _ Hsort) as (_ & _ & _ & Hnd).
  assert (Hinv : InPlace (indexByNumber wos) ([] ++ queue) (place wos wcs ids)).
  { unfold place. apply place_in_place; auto.
    - intros wo Hwo. rewrite Forall_forall in Hkeep.
      destruct (nonMaintenanceOrders_In _ _ _ Hwo) as (_ & id & _ & Hget).
      pose proof (indexByNumber_get_In _ _ _ Hget) as [Hin Hid].
      subst id. auto.
    - repeat split; simpl; intros; discriminate. }
  destruct Hinv as (Hc & He & Hns & _).
  assert (Hsame : map (updateOrder (newSchedule (place wos wcs ids))) wos = wos).
  { transitivity (map (fun wo : WorkOrder => wo) wos); [| apply map_id].
    apply map_ext_in.
    intros wo Hwo. now apply updateOrder_in_place with (wos := wos). }
  unfold reflow. rewrite Hsort, Hsame, Hvalid. simpl. now rewrite Hc, He.
Qed.

(** C1, as stated, fails: two consistent one-hour orders on one center, the
    later one listed first, form a valid schedule; the placer processes them
    in the listed order and moves the earlier one behind the later one. *)
Lemma valid_schedule_is_rearranged :
  Checker.validateSchedule 100 [Examples.lateFirst; Examples.earlySecond] [Examples.line1]
    = Some (mkValidation true [])
  /\ changedOrders (reflow 100 [Examples.lateFirst; Examples.earlySecond] [Examples.line1])
     = Some ["Y"%string; "Y"%string].
Proof. split; vm_compute; reflexivity. Qed.

Lemma reflow_keeps_a_settled_schedule_witness :
  reflow 100 Examples.cascadePlaced [Examples.line1]
  = Some (inr (mkResult Examples.cascadePlaced [] NoChangesRequired)).
Proof.
  apply (reflow_keeps_a_settled_schedule 100 Examples.cascadePlaced [Examples.line1]
           ["A"; "B"; "C"]%string).
  - vm_compute. reflexivity.
  - vm_compute. reflexivity.
  - repeat (constructor; [split; vm_compute; reflexivity |]). constructor.
  - repeat (constructor; [repeat (constructor; [intros _; vm_compute; discriminate |]);
                          constructor |]).
    constructor.
Defined.

(** ** Duration conservation *)

Section CalendarFacts.

Lemma isInShift_spec t s :
  isInShift t s = true
  <-> dayOfWeek s = toPlanDayOfWeek (weekday t)
      /\ startHour s <= hour t < endHour s.
Proof.
  unfold isInShift. cbv zeta.
  destruct (Z.eqb_spec (dayOfWeek s) (toPlanDayOfWeek (weekday t))) as [Ed | Ed];
    cbn [negb].
  - rewrite Z.gtb_ltb.
    destruct (Z.ltb_spec (startHour s) (hour t)), (Z.ltb_spec (hour t) (endHour s)),
      (Z.eqb_spec (hour t) (startHour s)); cbn [andb];
      try (destruct ((hour t =? endHour s) && (minute t =? 0)));
      (split; [intros H'; first [discriminate | split; [assumption | lia]]
              | intros [_ H']; first [reflexivity | lia]]).
  - split; [discriminate | intros [H _]; contradiction].
Qed.

Lemma isWithinShift_spec t shifts :
  isWithinShift t shifts = true <-> exists s, In s shifts /\ isInShift t s = true.
Proof. unfold isWithinShift. apply existsb_exists. Qed.

Lemma same_day u t :
  startOfDay t <= u < startOfDay t + MS_PER_DAY ->
  startOfDay u = startOfDay t /\ weekday u = weekday t.
Proof.
  timeconsts. intros H.
  assert (E : u / 86400000 = t / 86400000).
  { pose proof (Z.div_mod t 86400000 ltac:(lia)).
    pose proof (Z.mod_pos_bound t 86400000 ltac:(lia)).
    symmetry. apply (Z.div_unique u 86400000 (t / 86400000) (u - 86400000 * (t / 86400000)));
      lia. }
  split.
  - pose proof (Z.div_mod t 86400000 ltac:(lia)).
    pose proof (Z.div_mod u 86400000 ltac:(lia)). lia.
  - now rewrite E.
Qed.

Lemma startOfDay_bounds t : startOfDay t <= t < startOfDay t + MS_PER_DAY.
Proof.
  timeconsts. pose proof (Z.mod_pos_bound t 86400000 ltac:(lia)). lia.
Qed.

Lemma hour_bounds t : 0 <= hour t <= 23.
Proof.
  timeconsts. pose proof (Z.mod_pos_bound t 86400000 ltac:(lia)).
  split.
  - apply Z.div_pos; lia.
  - assert (t mod 86400000 / 3600000 < 24); [| lia].
    apply Z.div_lt_upper_bound; lia.
Qed.

(** [hour t < h] says that [t] lies before [h] o'clock of its day. *)
Lemma hour_lt t h : hour t < h <-> t < setHour (startOfDay t) h.
Proof.
  timeconsts. pose proof (Z.mod_pos_bound t 86400000 ltac:(lia)).
  pose proof (Z.div_mod (t mod 86400000) 3600000 ltac:(lia)).
  pose proof (Z.mod_pos_bound (t mod 86400000) 3600000 ltac:(lia)).
  split; intros; nia.
Qed.

Lemma hour_ge t h : h <= hour t <-> setHour (startOfDay t) h <= t.
Proof. pose proof (hour_lt t h). lia. Qed.

Lemma startOfDay_aligned t h : aligned (setHour (startOfDay t) h).
Proof.
  timeconsts.
  pose proof (Z.div_mod t 86400000 ltac:(lia)).
  replace (t - t mod 86400000 + h * 3600000)
    with ((1440 * (t / 86400000) + 60 * h) * 60000) by lia.
  apply Z.mod_mul. lia.
Qed.
End CalendarFacts.

Section SegmentFacts.
Variable shifts : list Shift.
Variable ranges : list MaintenanceRange.
Hypothesis shifts_wf : Forall wellFormedShift shifts.
Hypothesis ranges_aligned : Forall alignedRange ranges.

Lemma shiftSegmentEnd_gen l current :
  Forall wellFormedShift l ->
  isWithinShift current l = true ->
  current < getShiftSegmentEnd current l
  /\ aligned (getShiftSegmentEnd current l)
  /\ forall t, current <= t < getShiftSegmentEnd current l -> isWithinShift t l = true.
Proof.
  induction l as [| s l IH]; intros Hwf Hin; [discriminate |].
  inversion Hwf as [| ? ? [Hs0 Hs24] Hwf']; subst.
  cbn [getShiftSegmentEnd].
  assert (Hcase : isInShift current s = true
                  \/ (isInShift current s = false /\ isWithinShift current l = true)).
  { unfold isWithinShift in *. simpl in Hin. destruct (isInShift current s); auto. }
  assert (Hrest : isInShift current s = false -> isWithinShift current l = true ->
            current < getShiftSegmentEnd current l
            /\ aligned (getShiftSegmentEnd current l)
            /\ forall t, current <= t < getShiftSegmentEnd current l ->
                         isWithinShift t (s :: l) = true).
  { intros _ Hl. destruct (IH Hwf' Hl) as (H1 & H2 & H3). repeat split; auto.
    intros t Ht. unfold isWithinShift in *. simpl. rewrite (H3 t Ht).
    apply orb_true_r. }
  destruct (Z.eqb_spec (dayOfWeek s) (toPlanDayOfWeek (weekday current))) as [Ed | Ed];
    cbn [negb].
  - destruct ((hour current >=? startHour s) && (hour current <? endHour s)) eqn:Eh.
    + apply andb_prop in Eh as [E1 E2].
      rewrite Z.geb_leb in E1. apply Z.leb_le in E1. apply Z.ltb_lt in E2.
      pose proof (startOfDay_bounds current) as Hb.
      assert (Hend : setHour (startOfDay current) (endHour s)
                     <= startOfDay current + MS_PER_DAY)
        by (unfold setHour, MS_PER_HOUR, MS_PER_DAY; lia).
      split; [now apply hour_lt |]. split; [apply startOfDay_aligned |].
      intros t Ht.
      destruct (same_day t current ltac:(lia)) as [Hsod Hwd].
      apply isWithinShift_spec. exists s. split; [now left |].
      apply isInShift_spec. rewrite Hwd. split; auto. split.
      * apply hour_ge. rewrite Hsod. apply hour_ge in E1. lia.
      * apply hour_lt. rewrite Hsod. lia.
    + destruct Hcase as [Hc | [Hc Hl]]; [| now apply Hrest].
      apply isInShift_spec in Hc as [_ [H1 H2]].
      apply andb_false_iff in Eh as [Eh | Eh].
      * rewrite Z.geb_leb in Eh. apply Z.leb_gt in Eh. lia.
      * apply Z.ltb_ge in Eh. lia.
  - destruct Hcase as [Hc | [Hc Hl]]; [| now apply Hrest].
    apply isInShift_spec in Hc as [Hd _]. contradiction.
Qed.

Lemma working_spec t :
  working shifts ranges t = true
  <-> isWithinShift t shifts = true /\ isInMaintenanceRange t ranges = false.
Proof.
  unfold working. rewrite andb_true_iff, negb_true_iff. tauto.
Qed.

Lemma inRange_spec t r : inRange t r = true <-> r_start r <= t < r_end r.
Proof.
  unfold inRange. rewrite andb_true_iff, Z.geb_leb, Z.leb_le, Z.ltb_lt. tauto.
Qed.

Lemma isInMaintenanceRange_false t l :
  isInMaintenanceRange t l = false <-> forall r, In r l -> inRange t r = false.
Proof.
  unfold isInMaintenanceRange. induction l as [| r l IH]; simpl.
  - split; auto. intros _ ? [].
  - rewrite orb_false_iff, IH. split.
    + intros [H1 H2] x [<- | Hx]; auto.
    + intros H. split; auto.
Qed.

(** The fold of [getWorkingSegmentEnd] keeps the segment end after [dt],
    aligned, and at or before every range start that lies after [dt]. *)
Lemma segmentEnd_fold l dt e0 :
  Forall alignedRange l -> dt < e0 -> aligned e0 ->
  let e :=
    fold_left
      (fun segmentEnd r =>
         if (r_start r >? dt) && (r_start r <? segmentEnd) then r_start r else segmentEnd)
      l e0 in
  dt < e /\ e <= e0 /\ aligned e
  /\ forall r, In r l -> dt < r_start r -> e <= r_start r.
Proof.
  revert e0. induction l as [| r l IH]; intros e0 Hal Hlt Ha; simpl.
  - repeat split; auto; try lia.
  - inversion Hal as [| ? ? [Hrs Hre] Hal']; subst.
    destruct ((r_start r >? dt) && (r_start r <? e0)) eqn:E.
    + apply andb_prop in E as [E1 E2]. apply Z.gtb_lt in E1. apply Z.ltb_lt in E2.
      destruct (IH (r_start r) Hal' E1 Hrs) as (H1 & H2 & H3 & H4).
      repeat split; auto; try lia.
      intros x [<- | Hx] Hd; auto.
    + destruct (IH e0 Hal' Hlt Ha) as (H1 & H2 & H3 & H4).
      repeat split; auto.
      intros x [<- | Hx] Hd; auto.
      apply andb_false_iff in E as [E | E].
      * rewrite Z.gtb_ltb in E. apply Z.ltb_ge in E. lia.
      * apply Z.ltb_ge in E. lia.
Qed.

Lemma workingSegmentEnd_spec current :
  working shifts ranges current = true ->
  let e := getWorkingSegmentEnd current shifts ranges in
  current < e /\ aligned e
  /\ forall t, current <= t < e -> working shifts ranges t = true.
Proof.
  intros Hw. apply working_spec in Hw as [Hs Hm].
  destruct (shiftSegmentEnd_gen shifts current shifts_wf Hs) as (H1 & H2 & H3).
  unfold getWorkingSegmentEnd.
  destruct (segmentEnd_fold ranges current _ ranges_aligned H1 H2) as (F1 & F2 & F3 & F4).
  cbv zeta. repeat split; auto.
  intros t Ht. apply working_spec. split; [apply H3; lia |].
  apply isInMaintenanceRange_false. intros r Hr.
  rewrite isInMaintenanceRange_false in Hm. specialize (Hm r Hr).
  destruct (inRange t r) eqn:E; auto.
  apply inRange_spec in E.
  destruct (Z.lt_ge_cases current (r_start r)) as [Hlt | Hge].
  - specialize (F4 r Hr Hlt). lia.
  - assert (inRange current r = true) by (apply inRange_spec; lia). congruence.
Qed.
End SegmentFacts.

Section NextShiftStartFacts.

Lemma scanShifts_upper dt dow sod l best :
  (forall b0, best = Some b0 ->
     exists b, nextShiftStart_scanShifts dt dow sod l best = Some b /\ b <= b0)
  /\ (forall s, In s l -> dayOfWeek s = dow -> dt <= setHour sod (startHour s) ->
        exists b, nextShiftStart_scanShifts dt dow sod l best = Some b
                  /\ b <= setHour sod (startHour s)).
Proof.
  revert best. induction l as [| s l IH]; intros best; cbn [nextShiftStart_scanShifts].
  - split; [intros b0 ->; exists b0; split; auto; lia | intros ? []].
  - destruct (Z.eqb_spec (dayOfWeek s) dow) as [Ed | Ed]; cbn [negb].
    + set (c := setHour sod (startHour s)).
      set (best' := if (c >=? dt) && match best with None => true | Some b => c <? b end
                    then Some c else best).
      destruct (IH best') as [IH1 IH2].
      assert (Hbest : forall b0, best = Some b0 -> exists b1, best' = Some b1 /\ b1 <= b0).
      { intros b0 ->. unfold best'.
        destruct ((c >=? dt) && (c <? b0)) eqn:E.
        - apply andb_prop in E as [_ E]. apply Z.ltb_lt in E. exists c. split; auto. lia.
        - exists b0. split; auto. lia. }
      split.
      * intros b0 Hb0. destruct (Hbest b0 Hb0) as (b1 & Hb1 & Hle).
        destruct (IH1 b1 Hb1) as (b & Hb & Hle'). exists b. split; auto. lia.
      * intros x [<- | Hx] Hdow Hge; [| now apply IH2].
        assert (Hc : exists b1, best' = Some b1 /\ b1 <= c).
        { unfold best'. fold c in Hge.
          replace (c >=? dt) with true by (symmetry; rewrite Z.geb_leb; now apply Z.leb_le).
          cbn [andb]. destruct best as [b0 |].
          - destruct (Z.ltb_spec c b0); [exists c | exists b0]; split; auto; lia.
          - exists c. split; auto. lia. }
        destruct Hc as (b1 & Hb1 & Hle).
        destruct (IH1 b1 Hb1) as (b & Hb & Hle'). exists b. split; auto. fold c. lia.
    + destruct (IH best) as [IH1 IH2]. split; auto.
      intros x [<- | Hx] Hdow Hge; [contradiction | now apply IH2].
Qed.

Lemma scanShifts_origin dt dow sod l best b :
  nextShiftStart_scanShifts dt dow sod l best = Some b ->
  best = Some b
  \/ (dt <= b /\ exists s, In s l /\ dayOfWeek s = dow /\ b = setHour sod (startHour s)).
Proof.
  revert best. induction l as [| s l IH]; intros best; cbn [nextShiftStart_scanShifts].
  - auto.
  - destruct (Z.eqb_spec (dayOfWeek s) dow) as [Ed | Ed]; cbn [negb]; intros H.
    + apply IH in H as [H | (Hge & x & Hx & Hd & Hb)].
      * destruct ((setHour sod (startHour s) >=? dt)
                  && match best with None => true | Some b0 => setHour sod (startHour s) <? b0 end)
          eqn:E; auto.
        injection H as <-. apply andb_prop in E as [E _].
        rewrite Z.geb_leb in E. apply Z.leb_le in E.
        right. split; auto. exists s. split; [now left | auto].
      * right. split; auto. exists x. split; [now right | auto].
    + apply IH in H as [H | (Hge & x & Hx & Hd & Hb)]; auto.
      right. split; auto. exists x. split; [now right | auto].
Qed.

Lemma scanDays_upper dt shifts offsets best :
  (forall b0, best = Some b0 ->
     exists b, nextShiftStart_scanDays dt shifts offsets best = Some b /\ b <= b0)
  /\ (forall d s, In d offsets -> In s shifts -> onDay dt d s ->
        dt <= candidateStart dt d s ->
        exists b, nextShiftStart_scanDays dt shifts offsets best = Some b
                  /\ b <= candidateStart dt d s).
Proof.
  revert best. induction offsets as [| d0 offsets IH]; intros best;
    cbn [nextShiftStart_scanDays].
  - split; [intros b0 ->; exists b0; split; auto; lia | intros ? ? []].
  - cbv zeta.
    set (best' := nextShiftStart_scanShifts dt (toPlanDayOfWeek (weekday (plusDays dt d0)))
                    (startOfDay (plusDays dt d0)) shifts best).
    destruct (IH best') as [IH1 IH2].
    destruct (scanShifts_upper dt (toPlanDayOfWeek (weekday (plusDays dt d0)))
                (startOfDay (plusDays dt d0)) shifts best) as [S1 S2].
    fold best' in S1, S2. split.
    + intros b0 Hb0. destruct (S1 b0 Hb0) as (b1 & Hb1 & Hle).
      destruct (IH1 b1 Hb1) as (b & Hb & Hle'). exists b. split; auto. lia.
    + intros d s [<- | Hd] Hs Hon Hge; [| now apply IH2].
      destruct (S2 s Hs Hon Hge) as (b1 & Hb1 & Hle).
      destruct (IH1 b1 Hb1) as (b & Hb & Hle'). exists b. split; auto.
      unfold candidateStart. lia.
Qed.

Lemma scanDays_origin dt shifts offsets best b :
  nextShiftStart_scanDays dt shifts offsets best = Some b ->
  best = Some b
  \/ (dt <= b /\ exists d s, In d offsets /\ In s shifts /\ b = candidateStart dt d s).
Proof.
  revert best. induction offsets as [| d0 offsets IH]; intros best;
    cbn [nextShiftStart_scanDays]; auto.
  cbv zeta. intros H. apply IH in H as [H | (Hge & d & s & Hd & Hs & Hb)].
  - apply scanShifts_origin in H as [H | (Hge & s & Hs & _ & Hb)]; auto.
    right. split; auto. exists d0, s. split; [now left | auto].
  - right. split; auto. exists d, s. split; [now right | auto].
Qed.
End NextShiftStartFacts.

Section NextShiftStartSpec.

Lemma startOfDay_plusDays dt d :
  startOfDay (plusDays dt d) = startOfDay dt + d * MS_PER_DAY.
Proof.
  timeconsts. rewrite Z.mod_add by lia. lia.
Qed.

Lemma weekday_plusDays dt d :
  weekday (plusDays dt d) = (dt / MS_PER_DAY + d + 3) mod 7 + 1.
Proof.
  timeconsts. rewrite Z.div_add by lia. reflexivity.
Qed.

Lemma startOfDay_index t : startOfDay t = MS_PER_DAY * (t / MS_PER_DAY).
Proof.
  timeconsts. pose proof (Z.div_mod t 86400000 ltac:(lia)). lia.
Qed.

Lemma dayOffsets_In d : 0 <= d <= 7 -> In d dayOffsets.
Proof.
  intros H. unfold dayOffsets.
  assert (d = 0 \/ d = 1 \/ d = 2 \/ d = 3 \/ d = 4 \/ d = 5 \/ d = 6 \/ d = 7) as Hd by lia.
  simpl. intuition.
Qed.

Lemma mod7_eq a b : (a - b) mod 7 = 0 -> a mod 7 = b mod 7.
Proof. intros H. Z.div_mod_to_equations. lia. Qed.

Lemma nextShiftStart_spec shifts dt :
  Forall wellFormedShift shifts ->
  isWithinShift dt shifts = false ->
  dt <= getNextShiftStart dt shifts
  /\ (aligned dt -> aligned (getNextShiftStart dt shifts))
  /\ forall t, dt <= t < getNextShiftStart dt shifts -> isWithinShift t shifts = false.
Proof.
  intros Hwf Hout. unfold getNextShiftStart.
  destruct shifts as [| s0 rest] eqn:Eshifts; [repeat split; auto; intros; lia |].
  rewrite <- Eshifts in *. clear Eshifts s0 rest.
  destruct (nextShiftStart_scanDays dt shifts dayOffsets None) as [b |] eqn:Escan;
    [| repeat split; auto; intros; lia].
  pose proof (scanDays_origin _ _ _ _ _ Escan) as [Hn | (Hge & d & s & _ & _ & Hb)];
    [discriminate |].
  split; [exact Hge |]. split; [intros _; subst b; apply startOfDay_aligned |].
  intros t Ht.
  destruct (isWithinShift t shifts) eqn:Et; auto. exfalso.
  apply isWithinShift_spec in Et as (x & Hx & Hin).
  apply isInShift_spec in Hin as [Hdow [Hlo Hhi]].
  rewrite Forall_forall in Hwf. destruct (Hwf x Hx) as [Hx0 _].
  pose proof (hour_bounds t) as Hh.
  pose proof (startOfDay_bounds t) as Hbt.
  pose proof (startOfDay_bounds dt) as Hbd.
  assert (Hc : setHour (startOfDay t) (startHour x) <= t) by (now apply hour_ge).
  assert (Hc0 : startOfDay t <= setHour (startOfDay t) (startHour x))
    by (unfold setHour, MS_PER_HOUR; lia).
  destruct (Z.lt_ge_cases (setHour (startOfDay t) (startHour x)) dt) as [Hlt | Hge'].
  - (* the shift containing [t] already contains [dt] *)
    destruct (same_day dt t ltac:(lia)) as [Hsod Hwd].
    assert (isWithinShift dt shifts = true); [| congruence].
    apply isWithinShift_spec. exists x. split; auto.
    apply isInShift_spec. rewrite Hwd. split; auto. split.
    + apply hour_ge. rewrite Hsod. lia.
    + apply hour_lt. rewrite Hsod. apply hour_lt in Hhi. lia.
  - (* the start of that shift is a candidate of the scan *)
    destruct (scanDays_upper dt shifts dayOffsets None) as [_ Hup].
    set (D := t / MS_PER_DAY - dt / MS_PER_DAY).
    assert (HD : 0 <= D).
    { unfold D. assert (dt / MS_PER_DAY <= t / MS_PER_DAY); [| lia].
      apply Z.div_le_mono; unfold MS_PER_DAY; lia. }
    assert (Hcand : forall d', 0 <= d' <= 7 -> (d' - D) mod 7 = 0 ->
              dt <= candidateStart dt d' x ->
              b <= candidateStart dt d' x).
    { intros d' Hd' Hmod Hge2.
      destruct (Hup d' x (dayOffsets_In d' Hd') Hx) as (b' & Hb' & Hle); auto.
      - unfold onDay. rewrite Hdow. f_equal. unfold weekday at 1.
        rewrite weekday_plusDays. f_equal. apply mod7_eq.
        replace (t / MS_PER_DAY + 3 - (dt / MS_PER_DAY + d' + 3)) with (- (d' - D))
          by (unfold D; lia).
        now apply Z.mod_opp_l_z.
      - rewrite Escan in Hb'. injection Hb' as <-. exact Hle. }
    assert (Hcs : forall d', candidateStart dt d' x
                            = startOfDay dt + d' * MS_PER_DAY + startHour x * MS_PER_HOUR).
    { intros d'. unfold candidateStart. rewrite startOfDay_plusDays. unfold setHour. lia. }
    assert (HsodT : startOfDay t = startOfDay dt + D * MS_PER_DAY).
    { rewrite !startOfDay_index. unfold D. lia. }
    destruct (Z.le_gt_cases D 7) as [Hsmall | Hbig].
    + specialize (Hcand D ltac:(lia)). rewrite Z.sub_diag in Hcand.
      specialize (Hcand eq_refl). rewrite Hcs in Hcand.
      unfold setHour in Hc, Hge'. lia.
    + pose proof (Z.mod_pos_bound D 7 ltac:(lia)) as Hm.
      assert (Hmod0 : (D mod 7 - D) mod 7 = 0).
      { rewrite Zminus_mod_idemp_l. rewrite Z.sub_diag. reflexivity. }
      assert (Hmod7 : (D mod 7 + 7 - D) mod 7 = 0).
      { replace (D mod 7 + 7 - D) with ((D mod 7 - D) + 1 * 7) by lia.
        rewrite Z.mod_add by lia. exact Hmod0. }
      destruct (Z.le_gt_cases dt (candidateStart dt (D mod 7) x)) as [Hok | Hbefore].
      * specialize (Hcand (D mod 7) ltac:(lia) Hmod0 Hok). rewrite Hcs in Hcand.
        unfold MS_PER_DAY, MS_PER_HOUR in *. lia.
      * rewrite Hcs in Hbefore.
        assert (D mod 7 = 0) by (unfold MS_PER_DAY, MS_PER_HOUR in *; lia).
        rewrite H in Hmod7.
        specialize (Hcand 7 ltac:(lia) Hmod7). rewrite Hcs in Hcand.
        unfold MS_PER_DAY, MS_PER_HOUR in *. lia.
Qed.
End NextShiftStartSpec.

Section WalkFacts.
Variable shifts : list Shift.
Variable ranges : list MaintenanceRange.
Hypothesis shifts_wf : Forall wellFormedShift shifts.
Hypothesis shifts_nonEmpty : nonEmpty shifts = true.
Hypothesis ranges_aligned : Forall alignedRange ranges.

Lemma getMaintenanceRangeEnd_spec dt l e :
  getMaintenanceRangeEnd dt l = Some e ->
  exists r, In r l /\ inRange dt r = true /\ e = r_end r.
Proof.
  induction l as [| r l IH]; simpl; [discriminate |].
  destruct (inRange dt r) eqn:E.
  - intros [= <-]. exists r. auto.
  - intros H. destruct (IH H) as (x & Hx & Hin & He). exists x. auto.
Qed.

Lemma inRange_isInMaintenanceRange t r :
  In r ranges -> inRange t r = true -> isInMaintenanceRange t ranges = true.
Proof.
  intros Hr Hin. unfold isInMaintenanceRange. apply existsb_exists. eauto.
Qed.

Lemma nextWorkingMoment_spec i dt :
  aligned dt ->
  capped (nextWorkingMoment_loop shifts ranges i dt) = false ->
  let v := value (nextWorkingMoment_loop shifts ranges i dt) in
  dt <= v /\ aligned v /\ working shifts ranges v = true
  /\ forall t, dt <= t < v -> working shifts ranges t = false.
Proof.
  revert dt. induction i as [| i IH]; intros dt Hal; cbn [nextWorkingMoment_loop];
    [discriminate |].
  rewrite shifts_nonEmpty. cbn [andb].
  destruct (isWithinShift dt shifts) eqn:Ew; cbn [negb].
  - destruct (nonEmpty ranges && isInMaintenanceRange dt ranges) eqn:Em.
    + apply andb_prop in Em as [_ Em].
      destruct (getMaintenanceRangeEnd dt ranges) as [e |] eqn:Ee; [| discriminate].
      destruct (getMaintenanceRangeEnd_spec _ _ _ Ee) as (r & Hr & Hin & ->).
      pose proof Hin as Hin'. apply inRange_spec in Hin'.
      rewrite Forall_forall in ranges_aligned. destruct (ranges_aligned r Hr) as [_ Hre].
      intros Hc. destruct (IH (r_end r) Hre Hc) as (H1 & H2 & H3 & H4).
      cbv zeta. repeat split; auto; try lia.
      intros t Ht. destruct (Z.lt_ge_cases t (r_end r)) as [Hlt | Hge].
      * unfold working.
        rewrite (inRange_isInMaintenanceRange t r Hr) by (apply inRange_spec; lia).
        apply andb_false_r.
      * apply H4. lia.
    + intros _. cbn [value]. repeat split; auto; try lia.
      apply working_spec. split; auto.
      destruct (nonEmpty ranges) eqn:En; [exact Em |].
      destruct ranges; [reflexivity | discriminate].
  - destruct (nextShiftStart_spec shifts dt shifts_wf Ew) as (N1 & N2 & N3).
    intros Hc. destruct (IH _ (N2 Hal) Hc) as (H1 & H2 & H3 & H4).
    cbv zeta. repeat split; auto; try lia.
    intros t Ht. destruct (Z.lt_ge_cases t (getNextShiftStart dt shifts)) as [Hlt | Hge].
    + unfold working. rewrite (N3 t) by lia. reflexivity.
    + apply H4. lia.
Qed.

Lemma workingMinutes_app from n m :
  workingMinutes shifts ranges from (n + m)
  = workingMinutes shifts ranges from n
    + workingMinutes shifts ranges (from + Z.of_nat n * MS_PER_MINUTE) m.
Proof.
  revert from. induction n as [| n IH]; intros from.
  - simpl. f_equal. lia.
  - cbn [Nat.add workingMinutes]. rewrite IH.
    replace (from + MS_PER_MINUTE + Z.of_nat n * MS_PER_MINUTE)
      with (from + Z.of_nat (S n) * MS_PER_MINUTE) by lia.
    lia.
Qed.

Lemma workingMinutes_all from n :
  (forall t, from <= t < from + Z.of_nat n * MS_PER_MINUTE ->
             working shifts ranges t = true) ->
  workingMinutes shifts ranges from n = Z.of_nat n.
Proof.
  revert from. induction n as [| n IH]; intros from H; [reflexivity |].
  cbn [workingMinutes]. rewrite H by (unfold MS_PER_MINUTE; lia).
  rewrite IH; [lia |]. intros t Ht. apply H. unfold MS_PER_MINUTE in *. lia.
Qed.

Lemma workingMinutes_none from n :
  (forall t, from <= t < from + Z.of_nat n * MS_PER_MINUTE ->
             working shifts ranges t = false) ->
  workingMinutes shifts ranges from n = 0.
Proof.
  revert from. induction n as [| n IH]; intros from H; [reflexivity |].
  cbn [workingMinutes]. rewrite H by (unfold MS_PER_MINUTE; lia).
  rewrite IH; [lia |]. intros t Ht. apply H. unfold MS_PER_MINUTE in *. lia.
Qed.

Lemma aligned_distance a b :
  aligned a -> aligned b -> a <= b ->
  exists k : nat, b = a + Z.of_nat k * MS_PER_MINUTE.
Proof.
  unfold aligned, MS_PER_MINUTE. intros Ha Hb Hle.
  exists (Z.to_nat ((b - a) / 60000)).
  rewrite Z2Nat.id by (apply Z.div_pos; lia).
  Z.div_mod_to_equations. lia.
Qed.

Lemma aligned_plus a k : aligned a -> aligned (a + k * MS_PER_MINUTE).
Proof.
  unfold aligned, MS_PER_MINUTE. intros Ha. rewrite Z.mod_add by lia. exact Ha.
Qed.

Lemma walk_loop_stalled i current remaining :
  stalled (walk_loop shifts ranges i current remaining true) = true.
Proof.
  revert current remaining. induction i as [| i IH]; intros current remaining;
    cbn [walk_loop]; [reflexivity |].
  destruct (negb (remaining >? 0)); [reflexivity |].
  cbv zeta. destruct (_ <=? 0); [apply IH |].
  destruct (remaining <=? _); [reflexivity | apply IH].
Qed.

(** The walk accounts for every working minute between its start and its
    result: what it has not placed is reported in [unplaced]. *)
Lemma walk_loop_counts i current remaining :
  aligned current -> working shifts ranges current = true -> 0 <= remaining ->
  stalled (walk_loop shifts ranges i current remaining false) = false ->
  exists k : nat,
    walk_end (walk_loop shifts ranges i current remaining false)
    = current + Z.of_nat k * MS_PER_MINUTE
    /\ workingMinutes shifts ranges current k
       = remaining - unplaced (walk_loop shifts ranges i current remaining false)
    /\ 0 <= unplaced (walk_loop shifts ranges i current remaining false).
Proof.
  revert current remaining. induction i as [| i IH]; intros current remaining Hal Hw Hrem;
    cbn [walk_loop].
  - intros _. exists O. cbn. repeat split; lia.
  - destruct (Z.gtb_spec remaining 0) as [Hpos | Hzero]; cbn [negb].
    2:{ intros _. exists O. cbn. repeat split; lia. }
    cbv zeta.
    destruct (workingSegmentEnd_spec shifts ranges shifts_wf ranges_aligned current Hw)
      as (S1 & S2 & S3).
    set (segmentEnd := getWorkingSegmentEnd current shifts ranges) in *.
    destruct (aligned_distance current segmentEnd Hal S2 ltac:(lia)) as (q & Hq).
    assert (Hmin : diffMinutesFloor segmentEnd current = Z.of_nat q).
    { unfold diffMinutesFloor. rewrite Hq.
      replace (current + Z.of_nat q * MS_PER_MINUTE - current)
        with (Z.of_nat q * MS_PER_MINUTE) by lia.
      apply Z.div_mul. unfold MS_PER_MINUTE. lia. }
    assert (Hq1 : 1 <= Z.of_nat q) by (unfold MS_PER_MINUTE in Hq; lia).
    rewrite Hmin.
    destruct (Z.leb_spec (Z.of_nat q) 0) as [Hbad | _]; [lia |].
    destruct (Z.leb_spec remaining (Z.of_nat q)) as [Hfit | Hmore].
    + intros _. exists (Z.to_nat remaining). cbn [walk_end unplaced].
      rewrite Z2Nat.id by lia. unfold plusMinutes.
      split; [reflexivity |]. split; [| lia].
      rewrite workingMinutes_all; [rewrite Z2Nat.id by lia; lia |].
      intros t Ht. rewrite Z2Nat.id in Ht by lia. apply S3.
      unfold MS_PER_MINUTE in *. lia.
    + unfold getNextWorkingMoment_traced. cbn [orb].
      destruct (capped (nextWorkingMoment_loop shifts ranges MAX_ITER_WORKING_MOMENT
                          segmentEnd)) eqn:Ecap.
      { rewrite walk_loop_stalled. discriminate. }
      destruct (nextWorkingMoment_spec _ _ S2 Ecap) as (N1 & N2 & N3 & N4).
      set (next := value (nextWorkingMoment_loop shifts ranges MAX_ITER_WORKING_MOMENT
                            segmentEnd)) in *.
      intros Hst.
      destruct (IH next (remaining - Z.of_nat q) N2 N3 ltac:(lia) Hst)
        as (k & Hend & Hcount & Hleft).
      destruct (aligned_distance segmentEnd next S2 N2 N1) as (g & Hg).
      exists (q + (g + k))%nat. split; [| split; [| exact Hleft]].
      * rewrite Hend, Hg, Hq. rewrite !Nat2Z.inj_add. lia.
      * rewrite workingMinutes_app, workingMinutes_app.
        rewrite <- Hq, <- Hg, Hcount.
        rewrite workingMinutes_all.
        -- rewrite workingMinutes_none; [lia |].
           intros t Ht. apply N4. lia.
        -- intros t Ht. apply S3. lia.
Qed.
End WalkFacts.

Section DurationFacts.

Lemma calculate_counts shifts ranges start duration :
  Forall wellFormedShift shifts -> nonEmpty shifts = true ->
  Forall alignedRange ranges -> aligned start -> 0 <= duration ->
  let w := calculateEndDateWithShiftsAndMaintenance_traced start duration shifts ranges in
  stalled w = false ->
  exists k : nat,
    walk_end w = start + Z.of_nat k * MS_PER_MINUTE
    /\ workingMinutes shifts ranges start k = duration - unplaced w
    /\ 0 <= unplaced w.
Proof.
  intros Hwf Hne Hal Hstart Hdur.
  unfold calculateEndDateWithShiftsAndMaintenance_traced.
  destruct shifts as [| s0 rest] eqn:Es; [discriminate |]. rewrite <- Es in *.
  unfold getNextWorkingMoment_traced. cbv zeta.
  destruct (capped (nextWorkingMoment_loop shifts ranges MAX_ITER_WORKING_MOMENT start))
    eqn:Ecap.
  { rewrite walk_loop_stalled. discriminate. }
  destruct (nextWorkingMoment_spec shifts ranges Hwf Hne Hal _ _ Hstart Ecap)
    as (N1 & N2 & N3 & N4).
  set (first := value (nextWorkingMoment_loop shifts ranges MAX_ITER_WORKING_MOMENT start))
    in *.
  intros Hst.
  destruct (walk_loop_counts shifts ranges Hwf Hne Hal _ _ _ N2 N3 Hdur Hst)
    as (k & Hend & Hcount & Hleft).
  destruct (aligned_distance start first Hstart N2 N1) as (g & Hg).
  exists (g + k)%nat. split; [| split; [| exact Hleft]].
  - rewrite Hend, Hg, Nat2Z.inj_add. lia.
  - rewrite workingMinutes_app, <- Hg, Hcount.
    rewrite workingMinutes_none; [lia |]. intros t Ht. apply N4. lia.
Qed.

Lemma workingMinutesBetween_ticks shifts ranges start (k : nat) :
  workingMinutesBetween shifts ranges start (start + Z.of_nat k * MS_PER_MINUTE)
  = workingMinutes shifts ranges start k.
Proof.
  unfold workingMinutesBetween. f_equal.
  replace (start + Z.of_nat k * MS_PER_MINUTE - start) with (Z.of_nat k * MS_PER_MINUTE)
    by lia.
  rewrite Z.div_mul by (unfold MS_PER_MINUTE; lia). apply Nat2Z.id.
Qed.

(** Working minutes between the start and the end of a walk that no
    stabilisation loop stalled: the duration less what was left unplaced. *)
Lemma walk_working_minutes shifts ranges start duration :
  Forall wellFormedShift shifts -> nonEmpty shifts = true ->
  Forall alignedRange ranges -> aligned start -> 0 <= duration ->
  let w := calculateEndDateWithShiftsAndMaintenance_traced start duration shifts ranges in
  stalled w = false ->
  workingMinutesBetween shifts ranges start (walk_end w) = duration - unplaced w
  /\ 0 <= unplaced w.
Proof.
  intros Hwf Hne Hal Hstart Hdur w Hst.
  destruct (calculate_counts shifts ranges start duration Hwf Hne Hal Hstart Hdur Hst)
    as (k & Hend & Hcount & Hleft).
  fold w in Hend, Hcount, Hleft. rewrite Hend, workingMinutesBetween_ticks. auto.
Qed.

Lemma placeOrder_newSchedule byNumber centers st wo :
  newSchedule (placeOrder byNumber centers st wo)
  = JsMap.set (newSchedule st) (workOrderNumber wo)
      (mkSlot (candidateStartOf byNumber centers st wo)
         (calculateEndDateWithShiftsAndMaintenance (candidateStartOf byNumber centers st wo)
            (durationMinutes wo)
            (centerShifts (JsMap.get centers (workCenterId wo)))
            (rangesOf (centerWindows (JsMap.get centers (workCenterId wo)))))).
Proof.
  unfold placeOrder. cbv zeta.
  destruct (negb (candidateStartOf byNumber centers st wo =? startDate wo));
    destruct (negb (_ =? endDate wo)); reflexivity.
Qed.

Lemma place_walked byNumber centers queue st :
  (forall wo, In wo queue -> JsMap.get byNumber (workOrderNumber wo) = Some wo) ->
  Walked byNumber centers (newSchedule st) ->
  Walked byNumber centers (newSchedule (fold_left (placeOrder byNumber centers) queue st))
  /\ forall wo, In wo queue ->
       JsMap.get (newSchedule (fold_left (placeOrder byNumber centers) queue st))
         (workOrderNumber wo) <> None.
Proof.
  revert st. induction queue as [| wo queue IH]; intros st Hq Hw.
  - split; [exact Hw | intros ? []].
  - rewrite fold_left_step.
    pose proof (placeOrder_newSchedule byNumber centers st wo) as Hns.
    assert (Hw' : Walked byNumber centers (newSchedule (placeOrder byNumber centers st wo))).
    { rewrite Hns. intros id slot.
      destruct (string_dec (workOrderNumber wo) id) as [<- | Hne].
      - rewrite get_set_same. intros [= <-]. exists wo. split; [apply Hq; now left | auto].
      - rewrite get_set_other; auto. }
    destruct (IH _ (fun w Hin => Hq w (or_intror Hin)) Hw') as [IH1 IH2].
    split; [exact IH1 |]. intros w [<- | Hin]; [| now apply IH2].
    clear IH1 IH2.
    assert (Hset : JsMap.get (newSchedule (placeOrder byNumber centers st wo))
                     (workOrderNumber wo) <> None)
      by (rewrite Hns, get_set_same; discriminate).
    revert Hset. generalize (placeOrder byNumber centers st wo). clear.
    induction queue as [| x queue IH]; intros st' Hs; [exact Hs |].
    rewrite fold_left_step. apply IH.
    rewrite placeOrder_newSchedule.
    destruct (string_dec (workOrderNumber x) (workOrderNumber wo)) as [-> | Hne].
    + rewrite get_set_same. discriminate.
    + rewrite get_set_other; auto.
Qed.

Lemma indexByNumber_get_unique wos wo :
  NoDup (map workOrderNumber wos) -> In wo wos ->
  JsMap.get (indexByNumber wos) (workOrderNumber wo) = Some wo.
Proof.
  intros Hnd Hin.
  destruct (keys_get_Some (indexByNumber wos) (workOrderNumber wo)) as (w & Hw).
  { apply indexByNumber_keys. now apply in_map. }
  rewrite Hw. f_equal.
  apply indexByNumber_get_In in Hw as [Hw Hid].
  eapply NoDup_numbers_eq; eauto.
Qed.

Lemma nonMaintenanceOrders_complete byNumber ids wo :
  In (workOrderNumber wo) ids ->
  JsMap.get byNumber (workOrderNumber wo) = Some wo ->
  isMaintenance wo = false ->
  In wo (nonMaintenanceOrders byNumber ids).
Proof.
  intros Hid Hget Hm. unfold nonMaintenanceOrders. apply in_flat_map.
  exists (workOrderNumber wo). split; auto. rewrite Hget, Hm. now left.
Qed.

(** Each order the placer moved ends where the walk from its new start
    ends. *)
Lemma reflow_ends_walked fuel wos wcs res i wo wo' :
  reflow fuel wos wcs = Some (inr res) ->
  nth_error wos i = Some wo ->
  nth_error (updatedWorkOrders res) i = Some wo' ->
  isMaintenance wo = false ->
  endDate wo'
  = calculateEndDateWithShiftsAndMaintenance (startDate wo') (durationMinutes wo)
      (centerShifts (JsMap.get (indexCenters wcs) (workCenterId wo)))
      (rangesOf (centerWindows (JsMap.get (indexCenters wcs) (workCenterId wo)))).
Proof.
  unfold reflow. intros Hr Hi Hi' Hm.
  destruct (topologicalOrder wos) as [[e | ids] |] eqn:Hsort; try discriminate.
  destruct (Checker.validateSchedule fuel _ wcs) as [v |]; [| discriminate].
  destruct (valid v); simpl in Hr; [| discriminate].
  injection Hr as <-. cbn [updatedWorkOrders] in Hi'.
  rewrite (map_nth_error _ _ _ Hi) in Hi'. injection Hi' as <-.
  destruct (topologicalOrder_ok _ _ Hsort) as (_ & _ & Hids & Hnd).
  assert (Hin : In wo wos) by (eapply nth_error_In; eauto).
  pose proof (indexByNumber_get_unique wos wo Hnd Hin) as Hself.
  destruct (place_walked (indexByNumber wos) (indexCenters wcs)
              (nonMaintenanceOrders (indexByNumber wos) ids) initialPlacer)
    as [Hwalked Hcover].
  - intros w Hw. destruct (nonMaintenanceOrders_In _ _ _ Hw) as (_ & id & _ & Hget).
    pose proof (indexByNumber_get_In _ _ _ Hget) as [_ <-]. exact Hget.
  - intros id slot. discriminate.
  - fold (place wos wcs ids) in Hwalked, Hcover.
    specialize (Hcover wo).
    unfold updateOrder. rewrite Hm.
    destruct (JsMap.get (newSchedule (place wos wcs ids)) (workOrderNumber wo))
      as [slot |] eqn:Eslot.
    + destruct (Hwalked _ _ Eslot) as (w & Hw & Hend).
      rewrite Hself in Hw. injection Hw as <-. exact Hend.
    + exfalso. apply Hcover; auto.
      apply nonMaintenanceOrders_complete; auto.
      apply Hids. now apply in_map.
Qed.
End DurationFacts.

(** Duration is conserved whenever the walk hits no iteration bound.  For
    every order that [reflow] rescheduled, on a center with at least one
    shift whose shifts have hours within the day and whose maintenance
    windows begin and end on whole minutes: if the new start is on a whole
    minute, the duration is not negative and no iteration bound was hit
    during the walk, then the minute ticks from the new start up to the new
    end that lie inside a shift and outside every maintenance window number
    exactly [durationMinutes]. *)
Theorem duration_conserved_when_uncapped :
  forall fuel workOrders workCenters result i wo wo',
    reflow fuel workOrders workCenters = Some (inr result) ->
    nth_error workOrders i = Some wo ->
    nth_error (updatedWorkOrders result) i = Some wo' ->
    isMaintenance wo = false ->
    let wc := JsMap.get (indexCenters workCenters) (workCenterId wo) in
    let shifts' := centerShifts wc in
    let ranges := rangesOf (centerWindows wc) in
    nonEmpty shifts' = true ->
    Forall wellFormedShift shifts' ->
    Forall alignedRange ranges ->
    aligned (startDate wo') ->
    0 <= durationMinutes wo ->
    walkCapped (calculateEndDateWithShiftsAndMaintenance_traced (startDate wo')
                  (durationMinutes wo) shifts' ranges) = false ->
    workingMinutesBetween shifts' ranges (startDate wo') (endDate wo')
    = durationMinutes wo.
Proof.
  intros fuel wos wcs res i wo wo' Hr Hi Hi' Hm wc sh rg Hne Hwf Hal Hstart Hdur Hcap.
  rewrite (reflow_ends_walked fuel wos wcs res i wo wo' Hr Hi Hi' Hm).
  fold wc sh rg. unfold calculateEndDateWithShiftsAndMaintenance.
  unfold walkCapped in Hcap. apply orb_false_iff in Hcap as [Hst Hun].
  destruct (walk_working_minutes sh rg (startDate wo') (durationMinutes wo)
              Hwf Hne Hal Hstart Hdur Hst) as [Hcount Hleft].
  rewrite Hcount. rewrite Z.gtb_ltb in Hun. apply Z.ltb_ge in Hun. lia.
Qed.

(** C5 (the defect at its failing input).  The order of 5001 working hours
    on the center open one hour a week is returned by [reflow] with the end
    the walk reaches after 5000 segments, Monday 08:00 of the 5000th week
    after its start: the working minutes between its start and that end are
    one hour short of its duration.  The shift-only walk of the same order
    over the same shifts ends one hour later, at 09:00, and on the same
    center without its maintenance window, where the validator compares with
    the shift-only walk, [reflow] throws for the end it computed. *)
Theorem long_order_is_an_hour_short :
  returnsWithSlots (reflow 0 [Examples.longOrder] [Examples.cell])
    [(startDate Examples.longOrder, Examples.at_ (Examples.monday + 7 * 5000) 8 0)]
  /\ workingMinutesBetween (shifts Examples.cell)
       (rangesOf (maintenanceWindows Examples.cell))
       (startDate Examples.longOrder) (Examples.at_ (Examples.monday + 7 * 5000) 8 0)
     <> durationMinutes Examples.longOrder
  /\ calculateEndDateWithShifts (110 * 100) (startDate Examples.longOrder)
       (durationMinutes Examples.longOrder) (shifts Examples.cell)
     = Some (Examples.at_ (Examples.monday + 7 * 5000) 9 0)
  /\ reflow (110 * 100) [Examples.longOrder] [Cases.cellWithoutWindow]
     = Some (inl (InvalidSchedule
                    [EndMismatch "Long" (Examples.at_ (Examples.monday + 7 * 5000) 8 0)
                       (Examples.at_ (Examples.monday + 7 * 5000) 9 0)])).
Proof.
  split; [exact longOrder_reflow_returns |].
  split; [| split; vm_compute; reflexivity].
  assert (Hwf : Forall wellFormedShift (shifts Examples.cell))
    by (repeat constructor; simpl; lia).
  assert (Hal : Forall alignedRange (rangesOf (maintenanceWindows Examples.cell)))
    by (repeat constructor; reflexivity).
  assert (Hs : aligned (startDate Examples.longOrder)) by reflexivity.
  assert (Hd : 0 <= durationMinutes Examples.longOrder) by (simpl; lia).
  pose proof (walk_working_minutes (shifts Examples.cell)
                (rangesOf (maintenanceWindows Examples.cell))
                (startDate Examples.longOrder) (durationMinutes Examples.longOrder)
                Hwf eq_refl Hal Hs Hd) as H.
  cbv zeta in H. rewrite longOrder_walk in H.
  destruct (H eq_refl) as [Hcount _]. cbn [walk_end unplaced] in Hcount.
  rewrite Hcount. lia.
Qed.

Lemma duration_conserved_when_uncapped_witness :
  workingMinutesBetween (shifts Examples.line2)
    (rangesOf (maintenanceWindows Examples.line2))
    (Examples.at_ 4 16 0) (Examples.at_ 5 10 0) = 120.
Proof.
  eassert (E : reflow 100 [Examples.lateOrder] [Examples.line2] = Some (inr _))
    by (vm_compute; reflexivity).
  assert (Hwf : Forall wellFormedShift (shifts Examples.line2))
    by (repeat constructor; simpl; lia).
  assert (Hal : Forall alignedRange (rangesOf (maintenanceWindows Examples.line2)))
    by (repeat constructor; reflexivity).
  exact (duration_conserved_when_uncapped 100 [Examples.lateOrder] [Examples.line2] _
           0%nat Examples.lateOrder Examples.lateOrderPlaced E eq_refl eq_refl eq_refl
           eq_refl Hwf Hal eq_refl ltac:(simpl; lia) ltac:(vm_compute; reflexivity)).
Defined.

(** ** Kahn's algorithm: the emitted order *)

Section KahnOrderFacts.
Variable ch : JsMap.t (list string).
Variable nodes : list string.
Hypothesis nodes_NoDup : NoDup nodes.
Hypothesis children_known : forall n c, In c (childrenOf ch n) -> In c nodes.

Lemma pendingEdges_zero result c n :
  pendingEdges ch nodes result c = O ->
  In n nodes -> In c (childrenOf ch n) -> In n result.
Proof.
  unfold pendingEdges. clear nodes_NoDup children_known.
  induction nodes as [| m l IH]; intros Hsum Hn Hc; [destruct Hn |].
  simpl in Hsum. apply Nat.eq_add_0 in Hsum as [H0 Hrest].
  destruct Hn as [-> | Hn]; [| now apply IH].
  destruct (memString n result) eqn:E; [now apply memString_In |].
  apply occurrences_pos in Hc. lia.
Qed.

Lemma queued_parents_done result deg queue c n :
  VisitInv ch nodes result [] (deg, queue) ->
  In c (result ++ queue) -> In n nodes -> In c (childrenOf ch n) -> In n result.
Proof.
  intros (_ & _ & Hincl & Hdeg & Hzero) Hc Hn Hedge. cbn [fst snd] in *.
  assert (Hcn : In c nodes) by now apply Hincl.
  apply Hzero in Hc; auto. rewrite (Hdeg c Hcn) in Hc.
  apply (pendingEdges_zero result c n); auto.
  injection Hc as Hc. unfold occurrences in Hc. simpl in Hc. lia.
Qed.

Lemma Precedes_snoc a b l x : Precedes a b l -> Precedes a b (l ++ [x]).
Proof.
  intros (l1 & l2 & l3 & ->). exists l1, l2, (l3 ++ [x]).
  rewrite <- !app_assoc. simpl. rewrite <- app_assoc. reflexivity.
Qed.

Lemma Precedes_last a b l : In a l -> Precedes a b (l ++ [b]).
Proof.
  intros H. apply in_split in H as (l1 & l2 & ->). exists l1, l2, [].
  rewrite <- app_assoc. reflexivity.
Qed.

Lemma kahn_loop_ordered fuel queue result deg result' deg' :
  VisitInv ch nodes result [] (deg, queue) ->
  ParentsFirst ch nodes result ->
  kahn_loop ch fuel queue result deg = Some (result', deg') ->
  ParentsFirst ch nodes result'.
Proof.
  revert queue result deg.
  induction fuel as [| fuel IH]; intros queue result deg Hinv Hord; [discriminate |].
  simpl. destruct queue as [| n rest]; [intros [= <- <-]; exact Hord |].
  pose proof (dequeue_ok ch nodes nodes_NoDup _ _ _ _ Hinv) as Hv.
  apply visitChildren_ok in Hv; auto; [| apply children_known].
  fold (childrenOf ch n).
  destruct (fold_left visitChild (childrenOf ch n) (deg, rest)) as [deg1 queue1].
  apply IH; auto.
  intros c m Hc Hm Hedge. apply in_app_or in Hc as [Hc | [<- | []]].
  - apply Precedes_snoc. now apply Hord.
  - apply Precedes_last.
    apply (queued_parents_done result deg (n :: rest) n m); auto.
    apply in_or_app. right. now left.
Qed.
End KahnOrderFacts.

Section DependencyOrderFacts.

Lemma addEdge_keeps byNumber wo g depId n c :
  In c (childrenOf (children g) n) ->
  In c (childrenOf (children (addEdge byNumber wo g depId)) n).
Proof.
  intros H. unfold addEdge. destruct (negb _); auto. simpl.
  destruct (string_dec depId n) as [<- | Hne].
  - rewrite childrenOf_set_same. apply in_or_app. now left.
  - now rewrite childrenOf_set_other.
Qed.

Lemma addEdges_keep byNumber wo deps g n c :
  In c (childrenOf (children g) n) ->
  In c (childrenOf (children (fold_left (addEdge byNumber wo) deps g)) n).
Proof.
  revert g. induction deps as [| d deps IH]; intros g H; simpl; auto.
  apply IH. now apply addEdge_keeps.
Qed.

Lemma addEdges_record byNumber wo deps g dep :
  In dep deps -> JsMap.has byNumber dep = true ->
  In (workOrderNumber wo)
     (childrenOf (children (fold_left (addEdge byNumber wo) deps g)) dep).
Proof.
  revert g. induction deps as [| d deps IH]; intros g Hin Hhas; [destruct Hin |].
  simpl. destruct Hin as [<- | Hin].
  - apply addEdges_keep. unfold addEdge. rewrite Hhas. simpl.
    rewrite childrenOf_set_same. apply in_or_app. right. now left.
  - now apply IH.
Qed.

Lemma buildGraph_fold_keeps byNumber (l : list WorkOrder) g n c :
  In c (childrenOf (children g) n) ->
  In c (childrenOf
          (children
             (fold_left
                (fun g wo => fold_left (addEdge byNumber wo) (dependsOnWorkOrderIds wo) g)
                l g)) n).
Proof.
  revert g. induction l as [| w l IH]; intros g H; simpl; auto.
  apply IH. now apply addEdges_keep.
Qed.

Lemma buildGraph_fold_records byNumber (l : list WorkOrder) g wo dep :
  In wo l -> In dep (dependsOnWorkOrderIds wo) -> JsMap.has byNumber dep = true ->
  In (workOrderNumber wo)
     (childrenOf
        (children
           (fold_left
              (fun g wo => fold_left (addEdge byNumber wo) (dependsOnWorkOrderIds wo) g)
              l g)) dep).
Proof.
  revert g. induction l as [| w l IH]; intros g Hin Hdep Hhas; [destruct Hin |].
  simpl. destruct Hin as [<- | Hin].
  - apply buildGraph_fold_keeps. now apply addEdges_record.
  - now apply IH.
Qed.

Lemma buildGraph_records wos wo dep :
  In wo wos -> In dep (dependsOnWorkOrderIds wo) ->
  In dep (map workOrderNumber wos) ->
  In (workOrderNumber wo) (childrenOf (children (buildGraph wos)) dep).
Proof.
  intros Hwo Hdep Hknown. unfold buildGraph.
  apply buildGraph_fold_records; auto.
  apply has_keys. now apply indexByNumber_keys.
Qed.

Lemma kahn_ordered wos result deg :
  kahn wos = Some (result, deg) ->
  ParentsFirst (children (buildGraph wos)) (JsMap.keys (inDegree (buildGraph wos))) result.
Proof.
  destruct (buildGraph_ok wos) as ((K1 & K2 & Hdeg & Hch) & Hnd & Hk).
  unfold kahn. intros Hrun.
  eapply kahn_loop_ordered; eauto.
  - repeat split; simpl; auto.
    + now apply initialQueue_NoDup.
    + intros x Hx. eapply In_keys_of_filter; eauto.
    + intros c Hc. rewrite (Hdeg c Hc). do 2 f_equal. unfold occurrences. simpl. lia.
    + now apply initialQueue_In.
    + now apply initialQueue_In.
  - intros c n [].
Qed.

Lemma kahn_dependency_first wos result deg wo dep :
  kahn wos = Some (result, deg) ->
  In wo wos -> In dep (dependsOnWorkOrderIds wo) -> In dep (map workOrderNumber wos) ->
  In (workOrderNumber wo) result ->
  Precedes dep (workOrderNumber wo) result.
Proof.
  intros Hk Hwo Hdep Hknown Hin.
  destruct (buildGraph_ok wos) as (_ & _ & Hnodes).
  apply (kahn_ordered wos result deg Hk); auto.
  - now apply Hnodes.
  - now apply buildGraph_records.
Qed.

Lemma Precedes_self_dup a l : Precedes a a l -> ~ NoDup l.
Proof.
  intros (l1 & l2 & l3 & ->) Hnd.
  apply NoDup_remove_2 in Hnd. apply Hnd.
  apply in_or_app. right. apply in_or_app. right. now left.
Qed.
End DependencyOrderFacts.

(** X1 (dependencies first).  In the order returned by [topologicalOrder], the
    id of every dependency of an order that is itself an id of the input
    stands before the id of that order. *)
Theorem dependencies_are_ordered_first :
  forall workOrders ids wo dep,
    topologicalOrder workOrders = Some (inr ids) ->
    In wo workOrders -> In dep (dependsOnWorkOrderIds wo) ->
    In dep (map workOrderNumber workOrders) ->
    Precedes dep (workOrderNumber wo) ids.
Proof.
  intros wos ids wo dep Htopo Hwo Hdep Hknown.
  destruct (topologicalOrder_ok wos ids Htopo) as (_ & _ & Hids & _).
  unfold topologicalOrder in Htopo.
  destruct (kahn wos) as [[result deg] |] eqn:Hk; [| discriminate].
  destruct (negb _); [discriminate |]. injection Htopo as ->.
  apply (kahn_dependency_first wos ids deg wo dep); auto.
  apply Hids. now apply in_map.
Qed.

Lemma dependencies_are_ordered_first_witness :
  Precedes "A" "B" ["A"; "B"; "C"]%string.
Proof.
  apply (dependencies_are_ordered_first Examples.cascade ["A"; "B"; "C"]%string
           Examples.orderB "A"%string).
  - vm_compute. reflexivity.
  - simpl. auto.
  - simpl. auto.
  - simpl. auto.
Defined.

(** X2 (self-dependency).  An order that lists its own id among its
    dependencies makes [reflow] fail with the circular-dependency error, and
    the error names that order. *)
Theorem self_dependency_is_a_cycle :
  forall fuel workOrders workCenters wo,
    In wo workOrders -> In (workOrderNumber wo) (dependsOnWorkOrderIds wo) ->
    exists named,
      reflow fuel workOrders workCenters = Some (inl (CircularDependency named))
      /\ In (workOrderNumber wo) named.
Proof.
  intros fuel wos wcs wo Hwo Hself.
  destruct (kahn_total wos) as (result & deg & Hk & Hnd & Hincl & _).
  assert (Hid : In (workOrderNumber wo) (map workOrderNumber wos)) by now apply in_map.
  assert (Hout : ~ In (workOrderNumber wo) result).
  { intros Hin. apply (Precedes_self_dup (workOrderNumber wo) result); auto.
    apply (kahn_dependency_first wos result deg wo); auto. }
  assert (Hlen : List.length result <> List.length wos).
  { intros E. apply Hout.
    assert (Hle : (List.length (map workOrderNumber wos) <= List.length result)%nat)
      by (rewrite length_map; lia).
    exact (NoDup_length_incl Hnd Hle Hincl _ Hid). }
  exists (filter (fun id => negb (memString id result)) (map workOrderNumber wos)).
  split.
  - unfold reflow, topologicalOrder. rewrite Hk.
    apply Nat.eqb_neq in Hlen. rewrite Hlen. reflexivity.
  - apply filter_In. split; auto.
    apply negb_true_iff. now apply memString_false.
Qed.

Lemma self_dependency_is_a_cycle_witness :
  exists named,
    reflow 0 [Cases.selfOrder] [Examples.line1] = Some (inl (CircularDependency named))
    /\ In "S"%string named.
Proof.
  apply (self_dependency_is_a_cycle 0 [Cases.selfOrder] [Examples.line1] Cases.selfOrder).
  - simpl. auto.
  - simpl. auto.
Defined.

(** ** Orders that do not depend on each other *)

Section InputOrderFacts.

Lemma set_fresh {V : Type} (m : JsMap.t V) k v :
  ~ In k (JsMap.keys m) -> JsMap.set m k v = m ++ [(k, v)].
Proof.
  induction m as [| [k' v'] m IH]; simpl; intros Hout; auto.
  destruct (String.eqb k' k) eqn:E.
  - apply String.eqb_eq in E. exfalso. auto.
  - rewrite IH; auto.
Qed.

Lemma initGraph_fresh (l : list WorkOrder) (g : Graph) :
  JsMap.keys (inDegree g) = JsMap.keys (children g) ->
  NoDup (JsMap.keys (inDegree g) ++ map workOrderNumber l) ->
  fold_left
    (fun g wo =>
       mkGraph (JsMap.set (inDegree g) (workOrderNumber wo) 0)
               (JsMap.set (children g) (workOrderNumber wo) []))
    l g
  = mkGraph (inDegree g ++ map (fun wo => (workOrderNumber wo, 0)) l)
            (children g ++ map (fun wo => (workOrderNumber wo, [])) l).
Proof.
  revert g. induction l as [| wo l IH]; intros [deg ch] Hk Hnd; simpl in *.
  - now rewrite !app_nil_r.
  - assert (Hout : ~ In (workOrderNumber wo) (JsMap.keys deg)).
    { apply NoDup_remove_2 in Hnd. intros H. apply Hnd. apply in_or_app. now left. }
    rewrite IH; simpl.
    + rewrite !set_fresh; auto; [| now rewrite <- Hk].
      rewrite <- !app_assoc. reflexivity.
    + rewrite !set_fresh; auto; [| now rewrite <- Hk].
      unfold JsMap.keys in *. rewrite !map_app, Hk. reflexivity.
    + rewrite set_fresh; auto. unfold JsMap.keys in *.
      rewrite map_app, <- app_assoc. exact Hnd.
Qed.

Lemma initGraph_distinct wos :
  NoDup (map workOrderNumber wos) ->
  initGraph wos
  = mkGraph (map (fun wo => (workOrderNumber wo, 0)) wos)
            (map (fun wo => (workOrderNumber wo, [])) wos).
Proof.
  intros Hnd. unfold initGraph. now rewrite initGraph_fresh.
Qed.

Lemma addEdges_unknown byNumber wo deps g :
  (forall dep, In dep deps -> JsMap.has byNumber dep = false) ->
  fold_left (addEdge byNumber wo) deps g = g.
Proof.
  revert g. induction deps as [| d deps IH]; intros g H; simpl; auto.
  unfold addEdge at 2. rewrite (H d); [| now left]. simpl.
  apply IH. intros dep Hdep. apply H. now right.
Qed.

Lemma buildGraph_fold_unknown byNumber (l : list WorkOrder) g :
  (forall wo dep, In wo l -> In dep (dependsOnWorkOrderIds wo) ->
     JsMap.has byNumber dep = false) ->
  fold_left (fun g wo => fold_left (addEdge byNumber wo) (dependsOnWorkOrderIds wo) g) l g
  = g.
Proof.
  revert g. induction l as [| wo l IH]; intros g H; simpl; auto.
  rewrite addEdges_unknown.
  - apply IH. intros w dep Hw. apply H. now right.
  - intros dep Hdep. apply (H wo); auto. now left.
Qed.

Lemma buildGraph_independent wos :
  independentOrders wos -> buildGraph wos = initGraph wos.
Proof.
  intros Hind. unfold buildGraph. apply buildGraph_fold_unknown.
  intros wo dep Hwo Hdep.
  destruct (JsMap.has (indexByNumber wos) dep) eqn:E; auto.
  apply has_keys, indexByNumber_keys in E. exfalso. exact (Hind wo dep Hwo Hdep E).
Qed.

Lemma initialQueue_zeros (l : list WorkOrder) :
  initialQueue (map (fun wo => (workOrderNumber wo, 0)) l) = map workOrderNumber l.
Proof.
  unfold initialQueue. induction l as [| wo l IH]; simpl; auto. now rewrite IH.
Qed.

Lemma childless_get (l : list WorkOrder) n :
  orDefault (JsMap.get (map (fun wo => (workOrderNumber wo, @nil string)) l) n) [] = [].
Proof.
  induction l as [| wo l IH]; simpl; auto.
  destruct (String.eqb (workOrderNumber wo) n); auto.
Qed.

Lemma kahn_loop_childless (l : list WorkOrder) queue result deg :
  kahn_loop (map (fun wo => (workOrderNumber wo, [])) l) (S (List.length queue)) queue
    result deg
  = Some (result ++ queue, deg).
Proof.
  revert result. induction queue as [| n rest IH]; intros result.
  - simpl. now rewrite app_nil_r.
  - cbn [List.length]. remember (S (List.length rest)) as fuel. cbn [kahn_loop].
    rewrite childless_get. cbn [fold_left]. subst fuel. rewrite IH.
    rewrite <- app_assoc. reflexivity.
Qed.
End InputOrderFacts.

(** X3 (input order).  When the ids are pairwise distinct and no order
    depends on an id of the input, [topologicalOrder] returns the ids in
    input order. *)
Theorem independent_orders_keep_input_order :
  forall workOrders,
    NoDup (map workOrderNumber workOrders) ->
    independentOrders workOrders ->
    topologicalOrder workOrders = Some (inr (map workOrderNumber workOrders)).
Proof.
  intros wos Hnd Hind. unfold topologicalOrder, kahn.
  rewrite (buildGraph_independent wos Hind), (initGraph_distinct wos Hnd).
  cbn [children inDegree]. rewrite initialQueue_zeros.
  rewrite <- (length_map workOrderNumber wos) at 1.
  rewrite kahn_loop_childless. cbn [app].
  rewrite length_map, Nat.eqb_refl. reflexivity.
Qed.

Lemma independent_orders_keep_input_order_witness :
  topologicalOrder [Examples.lateFirst; Examples.earlySecond]
  = Some (inr ["X"; "Y"]%string).
Proof.
  apply (independent_orders_keep_input_order [Examples.lateFirst; Examples.earlySecond]).
  - simpl. constructor; [intros [H | []]; discriminate |].
    constructor; [intros [] | constructor].
  - intros wo dep [<- | [<- | []]] Hdep; destruct Hdep.
Defined.

(** X4 (duplicate ids).  When two orders carry the same id, [reflow] fails
    with the circular-dependency error, whether or not the dependencies form
    a cycle. *)
Theorem duplicate_ids_are_rejected :
  forall fuel workOrders workCenters,
    ~ NoDup (map workOrderNumber workOrders) ->
    exists named,
      reflow fuel workOrders workCenters = Some (inl (CircularDependency named)).
Proof.
  intros fuel wos wcs Hdup. unfold reflow.
  destruct (topologicalOrder wos) as [[e | ids] |] eqn:Htopo.
  - destruct (topologicalOrder_error wos e Htopo) as (named & ->). eauto.
  - exfalso. apply Hdup. now apply (topologicalOrder_ok wos ids).
  - exfalso. now apply (topologicalOrder_total wos).
Qed.

Lemma duplicate_ids_are_rejected_witness :
  exists named,
    reflow 0 [Examples.orderA; Examples.orderA] [Examples.line1]
    = Some (inl (CircularDependency named)).
Proof.
  apply (duplicate_ids_are_rejected 0 [Examples.orderA; Examples.orderA] [Examples.line1]).
  simpl. intros H. inversion H as [| ? ? Hout _]. apply Hout. now left.
Defined.

(** ** What validation tells of a returned schedule *)

Section ReturnedScheduleFacts.

Lemma reflow_validated fuel wos wcs res :
  reflow fuel wos wcs = Some (inr res) ->
  CheckerCommon.checkWorkCenterConflicts (updatedWorkOrders res) [] = []
  /\ CheckerCommon.checkDependencies (updatedWorkOrders res) [] = []
  /\ Checker.checkShifts fuel (updatedWorkOrders res) wcs [] = Some [].
Proof.
  intros Hr. destruct (reflow_inv fuel wos wcs res Hr) as (ids & _ & _ & _ & Hval).
  destruct (Checker_validate_valid _ _ _ _ Hval eq_refl) as (_ & H1 & H2 & H3). auto.
Qed.

Lemma Checker_checkShifts_clean fuel l wcs wo :
  Checker.checkShifts fuel l wcs [] = Some [] -> In wo l ->
  Checker.checkShiftsOf fuel wcs wo [] = Some [].
Proof.
  induction l as [| w l IH]; intros Hrun Hin; [destruct Hin |].
  simpl in Hrun.
  destruct (Checker.checkShiftsOf fuel wcs w []) as [errs |] eqn:E; [| discriminate].
  assert (errs = []) as ->.
  { apply Appends_nil. eapply Checker_checkShifts_Appends; eauto. }
  destruct Hin as [<- | Hin]; auto.
Qed.

Lemma Checker_checkShiftsOf_clean fuel wcs wo wc :
  Checker.checkShiftsOf fuel wcs wo [] = Some [] ->
  CheckerCommon.findCenter wcs (workCenterId wo) = Some wc ->
  shifts wc <> [] ->
  isWithinShift (startDate wo) (shifts wc) = true
  /\ exists computedEnd,
       (if nonEmpty (rangesOf (maintenanceWindows wc))
        then Some (calculateEndDateWithShiftsAndMaintenance (startDate wo)
                     (durationMinutes wo) (shifts wc) (rangesOf (maintenanceWindows wc)))
        else calculateEndDateWithShifts fuel (startDate wo) (durationMinutes wo) (shifts wc))
       = Some computedEnd
       /\ Z.abs (computedEnd - endDate wo) <= END_TOLERANCE_MS.
Proof.
  unfold Checker.checkShiftsOf. intros Hrun Hwc Hne. rewrite Hwc in Hrun.
  destruct (shifts wc) as [| s ss] eqn:Es; [contradiction |].
  destruct (if nonEmpty (rangesOf (maintenanceWindows wc)) then _ else _)
    as [computedEnd |] eqn:Ec; [| discriminate].
  destruct (isWithinShift (startDate wo) (s :: ss)) eqn:Ew; cbn [negb] in Hrun.
  - split; auto. exists computedEnd. split; auto.
    destruct (Z.abs (computedEnd - endDate wo) >? END_TOLERANCE_MS) eqn:Ed.
    + injection Hrun as Hrun. discriminate.
    + lia.
  - exfalso. destruct (Z.abs (computedEnd - endDate wo) >? END_TOLERANCE_MS);
      injection Hrun as Hrun; discriminate.
Qed.
End ReturnedScheduleFacts.

(** X6 (dependency order of the result).  In every result of [reflow], each
    dependency id of each returned order is the id of a returned order that
    ends no later than the dependent starts. *)
Theorem returned_schedule_respects_dependencies :
  forall fuel workOrders workCenters result wo dep,
    reflow fuel workOrders workCenters = Some (inr result) ->
    In wo (updatedWorkOrders result) -> In dep (dependsOnWorkOrderIds wo) ->
    exists parent,
      In parent (updatedWorkOrders result)
      /\ workOrderNumber parent = dep
      /\ endDate parent <= startDate wo.
Proof.
  intros fuel wos wcs res wo dep Hr Hwo Hdep.
  destruct (reflow_validated fuel wos wcs res Hr) as (_ & Hdeps & _).
  destruct (JsMap.get (indexByNumber (updatedWorkOrders res)) dep) as [parent |] eqn:E.
  - exists parent. destruct (indexByNumber_get_In _ _ _ E) as [Hin Hid].
    repeat split; auto.
    now apply (checkDependencies_clean (updatedWorkOrders res) wo dep parent).
  - exfalso.
    pose proof (checkDependencies_fold_reports (indexByNumber (updatedWorkOrders res))
                  (updatedWorkOrders res) [] wo dep Hwo Hdep E) as Hrep.
    unfold CheckerCommon.checkDependencies in Hdeps.
    change (CheckerCommon.indexByNumber (updatedWorkOrders res))
      with (indexByNumber (updatedWorkOrders res)) in Hdeps.
    rewrite Hdeps in Hrep. destruct Hrep.
Qed.

Lemma returned_schedule_respects_dependencies_witness :
  exists parent,
    In parent (updatedWorkOrders Cases.cascadeResult)
    /\ workOrderNumber parent = "A"%string
    /\ endDate parent <= startDate Cases.placedB.
Proof.
  apply (returned_schedule_respects_dependencies 100 Examples.cascade [Examples.line1]
           Cases.cascadeResult Cases.placedB "A"%string).
  - vm_compute. reflexivity.
  - simpl. auto.
  - simpl. auto.
Defined.

(** X7 (shift conformance of the result).  In every result of [reflow], an
    order whose center (the first of that name) has shifts starts inside a
    shift, and the end the validator computes from that start differs from the
    stored end by at most one minute. *)
Theorem returned_schedule_conforms_to_shifts :
  forall fuel workOrders workCenters result wo wc,
    reflow fuel workOrders workCenters = Some (inr result) ->
    In wo (updatedWorkOrders result) ->
    CheckerCommon.findCenter workCenters (workCenterId wo) = Some wc ->
    shifts wc <> [] ->
    isWithinShift (startDate wo) (shifts wc) = true
    /\ exists computedEnd,
         (if nonEmpty (rangesOf (maintenanceWindows wc))
          then Some (calculateEndDateWithShiftsAndMaintenance (startDate wo)
                       (durationMinutes wo) (shifts wc) (rangesOf (maintenanceWindows wc)))
          else calculateEndDateWithShifts fuel (startDate wo) (durationMinutes wo)
                 (shifts wc))
         = Some computedEnd
         /\ Z.abs (computedEnd - endDate wo) <= END_TOLERANCE_MS.
Proof.
  intros fuel wos wcs res wo wc Hr Hwo Hwc Hne.
  destruct (reflow_validated fuel wos wcs res Hr) as (_ & _ & Hshifts).
  apply (Checker_checkShiftsOf_clean fuel wcs wo wc); auto.
  now apply (Checker_checkShifts_clean fuel (updatedWorkOrders res) wcs).
Qed.

Lemma returned_schedule_conforms_to_shifts_witness :
  isWithinShift (startDate Cases.placedB) (shifts Examples.line1) = true.
Proof.
  apply (returned_schedule_conforms_to_shifts 100 Examples.cascade [Examples.line1]
           Cases.cascadeResult Cases.placedB Examples.line1).
  - vm_compute. reflexivity.
  - simpl. auto.
  - reflexivity.
  - discriminate.
Defined.

(** ** Proper shifts *)

Section ProperShiftFacts.

Lemma properShift_wellFormed shifts :
  Forall properShift shifts -> Forall wellFormedShift shifts.
Proof.
  apply Forall_impl. intros s (_ & H1 & H2). unfold wellFormedShift. lia.
Qed.

Lemma scanDays_origin_onDay dt shifts offsets best b :
  nextShiftStart_scanDays dt shifts offsets best = Some b ->
  best = Some b
  \/ (dt <= b /\ exists d s, In d offsets /\ In s shifts /\ onDay dt d s
                             /\ b = candidateStart dt d s).
Proof.
  revert best. induction offsets as [| d offsets IH]; intros best H; simpl in H; auto.
  apply IH in H as [H | (Hge & d' & s & Hd & Hs & Hon & Hb)].
  - apply scanShifts_origin in H as [H | (Hge & s & Hs & Hdow & Hb)]; auto.
    right. split; auto. exists d, s. repeat split; auto. now left.
  - right. split; auto. exists d', s. repeat split; auto. now right.
Qed.

Lemma getNextShiftStart_ge dt shifts : dt <= getNextShiftStart dt shifts.
Proof.
  unfold getNextShiftStart. destruct shifts as [| s0 l]; [lia |].
  destruct (nextShiftStart_scanDays dt (s0 :: l) dayOffsets None) as [b |] eqn:E; [| lia].
  apply scanDays_origin in E as [E | [Hge _]]; [discriminate | exact Hge].
Qed.

Lemma candidateStart_in_shift dt d s :
  properShift s -> onDay dt d s -> isInShift (candidateStart dt d s) s = true.
Proof.
  intros (Hdow & Hh & He) Hon. apply isInShift_spec.
  unfold candidateStart, onDay in *.
  set (day := plusDays dt d) in *.
  assert (Hin : startOfDay day <= setHour (startOfDay day) (startHour s)
                < startOfDay day + MS_PER_DAY).
  { unfold setHour, MS_PER_HOUR, MS_PER_DAY. lia. }
  destruct (same_day _ _ Hin) as [Hsod Hwd].
  rewrite Hwd. split; auto. split.
  - apply hour_ge. rewrite Hsod. lia.
  - apply hour_lt. rewrite Hsod. unfold setHour, MS_PER_HOUR. lia.
Qed.

Lemma day_of_week_reachable q dow :
  0 <= dow <= 6 ->
  exists d, 1 <= d <= 7 /\ dow = toPlanDayOfWeek ((q + d + 3) mod 7 + 1).
Proof.
  intros Hdow.
  assert (Hr : 0 <= (q + 3) mod 7 < 7) by (apply Z.mod_pos_bound; lia).
  assert (E : forall d, (q + d + 3) mod 7 = ((q + 3) mod 7 + d) mod 7).
  { intros d. rewrite Zplus_mod_idemp_l. f_equal. lia. }
  remember ((q + 3) mod 7) as r eqn:Er. clear Er.
  assert (Hcases : r = 0 \/ r = 1 \/ r = 2 \/ r = 3 \/ r = 4 \/ r = 5 \/ r = 6) by lia.
  assert (Hdays : dow = 0 \/ dow = 1 \/ dow = 2 \/ dow = 3 \/ dow = 4 \/ dow = 5 \/ dow = 6)
    by lia.
  clear Hr Hdow.
  repeat (destruct Hcases as [-> | Hcases]); try subst r;
    repeat (destruct Hdays as [-> | Hdays]); try subst dow;
    first [ exists 1; rewrite E; split; [lia | reflexivity]
          | exists 2; rewrite E; split; [lia | reflexivity]
          | exists 3; rewrite E; split; [lia | reflexivity]
          | exists 4; rewrite E; split; [lia | reflexivity]
          | exists 5; rewrite E; split; [lia | reflexivity]
          | exists 6; rewrite E; split; [lia | reflexivity]
          | exists 7; rewrite E; split; [lia | reflexivity] ].
Qed.

Lemma nextShiftStart_found dt shifts :
  shifts <> [] -> Forall properShift shifts ->
  exists d s,
    In d dayOffsets /\ In s shifts /\ onDay dt d s
    /\ getNextShiftStart dt shifts = candidateStart dt d s.
Proof.
  intros Hne Hproper. unfold getNextShiftStart.
  destruct shifts as [| s0 l]; [contradiction |].
  assert (Hs0 : properShift s0) by now inversion Hproper.
  destruct Hs0 as (Hdow & Hh & He).
  destruct (day_of_week_reachable (dt / MS_PER_DAY) (dayOfWeek s0) Hdow) as (d & Hd & Hday).
  assert (Hon : onDay dt d s0).
  { unfold onDay. now rewrite weekday_plusDays. }
  assert (Hge : dt <= candidateStart dt d s0).
  { unfold candidateStart. rewrite startOfDay_plusDays.
    pose proof (startOfDay_bounds dt). unfold setHour, MS_PER_HOUR, MS_PER_DAY in *. nia. }
  destruct (scanDays_upper dt (s0 :: l) dayOffsets None) as [_ Hup].
  destruct (Hup d s0) as (b & Hb & _); auto.
  { apply dayOffsets_In. lia. }
  { now left. }
  rewrite Hb.
  apply scanDays_origin_onDay in Hb as [Hb | (_ & d' & s & Hd' & Hs & Hon' & Hb)];
    [discriminate |].
  exists d', s. auto.
Qed.

Lemma nextShiftStart_lands dt shifts :
  shifts <> [] -> Forall properShift shifts ->
  isWithinShift (getNextShiftStart dt shifts) shifts = true
  /\ aligned (getNextShiftStart dt shifts).
Proof.
  intros Hne Hproper.
  destruct (nextShiftStart_found dt shifts Hne Hproper) as (d & s & _ & Hs & Hon & ->).
  split.
  - apply isWithinShift_spec. exists s. split; auto.
    apply candidateStart_in_shift; auto.
    rewrite Forall_forall in Hproper. now apply Hproper.
  - unfold candidateStart. apply startOfDay_aligned.
Qed.
End ProperShiftFacts.

(** ** The next shift start and the next available start *)

(** X14 (next shift start).  For a non-empty list of proper shifts,
    [getNextShiftStart] returns an instant at or after its argument that lies
    inside a shift, and when the argument is outside every shift no instant
    in between is inside one. *)
Theorem next_shift_start_is_the_first_shift_instant :
  forall dt shifts,
    shifts <> [] -> Forall properShift shifts ->
    let b := getNextShiftStart dt shifts in
    dt <= b
    /\ isWithinShift b shifts = true
    /\ (isWithinShift dt shifts = false ->
        forall t, dt <= t < b -> isWithinShift t shifts = false).
Proof.
  intros dt shifts Hne Hproper b. split; [apply getNextShiftStart_ge |]. split.
  - now apply nextShiftStart_lands.
  - intros Hout. apply nextShiftStart_spec; auto. now apply properShift_wellFormed.
Qed.

Lemma next_shift_start_is_the_first_shift_instant_witness :
  Examples.at_ Examples.monday 18 0
  <= getNextShiftStart (Examples.at_ Examples.monday 18 0) Examples.weekShifts
  /\ isWithinShift
       (getNextShiftStart (Examples.at_ Examples.monday 18 0) Examples.weekShifts)
       Examples.weekShifts = true.
Proof.
  destruct (next_shift_start_is_the_first_shift_instant
              (Examples.at_ Examples.monday 18 0) Examples.weekShifts
              ltac:(discriminate) ltac:(calendar_facts)) as (H1 & H2 & _).
  split; [exact H1 | exact H2].
Defined.

Section AvailableStartFacts.
Variable shifts : list Shift.
Variable windows : list MaintenanceWindow.

Lemma snapToShift_ge current : current <= snapToShift current shifts.
Proof.
  unfold snapToShift. destruct (_ && _); [apply getNextShiftStart_ge | lia].
Qed.

Lemma skipFirstWindow_ge current l : current <= skipFirstWindow current shifts l.
Proof.
  induction l as [| w l IH]; simpl; [lia |].
  destruct (windowContains current w) eqn:E; auto.
  unfold windowContains in E. apply andb_true_iff in E as [_ E].
  pose proof (snapToShift_ge (mw_endDate w)). lia.
Qed.

Lemma nextAvailableStart_loop_ge i current :
  current <= value (nextAvailableStart_loop shifts windows i current).
Proof.
  revert current. induction i as [| i IH]; intros current; simpl; [lia |].
  destruct (isInMaintenance current windows); simpl; [| lia].
  pose proof (skipFirstWindow_ge current windows).
  pose proof (IH (skipFirstWindow current shifts windows)). lia.
Qed.

Lemma nextAvailableStart_loop_clear i current :
  capped (nextAvailableStart_loop shifts windows i current) = false ->
  isInMaintenance (value (nextAvailableStart_loop shifts windows i current)) windows = false.
Proof.
  revert current. induction i as [| i IH]; intros current; simpl; auto.
  destruct (isInMaintenance current windows) eqn:E; simpl; auto.
Qed.

Lemma getNextAvailableStart_ge dt : dt <= getNextAvailableStart dt shifts windows.
Proof.
  unfold getNextAvailableStart, getNextAvailableStart_traced.
  pose proof (snapToShift_ge dt).
  pose proof (nextAvailableStart_loop_ge MAX_MAINTENANCE_ITERATIONS (snapToShift dt shifts)).
  lia.
Qed.

Lemma snapToShift_in_shift current :
  Forall properShift shifts -> shifts <> [] ->
  isWithinShift (snapToShift current shifts) shifts = true.
Proof.
  intros Hproper Hne. unfold snapToShift.
  destruct shifts as [| s0 l] eqn:Es; [contradiction |]. cbn [nonEmpty andb].
  destruct (isWithinShift current (s0 :: l)) eqn:E; cbn [negb]; auto.
  now apply nextShiftStart_lands.
Qed.

Lemma skipFirstWindow_in_shift current l :
  Forall properShift shifts -> shifts <> [] ->
  isWithinShift current shifts = true ->
  isWithinShift (skipFirstWindow current shifts l) shifts = true.
Proof.
  intros Hproper Hne Hin. induction l as [| w l IH]; simpl; auto.
  destruct (windowContains current w); auto. now apply snapToShift_in_shift.
Qed.

Lemma nextAvailableStart_loop_in_shift i current :
  Forall properShift shifts -> shifts <> [] ->
  isWithinShift current shifts = true ->
  isWithinShift (value (nextAvailableStart_loop shifts windows i current)) shifts = true.
Proof.
  intros Hproper Hne. revert current. induction i as [| i IH]; intros current Hin; simpl; auto.
  destruct (isInMaintenance current windows); simpl; auto.
  apply IH. now apply skipFirstWindow_in_shift.
Qed.
End AvailableStartFacts.

(** X12 (next available start).  [getNextAvailableStart] never returns an
    instant before its argument; when its loop ends below the cap the result
    is outside every maintenance window; with proper shifts the result is
    inside a shift; and an instant that is in a shift (or has no shifts to
    respect) and outside maintenance is returned unchanged. *)
Theorem next_available_start_is_available :
  forall dt shifts windows,
    let start := getNextAvailableStart dt shifts windows in
    dt <= start
    /\ (capped (getNextAvailableStart_traced dt shifts windows) = false ->
        isInMaintenance start windows = false)
    /\ (shifts <> [] -> Forall properShift shifts -> isWithinShift start shifts = true)
    /\ ((shifts = [] \/ isWithinShift dt shifts = true) ->
        isInMaintenance dt windows = false -> start = dt).
Proof.
  intros dt shifts windows start. split; [apply getNextAvailableStart_ge |].
  split; [| split].
  - unfold start, getNextAvailableStart, getNextAvailableStart_traced.
    apply nextAvailableStart_loop_clear.
  - intros Hne Hproper. unfold start, getNextAvailableStart, getNextAvailableStart_traced.
    apply nextAvailableStart_loop_in_shift; auto.
    now apply snapToShift_in_shift.
  - intros Hshift Hclear. unfold start, getNextAvailableStart, getNextAvailableStart_traced.
    assert (Hsnap : snapToShift dt shifts = dt).
    { unfold snapToShift. destruct Hshift as [-> | ->]; auto.
      now rewrite andb_false_r. }
    rewrite Hsnap. change MAX_MAINTENANCE_ITERATIONS with (S 499).
    cbn [nextAvailableStart_loop]. now rewrite Hclear.
Qed.

Lemma next_available_start_is_available_witness :
  getNextAvailableStart (Examples.at_ Examples.monday 9 0) Examples.weekShifts []
  = Examples.at_ Examples.monday 9 0.
Proof.
  destruct (next_available_start_is_available (Examples.at_ Examples.monday 9 0)
              Examples.weekShifts []) as (_ & _ & _ & H).
  apply H; [right |]; reflexivity.
Defined.

(** ** Slots computed by the placer *)

Section PlacedSlotFacts.

Lemma place_slot_origin byNumber centers queue st id slot :
  (forall wo, In wo queue -> JsMap.get byNumber (workOrderNumber wo) = Some wo) ->
  JsMap.get (newSchedule (fold_left (placeOrder byNumber centers) queue st)) id = Some slot ->
  JsMap.get (newSchedule st) id = Some slot
  \/ exists wo st',
       JsMap.get byNumber id = Some wo /\ slot = slotOf byNumber centers st' wo.
Proof.
  revert st. induction queue as [| wo queue IH]; intros st Hq Hget; [now left |].
  rewrite fold_left_step in Hget.
  apply IH in Hget as [Hget | Hget]; auto.
  - rewrite placeOrder_newSchedule in Hget.
    destruct (string_dec (workOrderNumber wo) id) as [<- | Hne].
    + rewrite get_set_same in Hget. injection Hget as <-.
      right. exists wo, st. split; [apply Hq; now left | reflexivity].
    + rewrite get_set_other in Hget; auto.
  - intros w Hw. apply Hq. now right.
Qed.

(** A rescheduled order occupies the slot the placer computed for it in
    some state of the loop. *)
Lemma reflow_placed fuel wos wcs res i wo wo' :
  reflow fuel wos wcs = Some (inr res) ->
  nth_error wos i = Some wo ->
  nth_error (updatedWorkOrders res) i = Some wo' ->
  isMaintenance wo = false ->
  exists st,
    startDate wo' = slot_start (slotOf (indexByNumber wos) (indexCenters wcs) st wo)
    /\ endDate wo' = slot_end (slotOf (indexByNumber wos) (indexCenters wcs) st wo).
Proof.
  unfold reflow. intros Hr Hi Hi' Hm.
  destruct (topologicalOrder wos) as [[e | ids] |] eqn:Hsort; try discriminate.
  destruct (Checker.validateSchedule fuel _ wcs) as [v |]; [| discriminate].
  destruct (valid v); simpl in Hr; [| discriminate].
  injection Hr as <-. cbn [updatedWorkOrders] in Hi'.
  rewrite (map_nth_error _ _ _ Hi) in Hi'. injection Hi' as <-.
  destruct (topologicalOrder_ok _ _ Hsort) as (_ & _ & Hids & Hnd).
  assert (Hin : In wo wos) by (eapply nth_error_In; eauto).
  pose proof (indexByNumber_get_unique wos wo Hnd Hin) as Hself.
  assert (Hq : forall w, In w (nonMaintenanceOrders (indexByNumber wos) ids) ->
                 JsMap.get (indexByNumber wos) (workOrderNumber w) = Some w).
  { intros w Hw. destruct (nonMaintenanceOrders_In _ _ _ Hw) as (_ & id & _ & Hget).
    pose proof (indexByNumber_get_In _ _ _ Hget) as [_ <-]. exact Hget. }
  destruct (place_walked (indexByNumber wos) (indexCenters wcs)
              (nonMaintenanceOrders (indexByNumber wos) ids) initialPlacer Hq)
    as [_ Hcover]; [intros id slot; discriminate |].
  fold (place wos wcs ids) in Hcover. specialize (Hcover wo).
  unfold updateOrder. rewrite Hm.
  destruct (JsMap.get (newSchedule (place wos wcs ids)) (workOrderNumber wo))
    as [slot |] eqn:Eslot.
  - unfold place in Eslot.
    apply place_slot_origin in Eslot as [Eslot | (w & st & Hw & ->)]; auto;
      [discriminate |].
    rewrite Hself in Hw. injection Hw as <-. exists st. split; reflexivity.
  - exfalso. apply Hcover; auto.
    apply nonMaintenanceOrders_complete; auto.
    apply Hids. now apply in_map.
Qed.

Lemma candidateStartOf_ge byNumber centers st wo :
  startDate wo <= candidateStartOf byNumber centers st wo.
Proof.
  unfold candidateStartOf.
  set (floor := maxOf _ _).
  assert (startDate wo <= floor).
  { unfold floor. apply maxOf_ge_In. right. now left. }
  pose proof (getNextAvailableStart_ge
                (centerShifts (JsMap.get centers (workCenterId wo)))
                (centerWindows (JsMap.get centers (workCenterId wo))) floor).
  lia.
Qed.
End PlacedSlotFacts.

(** X8 (no earlier start).  In every result of [reflow], each order starts
    no earlier than the start it came with. *)
Theorem reflow_never_moves_a_start_earlier :
  forall fuel workOrders workCenters result i wo wo',
    reflow fuel workOrders workCenters = Some (inr result) ->
    nth_error workOrders i = Some wo ->
    nth_error (updatedWorkOrders result) i = Some wo' ->
    startDate wo <= startDate wo'.
Proof.
  intros fuel wos wcs res i wo wo' Hr Hi Hi'.
  destruct (isMaintenance wo) eqn:Hm.
  - destruct (reflow_inv fuel wos wcs res Hr) as (ids & _ & Hupd & _).
    rewrite Hupd, (map_nth_error _ _ _ Hi) in Hi'. injection Hi' as <-.
    unfold updateOrder. rewrite Hm. lia.
  - destruct (reflow_placed fuel wos wcs res i wo wo' Hr Hi Hi' Hm) as (st & -> & _).
    apply candidateStartOf_ge.
Qed.

Lemma reflow_never_moves_a_start_earlier_witness :
  startDate Examples.orderB <= startDate Cases.placedB.
Proof.
  apply (reflow_never_moves_a_start_earlier 100 Examples.cascade [Examples.line1]
           Cases.cascadeResult 1%nat Examples.orderB Cases.placedB).
  - vm_compute. reflexivity.
  - reflexivity.
  - reflexivity.
Defined.

(** ** The cap of the maintenance skip *)

Section CapFacts.

Lemma filter_count_le {A : Type} (p q : A -> bool) (l : list A) :
  (forall x, In x l -> q x = true -> p x = true) ->
  (List.length (filter q l) <= List.length (filter p l))%nat.
Proof.
  induction l as [| x l IH]; intros H; simpl; auto.
  assert (IH' := IH (fun y Hy => H y (or_intror Hy))).
  destruct (q x) eqn:Eq.
  - rewrite (H x (or_introl eq_refl) Eq). simpl. lia.
  - destruct (p x); simpl; lia.
Qed.

Lemma filter_count_lt {A : Type} (p q : A -> bool) (l : list A) (a : A) :
  (forall x, In x l -> q x = true -> p x = true) ->
  In a l -> p a = true -> q a = false ->
  (List.length (filter q l) < List.length (filter p l))%nat.
Proof.
  induction l as [| x l IH]; intros H Ha Hp Hq; [destruct Ha |]. simpl.
  pose proof (filter_count_le p q l (fun y Hy => H y (or_intror Hy))) as Hle.
  destruct Ha as [-> | Ha].
  - rewrite Hp, Hq. simpl. lia.
  - assert (IH' := IH (fun y Hy => H y (or_intror Hy)) Ha Hp Hq).
    destruct (q x) eqn:Eq.
    + rewrite (H x (or_introl eq_refl) Eq). simpl. lia.
    + destruct (p x); simpl; lia.
Qed.

Lemma liveWindows_jump windows t t' w :
  In w windows -> t < mw_endDate w <= t' ->
  (liveWindows t' windows < liveWindows t windows)%nat.
Proof.
  intros Hw Ht. unfold liveWindows.
  apply filter_count_lt with (a := w); auto.
  - intros x _ Hx. apply Z.ltb_lt in Hx. apply Z.ltb_lt. lia.
  - apply Z.ltb_lt. lia.
  - apply Z.ltb_ge. lia.
Qed.

Lemma liveWindows_none windows t :
  liveWindows t windows = O -> isInMaintenance t windows = false.
Proof.
  unfold liveWindows, isInMaintenance. induction windows as [| w l IH]; simpl; auto.
  unfold windowContains at 1.
  destruct (t <? mw_endDate w) eqn:E; simpl; [discriminate |].
  rewrite andb_false_r. exact IH.
Qed.

Lemma skipFirstWindow_passes shifts current l :
  isInMaintenance current l = true ->
  exists w, In w l /\ current < mw_endDate w <= skipFirstWindow current shifts l.
Proof.
  unfold isInMaintenance. induction l as [| w l IH]; simpl; [discriminate |].
  destruct (windowContains current w) eqn:E; simpl.
  - intros _. exists w. split; [now left |].
    unfold windowContains in E. apply andb_true_iff in E as [_ E]. apply Z.ltb_lt in E.
    pose proof (snapToShift_ge shifts (mw_endDate w)). lia.
  - intros H. destruct (IH H) as (w' & Hw' & Hb). exists w'. split; auto.
Qed.

Lemma nextAvailableStart_uncapped shifts windows i current :
  (liveWindows current windows <= i)%nat ->
  capped (nextAvailableStart_loop shifts windows i current) = false.
Proof.
  revert current. induction i as [| i IH]; intros current Hlive; simpl.
  - apply liveWindows_none. lia.
  - destruct (isInMaintenance current windows) eqn:E; simpl; auto.
    apply IH.
    destruct (skipFirstWindow_passes shifts current windows E) as (w & Hw & Hb).
    pose proof (liveWindows_jump windows current _ w Hw Hb). lia.
Qed.

Lemma liveWindows_le t windows : (liveWindows t windows <= List.length windows)%nat.
Proof.
  unfold liveWindows. induction windows as [| w l IH]; simpl; auto.
  destruct (t <? mw_endDate w); simpl; lia.
Qed.

Lemma getNextAvailableStart_uncapped dt shifts windows :
  (List.length windows <= MAX_MAINTENANCE_ITERATIONS)%nat ->
  capped (getNextAvailableStart_traced dt shifts windows) = false.
Proof.
  intros Hlen. unfold getNextAvailableStart_traced. apply nextAvailableStart_uncapped.
  pose proof (liveWindows_le (snapToShift dt shifts) windows). lia.
Qed.

Lemma getNextAvailableStart_clear dt shifts windows :
  (List.length windows <= MAX_MAINTENANCE_ITERATIONS)%nat ->
  isInMaintenance (getNextAvailableStart dt shifts windows) windows = false.
Proof.
  intros Hlen. pose proof (getNextAvailableStart_uncapped dt shifts windows Hlen) as Hcap.
  unfold getNextAvailableStart. unfold getNextAvailableStart_traced in *.
  now apply nextAvailableStart_loop_clear.
Qed.

Lemma getNextAvailableStart_in_shift dt shifts windows :
  shifts <> [] -> Forall properShift shifts ->
  isWithinShift (getNextAvailableStart dt shifts windows) shifts = true.
Proof.
  intros Hne Hproper. unfold getNextAvailableStart, getNextAvailableStart_traced.
  apply nextAvailableStart_loop_in_shift; auto.
  now apply snapToShift_in_shift.
Qed.
End CapFacts.

(** X13 (cap of the maintenance skip).  With at most 500 maintenance windows
    the loop of [getNextAvailableStart] ends below its cap, and the instant
    returned is outside every window. *)
Theorem available_start_cap_is_unreachable :
  forall dt shifts windows,
    (List.length windows <= MAX_MAINTENANCE_ITERATIONS)%nat ->
    capped (getNextAvailableStart_traced dt shifts windows) = false
    /\ isInMaintenance (getNextAvailableStart dt shifts windows) windows = false.
Proof.
  intros dt shifts windows Hlen.
  split.
  - now apply getNextAvailableStart_uncapped.
  - now apply getNextAvailableStart_clear.
Qed.

Lemma available_start_cap_is_unreachable_witness :
  isInMaintenance
    (getNextAvailableStart Cases.duringInspection (shifts Examples.line2)
       (maintenanceWindows Examples.line2))
    (maintenanceWindows Examples.line2) = false.
Proof.
  apply (available_start_cap_is_unreachable Cases.duringInspection
           (shifts Examples.line2) (maintenanceWindows Examples.line2)).
  unfold MAX_MAINTENANCE_ITERATIONS. simpl. lia.
Defined.

(** X9 (available start).  In every result of [reflow], a rescheduled order
    starts outside every maintenance window of its center when the center has
    at most 500 windows, and inside a shift when the center has shifts that
    are all proper. *)
Theorem rescheduled_orders_start_on_available_time :
  forall fuel workOrders workCenters result i wo wo',
    reflow fuel workOrders workCenters = Some (inr result) ->
    nth_error workOrders i = Some wo ->
    nth_error (updatedWorkOrders result) i = Some wo' ->
    isMaintenance wo = false ->
    let wc := JsMap.get (indexCenters workCenters) (workCenterId wo) in
    ((List.length (centerWindows wc) <= MAX_MAINTENANCE_ITERATIONS)%nat ->
     isInMaintenance (startDate wo') (centerWindows wc) = false)
    /\ (centerShifts wc <> [] -> Forall properShift (centerShifts wc) ->
        isWithinShift (startDate wo') (centerShifts wc) = true).
Proof.
  intros fuel wos wcs res i wo wo' Hr Hi Hi' Hm wc.
  destruct (reflow_placed fuel wos wcs res i wo wo' Hr Hi Hi' Hm) as (st & -> & _).
  unfold slotOf. cbn [slot_start]. unfold candidateStartOf. fold wc. split.
  - intros Hlen. now apply getNextAvailableStart_clear.
  - intros Hne Hproper. now apply getNextAvailableStart_in_shift.
Qed.

Lemma rescheduled_orders_start_on_available_time_witness :
  isInMaintenance (startDate Examples.lateOrderPlaced)
    (maintenanceWindows Examples.line2) = false.
Proof.
  destruct (rescheduled_orders_start_on_available_time 100 [Examples.lateOrder]
              [Examples.line2] Cases.lateResult 0%nat Examples.lateOrder
              Examples.lateOrderPlaced ltac:(vm_compute; reflexivity) eq_refl eq_refl
              eq_refl) as [H _].
  apply H. unfold MAX_MAINTENANCE_ITERATIONS. simpl. lia.
Defined.

(** ** Shift lists with empty windows *)

Section ShiftWalkFacts.

Lemma getShiftSegmentEnd_outside dt shifts :
  isWithinShift dt shifts = false -> getShiftSegmentEnd dt shifts = dt.
Proof.
  unfold isWithinShift. induction shifts as [| s l IH]; simpl; auto.
  intros H. apply orb_false_iff in H as [Hs Hl].
  destruct (negb (dayOfWeek s =? toPlanDayOfWeek (weekday dt))) eqn:Ed; auto.
  destruct ((hour dt >=? startHour s) && (hour dt <? endHour s)) eqn:Eh; auto.
  exfalso. assert (Hin : isInShift dt s = true); [| congruence].
  apply isInShift_spec. apply negb_false_iff, Z.eqb_eq in Ed.
  apply andb_true_iff in Eh as [E1 E2]. split; auto. lia.
Qed.

Lemma emptyShiftWindows_never_open shifts t :
  Forall emptyShiftWindow shifts -> isWithinShift t shifts = false.
Proof.
  intros Hempty. destruct (isWithinShift t shifts) eqn:E; auto.
  apply isWithinShift_spec in E as (s & Hs & Hin).
  apply isInShift_spec in Hin as [_ Hh].
  rewrite Forall_forall in Hempty. specialize (Hempty s Hs).
  unfold emptyShiftWindow in Hempty. lia.
Qed.

Lemma diffMinutesFloor_same t : diffMinutesFloor t t = 0.
Proof. unfold diffMinutesFloor. now rewrite Z.sub_diag. Qed.

Lemma shiftWalk_never_ends shifts fuel current remaining :
  (forall t, isWithinShift t shifts = false) -> 0 < remaining ->
  shiftWalk_loop shifts fuel current remaining = None.
Proof.
  intros Hclosed Hpos. revert current.
  induction fuel as [| fuel IH]; intros current; simpl; auto.
  replace (remaining >? 0) with true by (symmetry; apply Z.gtb_lt; lia).
  cbn [negb]. rewrite getShiftSegmentEnd_outside, diffMinutesFloor_same; auto.
  change (0 <=? 0) with true. cbn iota. apply IH.
Qed.

Lemma calculateEndDateWithShifts_never_ends shifts fuel start duration :
  shifts <> [] -> Forall emptyShiftWindow shifts -> 0 < duration ->
  calculateEndDateWithShifts fuel start duration shifts = None.
Proof.
  intros Hne Hempty Hpos. unfold calculateEndDateWithShifts.
  destruct shifts as [| s l]; [contradiction |].
  apply shiftWalk_never_ends; auto.
  intros t. now apply emptyShiftWindows_never_open.
Qed.

Lemma Checker_checkShifts_None fuel l wcs wo :
  In wo l -> (forall errs, Checker.checkShiftsOf fuel wcs wo errs = None) ->
  forall errs, Checker.checkShifts fuel l wcs errs = None.
Proof.
  intros Hin Hwo. induction l as [| w l IH]; intros errs; [destruct Hin |]. simpl.
  destruct Hin as [-> | Hin]; [now rewrite Hwo |].
  destruct (Checker.checkShiftsOf fuel wcs w errs); auto.
Qed.

Lemma Standalone_checkShifts_None fuel l wcs wo :
  In wo l -> (forall errs, Standalone.checkShiftsOf fuel wcs wo errs = None) ->
  forall errs, Standalone.checkShifts fuel l wcs errs = None.
Proof.
  intros Hin Hwo. induction l as [| w l IH]; intros errs; [destruct Hin |]. simpl.
  destruct Hin as [-> | Hin]; [now rewrite Hwo |].
  destruct (Standalone.checkShiftsOf fuel wcs w errs); auto.
Qed.

Lemma Checker_validate_never_ends fuel wos wcs wo wc :
  In wo wos ->
  CheckerCommon.findCenter wcs (workCenterId wo) = Some wc ->
  shifts wc <> [] -> Forall emptyShiftWindow (shifts wc) ->
  maintenanceWindows wc = [] -> 0 < durationMinutes wo ->
  Checker.validateSchedule fuel wos wcs = None.
Proof.
  intros Hin Hwc Hne Hempty Hwin Hpos. unfold Checker.validateSchedule.
  rewrite (Checker_checkShifts_None fuel wos wcs wo Hin); auto.
  intros errs. unfold Checker.checkShiftsOf. rewrite Hwc, Hwin.
  destruct (shifts wc) as [| s l] eqn:Es; [contradiction |]. cbn [rangesOf map nonEmpty].
  rewrite calculateEndDateWithShifts_never_ends; auto.
Qed.
End ShiftWalkFacts.

(** X22 (divergence of the shift-only walk).  On a non-empty shift list whose
    windows are all empty, [calculateEndDateWithShifts] with a positive
    duration never returns, whatever the number of iterations allowed. *)
Theorem shift_walk_diverges_on_empty_shift_windows :
  forall fuel start duration shifts,
    shifts <> [] -> Forall emptyShiftWindow shifts -> 0 < duration ->
    calculateEndDateWithShifts fuel start duration shifts = None.
Proof.
  intros fuel start duration shifts Hne Hempty Hpos.
  destruct shifts as [| s l] eqn:Es; [contradiction |]. rewrite <- Es in *.
  assert (Hclosed : forall t, isWithinShift t shifts = false)
    by (intros t; now apply emptyShiftWindows_never_open).
  unfold calculateEndDateWithShifts. rewrite Es at 1. rewrite Hclosed. cbn [negb].
  now apply shiftWalk_never_ends.
Qed.

Lemma shift_walk_diverges_on_empty_shift_windows_witness :
  calculateEndDateWithShifts 50 (Examples.at_ Examples.monday 8 0) 1 Examples.emptyShift
  = None.
Proof.
  apply (shift_walk_diverges_on_empty_shift_windows 50 (Examples.at_ Examples.monday 8 0)
           1 Examples.emptyShift).
  - discriminate.
  - calendar_facts.
  - lia.
Defined.

(** X24 (validators on empty shift windows).  A schedule holding an order of
    positive duration on a center whose shifts all have empty windows is never
    answered by the standalone validator, nor by the validator of [reflow]
    when that center has no maintenance window. *)
Theorem validators_diverge_on_empty_shift_windows :
  forall fuel workOrders workCenters wo wc,
    In wo workOrders ->
    CheckerCommon.findCenter workCenters (workCenterId wo) = Some wc ->
    shifts wc <> [] -> Forall emptyShiftWindow (shifts wc) ->
    0 < durationMinutes wo ->
    Standalone.validateSchedule fuel workOrders workCenters = None
    /\ (maintenanceWindows wc = [] ->
        Checker.validateSchedule fuel workOrders workCenters = None).
Proof.
  intros fuel wos wcs wo wc Hin Hwc Hne Hempty Hpos. split.
  - unfold Standalone.validateSchedule.
    rewrite (Standalone_checkShifts_None fuel wos wcs wo Hin); auto.
    intros errs. unfold Standalone.checkShiftsOf. rewrite Hwc.
    destruct (shifts wc) as [| s l] eqn:Es; [contradiction |].
    rewrite calculateEndDateWithShifts_never_ends; auto.
  - intros Hwin. now apply (Checker_validate_never_ends fuel wos wcs wo wc).
Qed.

Lemma validators_diverge_on_empty_shift_windows_witness :
  Standalone.validateSchedule 50 [Cases.closedOrder] [Cases.closedCenter] = None
  /\ Checker.validateSchedule 50 [Cases.closedOrder] [Cases.closedCenter] = None.
Proof.
  destruct (validators_diverge_on_empty_shift_windows 50 [Cases.closedOrder]
              [Cases.closedCenter] Cases.closedOrder Cases.closedCenter) as [H1 H2].
  - simpl. auto.
  - reflexivity.
  - discriminate.
  - calendar_facts.
  - simpl. lia.
  - split; [exact H1 | apply H2; reflexivity].
Defined.

(** X25 (reflow on empty shift windows).  With an order of positive duration
    on a center whose shifts all have empty windows and which has no
    maintenance window, [reflow] either fails with the circular-dependency
    error or never returns. *)
Theorem reflow_never_returns_on_empty_shift_windows :
  forall fuel workOrders workCenters wo wc,
    In wo workOrders ->
    CheckerCommon.findCenter workCenters (workCenterId wo) = Some wc ->
    shifts wc <> [] -> Forall emptyShiftWindow (shifts wc) ->
    maintenanceWindows wc = [] -> 0 < durationMinutes wo ->
    reflow fuel workOrders workCenters = None
    \/ exists named,
         reflow fuel workOrders workCenters = Some (inl (CircularDependency named)).
Proof.
  intros fuel wos wcs wo wc Hin Hwc Hne Hempty Hwin Hpos. unfold reflow.
  destruct (topologicalOrder wos) as [[e | ids] |] eqn:Htopo; auto.
  - right. destruct (topologicalOrder_error wos e Htopo) as (named & ->). eauto.
  - left.
    set (ns := newSchedule (place wos wcs ids)).
    rewrite (Checker_validate_never_ends fuel (map (updateOrder ns) wos) wcs
               (updateOrder ns wo) wc); auto.
    + now apply in_map.
    + unfold updateOrder. destruct (isMaintenance wo); auto.
      destruct (JsMap.get ns (workOrderNumber wo)); auto.
    + unfold updateOrder. destruct (isMaintenance wo); auto.
      destruct (JsMap.get ns (workOrderNumber wo)); auto.
Qed.

Lemma reflow_never_returns_on_empty_shift_windows_witness :
  reflow 50 [Cases.closedOrder] [Cases.closedCenter] = None
  \/ exists named,
       reflow 50 [Cases.closedOrder] [Cases.closedCenter]
       = Some (inl (CircularDependency named)).
Proof.
  apply (reflow_never_returns_on_empty_shift_windows 50 [Cases.closedOrder]
           [Cases.closedCenter] Cases.closedOrder Cases.closedCenter).
  - simpl. auto.
  - reflexivity.
  - discriminate.
  - calendar_facts.
  - reflexivity.
  - simpl. lia.
Defined.

(** ** Termination of the shift-only walk *)

Lemma calculateEndDateWithShifts_some_shift fuel start duration shifts :
  shifts <> [] ->
  calculateEndDateWithShifts fuel start duration shifts
  = shiftWalk_loop shifts fuel
      (if negb (isWithinShift start shifts) then getNextShiftStart start shifts else start)
      duration.
Proof. intros Hne. destruct shifts; [contradiction | reflexivity]. Qed.

Section ShiftWalkTermination.
Variable shifts : list Shift.
Hypothesis shifts_proper : Forall properShift shifts.
Hypothesis shifts_given : shifts <> [].

Lemma segment_has_a_minute current :
  Forall wellFormedShift shifts ->
  aligned current -> isWithinShift current shifts = true ->
  1 <= diffMinutesFloor (getShiftSegmentEnd current shifts) current.
Proof.
  intros Hwf Hal Hin.
  destruct (shiftSegmentEnd_gen shifts current Hwf Hin) as (Hlt & Hal' & _).
  revert Hlt Hal'. generalize (getShiftSegmentEnd current shifts). intros e Hlt Hal'.
  timeconsts. apply Z.div_le_lower_bound; [lia |].
  apply Z.mod_divide in Hal; [| lia]. apply Z.mod_divide in Hal'; [| lia].
  destruct Hal as (a & ->). destruct Hal' as (b & ->). lia.
Qed.

Lemma shiftWalk_terminates fuel :
  forall current remaining,
    ((2 * Z.to_nat remaining + 1 < fuel)%nat ->
     exists e, shiftWalk_loop shifts fuel current remaining = Some e)
    /\ (aligned current -> isWithinShift current shifts = true ->
        (2 * Z.to_nat remaining < fuel)%nat ->
        exists e, shiftWalk_loop shifts fuel current remaining = Some e).
Proof.
  pose proof (properShift_wellFormed shifts shifts_proper) as Hwf.
  induction fuel as [| fuel IH]; intros current r; [split; intros; lia |].
  cbn [shiftWalk_loop].
  destruct (r >? 0) eqn:Er; cbn [negb]; [| split; eauto].
  apply Z.gtb_lt in Er.
  set (m := diffMinutesFloor (getShiftSegmentEnd current shifts) current).
  split.
  - intros Hfuel. destruct (m <=? 0) eqn:Em.
    + destruct (nextShiftStart_lands current shifts shifts_given shifts_proper)
        as [Hin Hal].
      destruct (IH (getNextShiftStart current shifts) r) as [_ IH2].
      apply IH2; auto. lia.
    + destruct (r <=? m) eqn:Erm; [eauto |].
      apply Z.leb_gt in Em, Erm.
      destruct (IH (getShiftSegmentEnd current shifts) (r - m)) as [IH1 _].
      apply IH1. lia.
  - intros Hal Hin Hfuel.
    pose proof (segment_has_a_minute current Hwf Hal Hin) as Hm. fold m in Hm.
    replace (m <=? 0) with false by (symmetry; apply Z.leb_gt; lia).
    destruct (r <=? m) eqn:Erm; [eauto |].
    apply Z.leb_gt in Erm.
    destruct (IH (getShiftSegmentEnd current shifts) (r - m)) as [IH1 _].
    apply IH1. lia.
Qed.

Lemma calculateEndDateWithShifts_terminates fuel start duration :
  (2 * Z.to_nat duration + 1 < fuel)%nat ->
  exists e, calculateEndDateWithShifts fuel start duration shifts = Some e.
Proof.
  intros Hfuel. rewrite calculateEndDateWithShifts_some_shift; auto.
  destruct (shiftWalk_terminates fuel
              (if negb (isWithinShift start shifts)
               then getNextShiftStart start shifts else start) duration) as [H1 _].
  now apply H1.
Qed.
End ShiftWalkTermination.

Section ValidatorTermination.

Lemma shiftWalk_fuel_mono shifts fuel fuel' current remaining e :
  shiftWalk_loop shifts fuel current remaining = Some e -> (fuel <= fuel')%nat ->
  shiftWalk_loop shifts fuel' current remaining = Some e.
Proof.
  revert fuel' current remaining.
  induction fuel as [| fuel IH]; intros fuel' current r Hrun Hle; [discriminate |].
  destruct fuel' as [| fuel']; [lia |]. cbn [shiftWalk_loop] in *.
  destruct (negb (r >? 0)); auto.
  destruct (_ <=? 0); [apply IH; auto; lia |].
  destruct (r <=? _); auto. apply IH; auto. lia.
Qed.

Lemma Checker_checkShiftsOf_terminates fuel wcs wo errs :
  (forall wc, In wc wcs -> Forall properShift (shifts wc)) ->
  (2 * Z.to_nat (durationMinutes wo) + 1 < fuel)%nat ->
  Checker.checkShiftsOf fuel wcs wo errs <> None.
Proof.
  intros Hproper Hfuel. unfold Checker.checkShiftsOf.
  destruct (CheckerCommon.findCenter wcs (workCenterId wo)) as [wc |] eqn:Hwc;
    [| discriminate].
  apply find_some in Hwc as [Hin _].
  destruct (shifts wc) as [| s l] eqn:Es; [discriminate |]. rewrite <- Es.
  destruct (nonEmpty (rangesOf (maintenanceWindows wc))); [discriminate |].
  destruct (calculateEndDateWithShifts_terminates (shifts wc) (Hproper wc Hin)
              ltac:(rewrite Es; discriminate) fuel (startDate wo) (durationMinutes wo)
              Hfuel) as (e & ->).
  discriminate.
Qed.

Lemma Checker_checkShifts_terminates fuel l wcs errs :
  (forall wc, In wc wcs -> Forall properShift (shifts wc)) ->
  (forall wo, In wo l -> (2 * Z.to_nat (durationMinutes wo) + 1 < fuel)%nat) ->
  Checker.checkShifts fuel l wcs errs <> None.
Proof.
  intros Hproper. revert errs.
  induction l as [| wo l IH]; intros errs Hfuel; simpl; [discriminate |].
  destruct (Checker.checkShiftsOf fuel wcs wo errs) as [errs' |] eqn:E.
  - apply IH. intros w Hw. apply Hfuel. now right.
  - exfalso. revert E. apply Checker_checkShiftsOf_terminates; auto.
    apply Hfuel. now left.
Qed.

Lemma updateOrder_duration ns wo :
  durationMinutes (updateOrder ns wo) = durationMinutes wo.
Proof.
  unfold updateOrder. destruct (isMaintenance wo); auto.
  destruct (JsMap.get ns (workOrderNumber wo)); auto.
Qed.
End ValidatorTermination.

(** X21 (termination of the shift-only walk).  With proper shifts the
    unbounded loop of [calculateEndDateWithShifts] ends: there is one instant
    that every run with more than [2 * duration + 1] iterations returns. *)
Theorem shift_walk_terminates_on_proper_shifts :
  forall start duration shifts,
    Forall properShift shifts ->
    exists e,
      forall fuel, (2 * Z.to_nat duration + 1 < fuel)%nat ->
        calculateEndDateWithShifts fuel start duration shifts = Some e.
Proof.
  intros start duration shifts Hproper.
  destruct shifts as [| s l] eqn:Es; [exists (plusMinutes start duration); auto |].
  rewrite <- Es in *.
  assert (Hne : shifts <> []) by (rewrite Es; discriminate).
  destruct (calculateEndDateWithShifts_terminates shifts Hproper Hne
              (2 * Z.to_nat duration + 2) start duration ltac:(lia)) as (e & He).
  exists e. intros fuel Hfuel.
  rewrite calculateEndDateWithShifts_some_shift in *; auto.
  apply (shiftWalk_fuel_mono shifts (2 * Z.to_nat duration + 2)); auto. lia.
Qed.

Lemma shift_walk_terminates_on_proper_shifts_witness :
  exists e,
    forall fuel, (2 * Z.to_nat 60 + 1 < fuel)%nat ->
      calculateEndDateWithShifts fuel (Examples.at_ Examples.monday 16 30) 60
        Examples.weekShifts = Some e.
Proof.
  exact (shift_walk_terminates_on_proper_shifts (Examples.at_ Examples.monday 16 30) 60
           Examples.weekShifts ltac:(calendar_facts)).
Defined.

Lemma reflow_not_diverging fuel wos wcs :
  (forall wc, In wc wcs -> Forall properShift (shifts wc)) ->
  (forall wo, In wo wos -> (2 * Z.to_nat (durationMinutes wo) + 1 < fuel)%nat) ->
  reflow fuel wos wcs <> None.
Proof.
  intros Hproper Hfuel. unfold reflow.
  destruct (topologicalOrder wos) as [[e | ids] |] eqn:Htopo; try discriminate.
  - set (ns := newSchedule (place wos wcs ids)).
    destruct (Checker.validateSchedule fuel (map (updateOrder ns) wos) wcs)
      as [v |] eqn:Hv; [destruct (negb (valid v)); discriminate |].
    exfalso. unfold Checker.validateSchedule in Hv.
    destruct (Checker.checkShifts fuel (map (updateOrder ns) wos) wcs _) eqn:E;
      [discriminate |].
    revert E. apply Checker_checkShifts_terminates; auto.
    intros w Hw. apply in_map_iff in Hw as (wo & <- & Hwo).
    rewrite updateOrder_duration. now apply Hfuel.
  - exfalso. now apply (topologicalOrder_total wos).
Qed.

(** X26 (termination of reflow).  When all shifts of all centers are proper,
    [reflow] returns a result or throws once the validator's walk is allowed
    more than [2 * duration + 1] iterations for every order. *)
Theorem reflow_terminates_on_proper_shifts :
  forall fuel workOrders workCenters,
    (forall wc, In wc workCenters -> Forall properShift (shifts wc)) ->
    (forall wo, In wo workOrders ->
       (2 * Z.to_nat (durationMinutes wo) + 1 < fuel)%nat) ->
    exists outcome, reflow fuel workOrders workCenters = Some outcome.
Proof.
  intros fuel wos wcs Hproper Hfuel.
  destruct (reflow fuel wos wcs) as [outcome |] eqn:E; [now exists outcome |].
  exfalso. revert E. now apply reflow_not_diverging.
Qed.

Lemma reflow_terminates_on_proper_shifts_witness :
  exists outcome, reflow 300 Examples.cascade [Examples.line1] = Some outcome.
Proof.
  apply (reflow_terminates_on_proper_shifts 300 Examples.cascade [Examples.line1]).
  - intros wc [<- | []]. calendar_facts.
  - intros wo [<- | [<- | [<- | []]]]; vm_compute; lia.
Defined.

(** ** The two walks without maintenance ranges *)

Lemma traced_some_shift start duration shifts ranges :
  nonEmpty shifts = true ->
  calculateEndDateWithShiftsAndMaintenance_traced start duration shifts ranges
  = walk_loop shifts ranges MAX_ITER_SEGMENTS
      (value (getNextWorkingMoment_traced start shifts ranges)) duration
      (capped (getNextWorkingMoment_traced start shifts ranges)).
Proof. intros Hne. destruct shifts; [discriminate | reflexivity]. Qed.

Section WalkAgreement.
Variable shifts : list Shift.
Hypothesis shifts_wf : Forall wellFormedShift shifts.
Hypothesis shifts_nonEmpty : nonEmpty shifts = true.

Lemma working_without_ranges t : working shifts [] t = isWithinShift t shifts.
Proof. unfold working. simpl. now rewrite andb_true_r. Qed.

Lemma nextWorkingMoment_loop_snap i current :
  isWithinShift current shifts = false ->
  nextWorkingMoment_loop shifts [] (S i) current
  = nextWorkingMoment_loop shifts [] i (getNextShiftStart current shifts).
Proof.
  intros Hout. cbn [nextWorkingMoment_loop]. now rewrite shifts_nonEmpty, Hout.
Qed.

(** The shift-only walk follows the chain of shift starts the
    stabilisation loop follows. *)
Lemma shiftWalk_follows_snaps k current remaining fuel e :
  0 < remaining ->
  capped (nextWorkingMoment_loop shifts [] k current) = false ->
  shiftWalk_loop shifts fuel current remaining = Some e ->
  exists fuel',
    shiftWalk_loop shifts fuel' (value (nextWorkingMoment_loop shifts [] k current))
      remaining = Some e.
Proof.
  intros Hpos. revert current fuel.
  induction k as [| k IH]; intros current fuel Hcap Hrun; [discriminate |].
  cbn [nextWorkingMoment_loop] in *. rewrite shifts_nonEmpty in *. cbn [andb nonEmpty] in *.
  destruct (isWithinShift current shifts) eqn:Ein; cbn [negb] in *.
  - exists fuel. exact Hrun.
  - destruct fuel as [| fuel]; [discriminate |]. cbn [shiftWalk_loop] in Hrun.
    replace (remaining >? 0) with true in Hrun by (symmetry; apply Z.gtb_lt; lia).
    cbn [negb] in Hrun.
    rewrite getShiftSegmentEnd_outside, diffMinutesFloor_same in Hrun; auto.
    change (0 <=? 0) with true in Hrun. cbn iota in Hrun.
    now apply (IH _ fuel).
Qed.

Lemma walks_agree_from i :
  forall current remaining fuel e,
    aligned current -> isWithinShift current shifts = true ->
    stalled (walk_loop shifts [] i current remaining false) = false ->
    unplaced (walk_loop shifts [] i current remaining false) <= 0 ->
    shiftWalk_loop shifts fuel current remaining = Some e ->
    e = walk_end (walk_loop shifts [] i current remaining false).
Proof.
  induction i as [| i IH]; intros current r fuel e Hal Hin;
    (destruct fuel as [| fuel]; [intros _ _; discriminate |]);
    cbn [walk_loop shiftWalk_loop].
  - cbn [unplaced walk_end]. intros _ Hun.
    destruct (Z.gtb_spec r 0) as [Hpos | _]; [lia |]. cbn [negb]. congruence.
  - destruct (Z.gtb_spec r 0) as [Hpos | _]; cbn [negb];
      [| cbn [walk_end]; congruence].
    cbv zeta.
    change (getWorkingSegmentEnd current shifts []) with (getShiftSegmentEnd current shifts).
    destruct (shiftSegmentEnd_gen shifts current shifts_wf Hin) as (Hlt & Hal' & _).
    pose proof (segment_has_a_minute shifts current shifts_wf Hal Hin) as Hm.
    set (segmentEnd := getShiftSegmentEnd current shifts) in *.
    set (m := diffMinutesFloor segmentEnd current) in *.
    destruct (Z.leb_spec m 0) as [Hbad | _]; [lia |].
    destruct (Z.leb_spec r m) as [_ | Hmore]; [cbn [walk_end]; congruence |].
    unfold getNextWorkingMoment_traced. cbn [orb].
    destruct (capped (nextWorkingMoment_loop shifts [] MAX_ITER_WORKING_MOMENT segmentEnd))
      eqn:Ecap.
    { rewrite walk_loop_stalled. discriminate. }
    destruct (nextWorkingMoment_spec shifts [] shifts_wf shifts_nonEmpty (Forall_nil _)
                MAX_ITER_WORKING_MOMENT segmentEnd Hal' Ecap) as (_ & Hal'' & Hw & _).
    rewrite working_without_ranges in Hw.
    set (next := value (nextWorkingMoment_loop shifts [] MAX_ITER_WORKING_MOMENT segmentEnd))
      in *.
    intros Hst Hun Hrun.
    destruct (shiftWalk_follows_snaps MAX_ITER_WORKING_MOMENT segmentEnd (r - m) fuel e
                ltac:(lia) Ecap Hrun) as (fuel' & Hrun').
    exact (IH next (r - m) fuel' e Hal'' Hw Hst Hun Hrun').
Qed.
Lemma shiftWalk_follows_first_snap k start remaining fuel e :
  0 < remaining ->
  capped (nextWorkingMoment_loop shifts [] (S k) start) = false ->
  shiftWalk_loop shifts fuel
    (if negb (isWithinShift start shifts) then getNextShiftStart start shifts else start)
    remaining = Some e ->
  exists fuel',
    shiftWalk_loop shifts fuel' (value (nextWorkingMoment_loop shifts [] (S k) start))
      remaining = Some e.
Proof.
  intros Hpos. destruct (isWithinShift start shifts) eqn:Ein; cbn [negb].
  - apply shiftWalk_follows_snaps; auto.
  - rewrite (nextWorkingMoment_loop_snap k start Ein).
    apply shiftWalk_follows_snaps; auto.
Qed.

Lemma walks_agree fuel start duration e :
  aligned start -> 0 < duration ->
  walkCapped (calculateEndDateWithShiftsAndMaintenance_traced start duration shifts [])
  = false ->
  calculateEndDateWithShifts fuel start duration shifts = Some e ->
  e = calculateEndDateWithShiftsAndMaintenance start duration shifts [].
Proof.
  intros Hal Hpos.
  assert (Hgiven : shifts <> []) by (intros E; rewrite E in shifts_nonEmpty; discriminate).
  rewrite calculateEndDateWithShifts_some_shift by exact Hgiven.
  unfold calculateEndDateWithShiftsAndMaintenance.
  rewrite traced_some_shift by exact shifts_nonEmpty.
  unfold getNextWorkingMoment_traced, walkCapped.
  destruct (capped (nextWorkingMoment_loop shifts [] MAX_ITER_WORKING_MOMENT start))
    eqn:Ecap.
  { rewrite walk_loop_stalled. discriminate. }
  destruct (nextWorkingMoment_spec shifts [] shifts_wf shifts_nonEmpty (Forall_nil _)
              MAX_ITER_WORKING_MOMENT start Hal Ecap) as (_ & Hal' & Hw & _).
  rewrite working_without_ranges in Hw.
  set (first := value (nextWorkingMoment_loop shifts [] MAX_ITER_WORKING_MOMENT start)) in *.
  intros Hcap Hrun. apply orb_false_iff in Hcap as [Hst Hun].
  rewrite Z.gtb_ltb in Hun. apply Z.ltb_ge in Hun.
  destruct (shiftWalk_follows_first_snap 999 start duration fuel e Hpos Ecap Hrun)
    as (fuel' & Hrun').
  exact (walks_agree_from MAX_ITER_SEGMENTS first duration fuel' e Hal' Hw Hst Hun Hrun').
Qed.
End WalkAgreement.

(** X20 (the two walks).  Without maintenance ranges, for shifts with hours
    within the day, a minute-aligned start and a positive duration: whenever
    the shift-only walk [calculateEndDateWithShifts] returns and the walk of
    [calculateEndDateWithShiftsAndMaintenance] hits no cap, both return the
    same instant. *)
Theorem shift_walk_agrees_with_the_maintenance_walk :
  forall fuel start duration shifts e,
    Forall wellFormedShift shifts -> aligned start -> 0 < duration ->
    walkCapped (calculateEndDateWithShiftsAndMaintenance_traced start duration shifts [])
    = false ->
    calculateEndDateWithShifts fuel start duration shifts = Some e ->
    e = calculateEndDateWithShiftsAndMaintenance start duration shifts [].
Proof.
  intros fuel start duration shifts e Hwf Hal Hpos.
  destruct (nonEmpty shifts) eqn:Hne.
  - now apply walks_agree.
  - destruct shifts; [| discriminate]. intros _. cbn. congruence.
Qed.

Lemma shift_walk_agrees_with_the_maintenance_walk_witness :
  Examples.at_ Examples.tuesday 8 30
  = calculateEndDateWithShiftsAndMaintenance (Examples.at_ Examples.monday 16 30) 60
      Examples.weekShifts [].
Proof.
  apply (shift_walk_agrees_with_the_maintenance_walk 100
           (Examples.at_ Examples.monday 16 30) 60 Examples.weekShifts).
  - calendar_facts.
  - reflexivity.
  - lia.
  - vm_compute. reflexivity.
  - vm_compute. reflexivity.
Defined.

(** ** Working segments of the walk *)

Section SegmentListFacts.
Variable shifts : list Shift.
Variable ranges : list MaintenanceRange.

Lemma segments_loop_acc i :
  forall current remaining acc,
    segments_loop shifts ranges i current remaining acc
    = acc ++ segments_loop shifts ranges i current remaining [].
Proof.
  induction i as [| i IH]; intros current r acc; cbn [segments_loop].
  - now rewrite app_nil_r.
  - destruct (negb (r >? 0)); [now rewrite app_nil_r |]. cbv zeta.
    destruct (_ <=? 0); [apply IH |].
    destruct (r <=? _); [reflexivity |].
    rewrite IH. rewrite (IH _ _ ([] ++ _)). now rewrite app_assoc.
Qed.

Lemma totalMinutes_cons s l : totalMinutes (s :: l) = segmentMinutes s + totalMinutes l.
Proof. reflexivity. Qed.

Lemma minutes_of_plusMinutes current r :
  diffMinutesFloor (plusMinutes current r) current = r.
Proof.
  unfold diffMinutesFloor, plusMinutes.
  replace (current + r * MS_PER_MINUTE - current) with (r * MS_PER_MINUTE) by lia.
  apply Z.div_mul. unfold MS_PER_MINUTE. lia.
Qed.

Lemma segments_total i :
  forall current remaining flag,
    totalMinutes (segments_loop shifts ranges i current remaining [])
    = remaining - unplaced (walk_loop shifts ranges i current remaining flag).
Proof.
  induction i as [| i IH]; intros current r flag; cbn [segments_loop walk_loop].
  - cbn. lia.
  - destruct (negb (r >? 0)); [cbn; lia |]. cbv zeta.
    unfold getNextWorkingMoment.
    set (m := diffMinutesFloor (getWorkingSegmentEnd current shifts ranges) current).
    destruct (Z.leb_spec m 0) as [_ | Hm]; [apply IH |].
    destruct (Z.leb_spec r m) as [_ | Hr].
    + cbn [app totalMinutes fold_right unplaced]. unfold segmentMinutes. cbn [seg_start seg_end].
      rewrite minutes_of_plusMinutes. lia.
    + rewrite segments_loop_acc. cbn [app].
      rewrite totalMinutes_cons,
        (IH _ _ (flag || capped (getNextWorkingMoment_traced
                                   (getWorkingSegmentEnd current shifts ranges)
                                   shifts ranges))).
      unfold segmentMinutes. cbn [seg_start seg_end]. fold m. lia.
Qed.

Lemma segments_last i :
  forall current remaining flag,
    0 < remaining ->
    unplaced (walk_loop shifts ranges i current remaining flag) = 0 ->
    exists earlier final,
      segments_loop shifts ranges i current remaining [] = earlier ++ [final]
      /\ seg_end final = walk_end (walk_loop shifts ranges i current remaining flag).
Proof.
  induction i as [| i IH]; intros current r flag Hpos; cbn [segments_loop walk_loop].
  - cbn. lia.
  - destruct (Z.gtb_spec r 0) as [_ | Hbad]; [| lia]. cbn [negb]. cbv zeta.
    unfold getNextWorkingMoment.
    set (m := diffMinutesFloor (getWorkingSegmentEnd current shifts ranges) current).
    destruct (Z.leb_spec m 0) as [_ | Hm]; [now apply IH |].
    destruct (Z.leb_spec r m) as [_ | Hr].
    + intros _. exists [], (mkSegment current (plusMinutes current r)). split; reflexivity.
    + intros Hun. destruct (IH _ (r - m) _ ltac:(lia) Hun) as (earlier & final & Hs & He).
      rewrite segments_loop_acc, Hs. cbn [app].
      exists (mkSegment current (getWorkingSegmentEnd current shifts ranges) :: earlier), final.
      split; [reflexivity | exact He].
Qed.

Lemma segments_have_minutes i :
  forall current remaining,
    Forall (fun s => 1 <= segmentMinutes s)
      (segments_loop shifts ranges i current remaining []).
Proof.
  induction i as [| i IH]; intros current r; cbn [segments_loop]; [constructor |].
  destruct (Z.gtb_spec r 0) as [Hpos | _]; cbn [negb]; [| constructor]. cbv zeta.
  set (m := diffMinutesFloor (getWorkingSegmentEnd current shifts ranges) current).
  destruct (Z.leb_spec m 0) as [_ | Hm]; [apply IH |].
  destruct (Z.leb_spec r m) as [_ | Hr].
  - constructor; [| constructor]. unfold segmentMinutes. cbn [seg_start seg_end].
    rewrite minutes_of_plusMinutes. lia.
  - rewrite segments_loop_acc. cbn [app]. constructor; [| apply IH].
    unfold segmentMinutes. cbn [seg_start seg_end]. fold m. lia.
Qed.
End SegmentListFacts.

(** X19 (segments of the walk).  The whole minutes of the segments returned by
    [getWorkingSegments] add up to the duration less what the walk left
    unplaced; when a positive duration is placed entirely, the last segment
    ends where [calculateEndDateWithShiftsAndMaintenance] ends; and every
    segment of a positive duration holds at least one minute. *)
Theorem working_segments_account_for_the_walk :
  forall start duration shifts ranges,
    let w := calculateEndDateWithShiftsAndMaintenance_traced start duration shifts ranges in
    let segments := getWorkingSegments start duration shifts ranges in
    totalMinutes segments = duration - unplaced w
    /\ (0 < duration -> unplaced w = 0 ->
        exists earlier final,
          segments = earlier ++ [final] /\ seg_end final = walk_end w)
    /\ (0 < duration -> Forall (fun s => 1 <= segmentMinutes s) segments).
Proof.
  intros start duration shifts ranges.
  destruct (nonEmpty shifts) eqn:Hne.
  - rewrite traced_some_shift by exact Hne.
    assert (Hsegs : getWorkingSegments start duration shifts ranges
                    = segments_loop shifts ranges MAX_ITER_SEGMENTS
                        (value (getNextWorkingMoment_traced start shifts ranges))
                        duration []).
    { destruct shifts; [discriminate | reflexivity]. }
    rewrite Hsegs. cbv zeta. split; [apply segments_total |]. split.
    + apply segments_last.
    + intros _. apply segments_have_minutes.
  - destruct shifts; [| discriminate]. cbv zeta.
    unfold getWorkingSegments, calculateEndDateWithShiftsAndMaintenance_traced.
    cbn [unplaced walk_end totalMinutes fold_right]. unfold segmentMinutes.
    cbn [seg_start seg_end]. rewrite minutes_of_plusMinutes. split; [lia |]. split.
    + intros _ _. exists [], (mkSegment start (plusMinutes start duration)).
      split; reflexivity.
    + intros Hpos. constructor; [| constructor]. unfold segmentMinutes.
      cbn [seg_start seg_end]. rewrite minutes_of_plusMinutes. lia.
Qed.

Lemma working_segments_account_for_the_walk_witness :
  exists earlier final,
    getWorkingSegments (Examples.at_ Examples.monday 16 30) 60 Examples.weekShifts []
    = earlier ++ [final]
    /\ seg_end final = Examples.at_ Examples.tuesday 8 30.
Proof.
  destruct (working_segments_account_for_the_walk (Examples.at_ Examples.monday 16 30) 60
              Examples.weekShifts []) as (_ & H & _).
  apply H; [lia | vm_compute; reflexivity].
Defined.

(** ** The two copies of the validator *)

Section ValidatorCopiesFacts.

Lemma indexCenters_get_In_gen (l : list WorkCenter) (m : JsMap.t WorkCenter) k wc :
  JsMap.get (fold_left (fun m wc => JsMap.set m (name wc) wc) l m) k = Some wc ->
  (In wc l /\ name wc = k) \/ JsMap.get m k = Some wc.
Proof.
  revert m. induction l as [| c l IH]; intros m H; simpl in *; auto.
  apply IH in H as [[H1 H2] | H]; auto.
  destruct (string_dec (name c) k) as [E | E].
  - subst k. rewrite get_set_same in H. injection H as <-. auto.
  - rewrite get_set_other in H; auto.
Qed.

Lemma Standalone_indexCenters_In wcs k wc :
  JsMap.get (Standalone.indexCenters wcs) k = Some wc -> In wc wcs /\ name wc = k.
Proof.
  intros H. apply indexCenters_get_In_gen in H as [H | H]; auto. discriminate.
Qed.

Lemma Standalone_checkMaintenance_idle wos wcs errs :
  (forall wc, In wc wcs -> maintenanceWindows wc = []) ->
  Standalone.checkMaintenance wos wcs errs = errs.
Proof.
  intros Hnone. unfold Standalone.checkMaintenance.
  induction wos as [| wo wos IH]; simpl; auto.
  unfold Standalone.checkMaintenanceOf at 2.
  destruct (JsMap.get (Standalone.indexCenters wcs) (workCenterId wo)) as [wc |] eqn:E;
    auto.
  apply Standalone_indexCenters_In in E as [Hin _]. now rewrite (Hnone wc Hin).
Qed.

Lemma checkShiftsOf_copies fuel wcs wo errs :
  (forall wc, In wc wcs -> maintenanceWindows wc = []) ->
  Standalone.checkShiftsOf fuel wcs wo errs = Checker.checkShiftsOf fuel wcs wo errs.
Proof.
  intros Hnone. unfold Standalone.checkShiftsOf, Checker.checkShiftsOf.
  destruct (CheckerCommon.findCenter wcs (workCenterId wo)) as [wc |] eqn:E; auto.
  apply find_some in E as [Hin _]. now rewrite (Hnone wc Hin).
Qed.

Lemma checkShifts_copies fuel wos wcs errs :
  (forall wc, In wc wcs -> maintenanceWindows wc = []) ->
  Standalone.checkShifts fuel wos wcs errs = Checker.checkShifts fuel wos wcs errs.
Proof.
  intros Hnone. revert errs. induction wos as [| wo wos IH]; intros errs; simpl; auto.
  rewrite checkShiftsOf_copies by exact Hnone.
  destruct (Checker.checkShiftsOf fuel wcs wo errs); auto.
Qed.

Lemma scanWindows_sound wo windows errs e :
  In e (Standalone.scanWindows wo windows errs) ->
  In e errs
  \/ exists win, In win windows /\ overlapsWindow wo win /\ e = overlapError wo win.
Proof.
  unfold Standalone.scanWindows. revert errs.
  induction windows as [| w ws IH]; intros errs H; simpl in *; auto.
  apply IH in H as [H | (win & Hwin & Hov & ->)].
  - destruct (_ && _) eqn:E; auto.
    apply in_app_or in H as [H | [<- | []]]; auto.
    right. exists w. apply andb_true_iff in E as [E1 E2].
    apply Z.ltb_lt in E1. apply Z.gtb_lt in E2.
    split; [now left |]. split; [split; lia | reflexivity].
  - right. exists win. split; [now right | auto].
Qed.

Lemma checkMaintenance_fold_sound centers wos errs e :
  In e (fold_left (Standalone.checkMaintenanceOf centers) wos errs) ->
  In e errs
  \/ exists wo wc win,
       In wo wos /\ JsMap.get centers (workCenterId wo) = Some wc
       /\ In win (maintenanceWindows wc) /\ overlapsWindow wo win
       /\ e = overlapError wo win.
Proof.
  revert errs. induction wos as [| wo wos IH]; intros errs H; simpl in *; auto.
  apply IH in H as [H | (w & wc & win & Hw & Hwc & Hwin & Hov & ->)].
  - unfold Standalone.checkMaintenanceOf in H.
    destruct (JsMap.get centers (workCenterId wo)) as [wc |] eqn:E; auto.
    destruct (maintenanceWindows wc) as [| w0 ws] eqn:Ew; auto.
    apply scanWindows_sound in H as [H | (win & Hwin & Hov & ->)]; auto.
    right. exists wo, wc, win. rewrite Ew. repeat split; auto; apply Hov.
  - right. exists w, wc, win. repeat split; auto; apply Hov.
Qed.
End ValidatorCopiesFacts.

(** X30 (the two validators).  When no center has a maintenance window, the
    standalone validator and the validator of [reflow] return the same
    report. *)
Theorem validator_copies_agree_without_maintenance_windows :
  forall fuel workOrders workCenters,
    (forall wc, In wc workCenters -> maintenanceWindows wc = []) ->
    Standalone.validateSchedule fuel workOrders workCenters
    = Checker.validateSchedule fuel workOrders workCenters.
Proof.
  intros fuel wos wcs Hnone.
  unfold Standalone.validateSchedule, Checker.validateSchedule.
  rewrite checkShifts_copies by exact Hnone.
  destruct (Checker.checkShifts fuel wos wcs _) as [errs3 |]; auto.
  now rewrite Standalone_checkMaintenance_idle.
Qed.

Lemma validator_copies_agree_without_maintenance_windows_witness :
  Standalone.validateSchedule 100 Examples.cascade [Examples.line1]
  = Checker.validateSchedule 100 Examples.cascade [Examples.line1].
Proof.
  apply (validator_copies_agree_without_maintenance_windows 100 Examples.cascade
           [Examples.line1]).
  intros wc [<- | []]. reflexivity.
Defined.

(** X29 (standalone maintenance check).  The errors of the standalone
    [checkMaintenance] are exactly the overlap messages of the orders whose
    stored interval overlaps a maintenance window of their center. *)
Theorem standalone_maintenance_check_is_exact :
  forall workOrders workCenters e,
    In e (Standalone.checkMaintenance workOrders workCenters [])
    <-> exists wo wc win,
          In wo workOrders
          /\ JsMap.get (Standalone.indexCenters workCenters) (workCenterId wo) = Some wc
          /\ In win (maintenanceWindows wc)
          /\ overlapsWindow wo win
          /\ e = overlapError wo win.
Proof.
  intros wos wcs e. split.
  - intros H. apply checkMaintenance_fold_sound in H as [[] | H]. exact H.
  - intros (wo & wc & win & Hwo & Hwc & Hwin & [H1 H2] & ->).
    now apply standalone_checkMaintenance_reports with (wc := wc).
Qed.

Lemma standalone_maintenance_check_is_exact_witness :
  In (overlapError Examples.lateOrderPlaced
        (mkWindow (Examples.at_ Examples.tuesday 8 0) (Examples.at_ Examples.tuesday 9 0)
           (Some "inspection"%string)))
     (Standalone.checkMaintenance [Examples.lateOrderPlaced] [Examples.line2] []).
Proof.
  apply (standalone_maintenance_check_is_exact [Examples.lateOrderPlaced] [Examples.line2]).
  exists Examples.lateOrderPlaced, Examples.line2,
    (mkWindow (Examples.at_ Examples.tuesday 8 0) (Examples.at_ Examples.tuesday 9 0)
       (Some "inspection"%string)).
  split; [simpl; auto |]. split; [reflexivity |]. split; [simpl; auto |].
  split; [| reflexivity]. split; vm_compute; reflexivity.
Defined.

(** ** Hours of the day, and the dependency check *)

Section HourFacts.

Lemma weekday_by_hours t : weekday t = (t / MS_PER_HOUR / 24 + 3) mod 7 + 1.
Proof.
  unfold weekday. do 3 f_equal. timeconsts. Z.div_mod_to_equations. lia.
Qed.

Lemma hour_by_hours t : hour t = (t / MS_PER_HOUR) mod 24.
Proof. timeconsts. Z.div_mod_to_equations. lia. Qed.

Lemma isInShift_by_hours t t' s :
  t / MS_PER_HOUR = t' / MS_PER_HOUR -> isInShift t s = isInShift t' s.
Proof.
  intros E.
  assert (Hw : weekday t = weekday t') by (rewrite !weekday_by_hours; now rewrite E).
  assert (Hh : hour t = hour t') by (rewrite !hour_by_hours; now rewrite E).
  destruct (isInShift t s) eqn:E1; destruct (isInShift t' s) eqn:E2; auto.
  - apply isInShift_spec in E1. rewrite Hw, Hh in E1. apply isInShift_spec in E1. congruence.
  - apply isInShift_spec in E2. rewrite <- Hw, <- Hh in E2. apply isInShift_spec in E2.
    congruence.
Qed.
End HourFacts.

(** X15 (hour granularity).  [isWithinShift] gives the same answer for two
    instants of the same hour. *)
Theorem shift_membership_ignores_minutes :
  forall t t' shifts,
    t / MS_PER_HOUR = t' / MS_PER_HOUR ->
    isWithinShift t shifts = isWithinShift t' shifts.
Proof.
  intros t t' shifts E. unfold isWithinShift.
  induction shifts as [| s l IH]; simpl; auto.
  now rewrite (isInShift_by_hours t t' s E), IH.
Qed.

Lemma shift_membership_ignores_minutes_witness :
  isWithinShift (Examples.at_ Examples.monday 16 0) Examples.weekShifts
  = isWithinShift (Examples.at_ Examples.monday 16 59) Examples.weekShifts.
Proof.
  apply (shift_membership_ignores_minutes (Examples.at_ Examples.monday 16 0)
           (Examples.at_ Examples.monday 16 59) Examples.weekShifts).
  reflexivity.
Defined.

Section DependencyCheckFacts.

Lemma scanParent_fold_known byNumber wo deps acc bound :
  (forall dep, In dep deps ->
     exists parent, JsMap.get byNumber dep = Some parent /\ endDate parent <= bound) ->
  (forall m0, fst acc = Some m0 -> m0 <= bound) ->
  snd (fold_left (CheckerCommon.scanParent byNumber wo) deps acc) = snd acc
  /\ forall m, fst (fold_left (CheckerCommon.scanParent byNumber wo) deps acc) = Some m ->
       m <= bound.
Proof.
  revert acc. induction deps as [| d deps IH]; intros acc Hdeps Hacc; simpl; auto.
  destruct (Hdeps d (or_introl eq_refl)) as (parent & Hget & Hle).
  assert (Hstep : snd (CheckerCommon.scanParent byNumber wo acc d) = snd acc
                  /\ forall m0, fst (CheckerCommon.scanParent byNumber wo acc d) = Some m0 ->
                       m0 <= bound).
  { unfold CheckerCommon.scanParent. rewrite Hget.
    destruct acc as [[m |] errs0]; cbn [fst snd] in *.
    - destruct (endDate parent >? m); cbn [fst snd].
      + split; auto. intros m0 [= <-]. exact Hle.
      + split; auto.
    - split; auto. intros m0 [= <-]. exact Hle. }
  destruct Hstep as [Hs1 Hs2].
  destruct (IH (CheckerCommon.scanParent byNumber wo acc d)) as [H1 H2]; auto.
  - intros dep Hdep. apply Hdeps. now right.
  - split; [now rewrite H1 | exact H2].
Qed.

Lemma checkDependenciesOf_met byNumber errs wo :
  (forall dep, In dep (dependsOnWorkOrderIds wo) ->
     exists parent, JsMap.get byNumber dep = Some parent
                    /\ endDate parent <= startDate wo) ->
  CheckerCommon.checkDependenciesOf byNumber errs wo = errs.
Proof.
  intros Hmet. unfold CheckerCommon.checkDependenciesOf.
  destruct (dependsOnWorkOrderIds wo) as [| d deps] eqn:Ed; auto. rewrite <- Ed in Hmet.
  unfold CheckerCommon.scanParents.
  destruct (scanParent_fold_known byNumber wo (dependsOnWorkOrderIds wo) (None, errs)
              (startDate wo) Hmet) as [H1 H2]; [discriminate |].
  destruct (fold_left _ _ _) as [mx errs']. simpl in *. subst errs'.
  destruct mx as [m |]; auto.
  specialize (H2 m eq_refl).
  replace (startDate wo <? m) with false by (symmetry; apply Z.ltb_ge; lia).
  reflexivity.
Qed.
End DependencyCheckFacts.

(** X27 (dependency check).  [checkDependencies] reports nothing exactly when
    every dependency of every order is an order of the schedule that ends no
    later than the dependent starts. *)
Theorem dependency_check_is_exact :
  forall workOrders,
    CheckerCommon.checkDependencies workOrders [] = []
    <-> forall wo, In wo workOrders -> dependenciesMet workOrders wo.
Proof.
  intros wos. split.
  - intros Hclean wo Hwo dep Hdep.
    destruct (JsMap.get (CheckerCommon.indexByNumber wos) dep) as [parent |] eqn:E.
    + exists parent. split; auto.
      now apply (checkDependencies_clean wos wo dep parent).
    + exfalso.
      pose proof (checkDependencies_fold_reports (CheckerCommon.indexByNumber wos)
                    wos [] wo dep Hwo Hdep E) as Hrep.
      unfold CheckerCommon.checkDependencies in Hclean.
      rewrite Hclean in Hrep. destruct Hrep.
  - intros Hmet. unfold CheckerCommon.checkDependencies.
    assert (Hfold : forall l errs, (forall wo, In wo l -> In wo wos) ->
              fold_left (CheckerCommon.checkDependenciesOf (CheckerCommon.indexByNumber wos))
                l errs = errs).
    { induction l as [| wo l IH]; intros errs Hl; simpl; auto.
      rewrite checkDependenciesOf_met.
      - apply IH. intros w Hw. apply Hl. now right.
      - apply Hmet. apply Hl. now left. }
    apply Hfold. auto.
Qed.

Lemma dependency_check_is_exact_witness :
  dependenciesMet Examples.cascadePlaced
    (mkWorkOrder "B" "Line1" (Examples.at_ Examples.monday 10 0)
       (Examples.at_ Examples.monday 12 0) 120 false ["A"%string]).
Proof.
  apply (dependency_check_is_exact Examples.cascadePlaced).
  - vm_compute. reflexivity.
  - simpl. auto.
Defined.

(** ** The stabilisation loop *)

Section StabilisationFacts.
Variable shifts : list Shift.
Variable ranges : list MaintenanceRange.

Lemma liveRanges_mono t t' : t <= t' -> (liveRanges t' ranges <= liveRanges t ranges)%nat.
Proof.
  intros Hle. unfold liveRanges. apply filter_count_le.
  intros r _ Hr. apply Z.ltb_lt in Hr. apply Z.ltb_lt. lia.
Qed.

Lemma liveRanges_jump t t' r :
  In r ranges -> t < r_end r <= t' -> (liveRanges t' ranges < liveRanges t ranges)%nat.
Proof.
  intros Hr Ht. unfold liveRanges. apply filter_count_lt with (a := r); auto.
  - intros x _ Hx. apply Z.ltb_lt in Hx. apply Z.ltb_lt. lia.
  - apply Z.ltb_lt. lia.
  - apply Z.ltb_ge. lia.
Qed.

Lemma liveRanges_le t : (liveRanges t ranges <= List.length ranges)%nat.
Proof.
  unfold liveRanges. induction ranges as [| r l IH]; simpl; auto.
  destruct (t <? r_end r); simpl; lia.
Qed.

Lemma rangeEnd_found current l :
  isInMaintenanceRange current l = true ->
  exists r, getMaintenanceRangeEnd current l = Some (r_end r) /\ In r l
            /\ current < r_end r.
Proof.
  unfold isInMaintenanceRange. induction l as [| r l IH]; simpl; [discriminate |].
  destruct (inRange current r) eqn:E; simpl.
  - intros _. exists r. split; auto. split; [now left |].
    unfold inRange in E. apply andb_true_iff in E as [_ E]. now apply Z.ltb_lt in E.
  - intros H. destruct (IH H) as (r' & H1 & H2 & H3). exists r'. auto.
Qed.

Lemma nextWorkingMoment_loop_ge i :
  forall current, current <= value (nextWorkingMoment_loop shifts ranges i current).
Proof.
  induction i as [| i IH]; intros current; cbn [nextWorkingMoment_loop value]; [lia |].
  destruct (nonEmpty shifts && negb (isWithinShift current shifts)).
  - pose proof (getNextShiftStart_ge current shifts).
    pose proof (IH (getNextShiftStart current shifts)). lia.
  - destruct (nonEmpty ranges && isInMaintenanceRange current ranges) eqn:E;
      [| cbn; lia].
    apply andb_true_iff in E as [_ E].
    destruct (rangeEnd_found current ranges E) as (r & -> & _ & Hlt).
    pose proof (IH (r_end r)). lia.
Qed.

Lemma nextWorkingMoment_loop_stable i :
  forall current,
    capped (nextWorkingMoment_loop shifts ranges i current) = false ->
    (nonEmpty shifts = true ->
     isWithinShift (value (nextWorkingMoment_loop shifts ranges i current)) shifts = true)
    /\ isInMaintenanceRange (value (nextWorkingMoment_loop shifts ranges i current)) ranges
       = false.
Proof.
  induction i as [| i IH]; intros current; cbn [nextWorkingMoment_loop]; [discriminate |].
  destruct (nonEmpty shifts && negb (isWithinShift current shifts)) eqn:E1; [apply IH |].
  destruct (nonEmpty ranges && isInMaintenanceRange current ranges) eqn:E2.
  - destruct (getMaintenanceRangeEnd current ranges); [apply IH | discriminate].
  - intros _. cbn [value]. split.
    + intros Hne. rewrite Hne in E1. cbn [andb] in E1. now apply negb_false_iff in E1.
    + destruct ranges; [reflexivity |]. exact E2.
Qed.

Lemma getNextWorkingMoment_traced_ge dt :
  dt <= value (getNextWorkingMoment_traced dt shifts ranges).
Proof. unfold getNextWorkingMoment_traced. apply nextWorkingMoment_loop_ge. Qed.

Lemma getNextWorkingMoment_ge dt : dt <= getNextWorkingMoment dt shifts ranges.
Proof. unfold getNextWorkingMoment. apply getNextWorkingMoment_traced_ge. Qed.

Lemma getNextWorkingMoment_stable dt :
  capped (getNextWorkingMoment_traced dt shifts ranges) = false ->
  (nonEmpty shifts = true ->
   isWithinShift (getNextWorkingMoment dt shifts ranges) shifts = true)
  /\ isInMaintenanceRange (getNextWorkingMoment dt shifts ranges) ranges = false.
Proof.
  unfold getNextWorkingMoment, getNextWorkingMoment_traced.
  apply nextWorkingMoment_loop_stable.
Qed.

Hypothesis shifts_proper : Forall properShift shifts.

Lemma nextWorkingMoment_uncapped i :
  forall current,
    ((nonEmpty shifts = false \/ isWithinShift current shifts = true) ->
     (2 * liveRanges current ranges < i)%nat ->
     capped (nextWorkingMoment_loop shifts ranges i current) = false)
    /\ ((2 * liveRanges current ranges + 1 < i)%nat ->
        capped (nextWorkingMoment_loop shifts ranges i current) = false).
Proof.
  induction i as [| i IH]; intros current; [split; intros; lia |].
  cbn [nextWorkingMoment_loop].
  destruct (nonEmpty shifts) eqn:Hne; cbn [andb].
  - destruct (isWithinShift current shifts) eqn:Ein; cbn [negb].
    + destruct (nonEmpty ranges && isInMaintenanceRange current ranges) eqn:E;
        [| split; reflexivity].
      apply andb_true_iff in E as [_ E].
      destruct (rangeEnd_found current ranges E) as (r & -> & Hr & Hlt).
      pose proof (liveRanges_jump current (r_end r) r Hr ltac:(lia)).
      destruct (IH (r_end r)) as [_ IH2]. split; intros; apply IH2; lia.
    + assert (Hgiven : shifts <> []) by (intros E; rewrite E in Hne; discriminate).
      destruct (nextShiftStart_lands current shifts Hgiven shifts_proper) as [Hin _].
      pose proof (getNextShiftStart_ge current shifts) as Hge.
      pose proof (liveRanges_mono _ _ Hge).
      destruct (IH (getNextShiftStart current shifts)) as [IH1 _].
      split; [intros [Hbad | Hbad]; discriminate |].
      intros Hfuel. apply IH1; auto. lia.
  - destruct (nonEmpty ranges && isInMaintenanceRange current ranges) eqn:E;
      [| split; reflexivity].
    apply andb_true_iff in E as [_ E].
    destruct (rangeEnd_found current ranges E) as (r & -> & Hr & Hlt).
    pose proof (liveRanges_jump current (r_end r) r Hr ltac:(lia)).
    destruct (IH (r_end r)) as [_ IH2]. split; intros; apply IH2; lia.
Qed.

Lemma getNextWorkingMoment_uncapped dt :
  (List.length ranges < 500)%nat ->
  capped (getNextWorkingMoment_traced dt shifts ranges) = false.
Proof.
  intros Hlen. unfold getNextWorkingMoment_traced.
  destruct (nextWorkingMoment_uncapped MAX_ITER_WORKING_MOMENT dt) as [_ H].
  apply H. pose proof (liveRanges_le dt). unfold MAX_ITER_WORKING_MOMENT. lia.
Qed.
End StabilisationFacts.

(** X16 (stabilisation).  With proper shifts and fewer than 500 maintenance
    ranges, [getNextWorkingMoment] ends below its cap of 1000 iterations; the
    instant it returns is at or after its argument, inside a shift when there
    are shifts, and outside every maintenance range. *)
Theorem next_working_moment_never_stalls :
  forall dt shifts ranges,
    Forall properShift shifts -> (List.length ranges < 500)%nat ->
    let next := getNextWorkingMoment dt shifts ranges in
    capped (getNextWorkingMoment_traced dt shifts ranges) = false
    /\ dt <= next
    /\ (shifts <> [] -> isWithinShift next shifts = true)
    /\ isInMaintenanceRange next ranges = false.
Proof.
  intros dt shifts ranges Hproper Hlen next.
  pose proof (getNextWorkingMoment_uncapped shifts ranges Hproper dt Hlen) as Hcap.
  destruct (getNextWorkingMoment_stable shifts ranges dt Hcap) as [Hin Hout].
  split; [exact Hcap |].
  split; [exact (getNextWorkingMoment_ge shifts ranges dt) |].
  split; [| exact Hout].
  intros Hne. apply Hin. destruct shifts; [contradiction | reflexivity].
Qed.

Lemma next_working_moment_never_stalls_witness :
  capped (getNextWorkingMoment_traced Cases.duringInspection (shifts Examples.line2)
            (rangesOf (maintenanceWindows Examples.line2))) = false
  /\ isInMaintenanceRange
       (getNextWorkingMoment Cases.duringInspection (shifts Examples.line2)
          (rangesOf (maintenanceWindows Examples.line2)))
       (rangesOf (maintenanceWindows Examples.line2)) = false.
Proof.
  destruct (next_working_moment_never_stalls Cases.duringInspection
              (shifts Examples.line2) (rangesOf (maintenanceWindows Examples.line2))
              ltac:(calendar_facts) ltac:(simpl; lia)) as (H1 & _ & _ & H4).
  split; [exact H1 | exact H4].
Defined.

(** ** Change records of the placer *)

Section ChangeFacts.
Variable byNumber : JsMap.t WorkOrder.
Variable centers : JsMap.t WorkCenter.

Lemma placeOrder_records st wo :
  exists added,
    changesSoFar (placeOrder byNumber centers st wo) = changesSoFar st ++ added
    /\ List.length (explanationParts (placeOrder byNumber centers st wo))
       = (List.length (explanationParts st) + List.length added)%nat
    /\ (forall c, In c added -> describesMove c wo (slotOf byNumber centers st wo))
    /\ (startDate wo <> slot_start (slotOf byNumber centers st wo) ->
        hasChange added wo StartDateField)
    /\ (endDate wo <> slot_end (slotOf byNumber centers st wo) ->
        hasChange added wo EndDateField).
Proof.
  unfold placeOrder, slotOf. cbn [slot_start slot_end].
  set (start := candidateStartOf byNumber centers st wo).
  set (end' := calculateEndDateWithShiftsAndMaintenance start (durationMinutes wo) _ _).
  destruct (Z.eqb_spec start (startDate wo)) as [Es | Es];
    destruct (Z.eqb_spec end' (endDate wo)) as [Ee | Ee]; cbn [negb changesSoFar
      explanationParts].
  - exists []. rewrite app_nil_r. cbn [List.length]. split; [reflexivity |].
    split; [lia |]. split; [intros c [] |]. split; congruence.
  - eexists [_]. split; [reflexivity |]. rewrite length_app. split; [reflexivity |].
    split; [| split].
    + intros c [<- | []]. split; [reflexivity |]. cbn [field oldValue newValue]. auto.
    + congruence.
    + intros _. eexists. split; [now left |]. split; reflexivity.
  - eexists [_]. split; [reflexivity |]. rewrite length_app. split; [reflexivity |].
    split; [| split].
    + intros c [<- | []]. split; [reflexivity |]. cbn [field oldValue newValue]. auto.
    + intros _. eexists. split; [now left |]. split; reflexivity.
    + congruence.
  - eexists [_; _]. rewrite <- !app_assoc. split; [reflexivity |].
    rewrite !length_app. cbn [List.length]. split; [lia |]. split; [| split].
    + intros c [<- | [<- | []]]; (split; [reflexivity |]); cbn [field oldValue newValue];
        auto.
    + intros _. eexists. split; [now left |]. split; reflexivity.
    + intros _. eexists. split; [right; now left |]. split; reflexivity.
Qed.

Lemma hasChange_app cs added wo f :
  hasChange cs wo f \/ hasChange added wo f -> hasChange (cs ++ added) wo f.
Proof.
  intros [(c & Hc & H) | (c & Hc & H)]; exists c; (split; [| exact H]);
    apply in_or_app; auto.
Qed.

Lemma placeOrder_recorded done st wo :
  ~ In (workOrderNumber wo) (map workOrderNumber done) ->
  Recorded done st -> Recorded (done ++ [wo]) (placeOrder byNumber centers st wo).
Proof.
  intros Hfresh (Hsound & Hcomplete & Hlen).
  destruct (placeOrder_records st wo) as (added & Hch & Hparts & Hadd & Hs & He).
  pose proof (placeOrder_newSchedule byNumber centers st wo) as Hns.
  fold (slotOf byNumber centers st wo) in Hns.
  assert (Hold : forall w, In w done ->
            JsMap.get (newSchedule (placeOrder byNumber centers st wo)) (workOrderNumber w)
            = JsMap.get (newSchedule st) (workOrderNumber w)).
  { intros w Hw. rewrite Hns. apply get_set_other. intros E. apply Hfresh.
    rewrite E. now apply in_map. }
  assert (Hnew : JsMap.get (newSchedule (placeOrder byNumber centers st wo))
                   (workOrderNumber wo) = Some (slotOf byNumber centers st wo))
    by (rewrite Hns; apply get_set_same).
  split; [| split].
  - intros c Hc. rewrite Hch in Hc. apply in_app_or in Hc as [Hc | Hc].
    + destruct (Hsound c Hc) as (w & slot & Hw & Hget & Hd).
      exists w, slot. split; [apply in_or_app; now left |]. split; auto.
      now rewrite Hold.
    + exists wo, (slotOf byNumber centers st wo).
      split; [apply in_or_app; right; now left |]. split; auto.
  - intros w Hw. rewrite Hch. apply in_app_or in Hw as [Hw | [<- | []]].
    + destruct (Hcomplete w Hw) as (slot & Hget & H1 & H2).
      exists slot. rewrite Hold by exact Hw. split; auto.
      split; intros Hd; apply hasChange_app; left; auto.
    + exists (slotOf byNumber centers st wo). split; auto.
      split; intros Hd; apply hasChange_app; right; auto.
  - rewrite Hparts, Hch, length_app. lia.
Qed.

Lemma place_recorded todo done st :
  NoDup (map workOrderNumber (done ++ todo)) ->
  Recorded done st ->
  Recorded (done ++ todo) (fold_left (placeOrder byNumber centers) todo st).
Proof.
  revert done st. induction todo as [| wo todo IH]; intros done st Hnd Hrec.
  - now rewrite app_nil_r.
  - rewrite fold_left_step.
    replace (done ++ wo :: todo) with ((done ++ [wo]) ++ todo) in *
      by (rewrite <- app_assoc; reflexivity).
    apply IH; auto. apply placeOrder_recorded; auto.
    rewrite !map_app in Hnd. apply NoDup_app_remove_r in Hnd.
    apply NoDup_remove_2 in Hnd. now rewrite app_nil_r in Hnd.
Qed.
End ChangeFacts.

Section ChangeListFacts.

Lemma nonMaintenanceOrders_ids wos ids id :
  In id (map workOrderNumber (nonMaintenanceOrders (indexByNumber wos) ids)) -> In id ids.
Proof.
  intros H. apply in_map_iff in H as (wo & <- & Hwo).
  destruct (nonMaintenanceOrders_In _ _ _ Hwo) as (_ & id & Hid & Hget).
  apply indexByNumber_get_In in Hget as [_ ->]. exact Hid.
Qed.

Lemma nonMaintenanceOrders_NoDup wos ids :
  NoDup ids -> NoDup (map workOrderNumber (nonMaintenanceOrders (indexByNumber wos) ids)).
Proof.
  induction ids as [| id ids IH]; intros Hnd; [constructor |].
  inversion Hnd as [| ? ? Hout Hnd']; subst.
  change (nonMaintenanceOrders (indexByNumber wos) (id :: ids))
    with ((match JsMap.get (indexByNumber wos) id with
           | Some wo => if isMaintenance wo then [] else [wo]
           | None => []
           end) ++ nonMaintenanceOrders (indexByNumber wos) ids).
  destruct (JsMap.get (indexByNumber wos) id) as [wo |] eqn:E; [| now apply IH].
  destruct (isMaintenance wo); [now apply IH |].
  cbn [app map]. constructor; [| now apply IH].
  apply indexByNumber_get_In in E as [_ ->].
  intros Hin. apply Hout. eapply nonMaintenanceOrders_ids; eauto.
Qed.

Lemma place_is_recorded wos wcs ids :
  NoDup ids ->
  Recorded (nonMaintenanceOrders (indexByNumber wos) ids) (place wos wcs ids).
Proof.
  intros Hnd. unfold place.
  apply (place_recorded (indexByNumber wos) (indexCenters wcs)
           (nonMaintenanceOrders (indexByNumber wos) ids) [] initialPlacer).
  - now apply nonMaintenanceOrders_NoDup.
  - split; [intros c [] | split; [intros wo [] | reflexivity]].
Qed.

Lemma updateOrder_placed ns wo slot :
  isMaintenance wo = false -> JsMap.get ns (workOrderNumber wo) = Some slot ->
  startDate (updateOrder ns wo) = slot_start slot
  /\ endDate (updateOrder ns wo) = slot_end slot.
Proof. intros Hm Hget. unfold updateOrder. rewrite Hm, Hget. split; reflexivity. Qed.
End ChangeListFacts.

(** X11 (change records).  In every result of [reflow], each change record
    belongs to a rescheduled order and gives the old and the new value of a
    date that did change; each order whose start or end differs from the
    input has a change record for that field; and the explanation says that
    no changes were required exactly when the change list is empty. *)
Theorem changes_record_exactly_the_moves :
  forall fuel workOrders workCenters result,
    reflow fuel workOrders workCenters = Some (inr result) ->
    (forall c, In c (changes result) ->
       exists i wo wo',
         nth_error workOrders i = Some wo
         /\ nth_error (updatedWorkOrders result) i = Some wo'
         /\ isMaintenance wo = false
         /\ describesMove c wo (mkSlot (startDate wo') (endDate wo')))
    /\ (forall i wo wo',
          nth_error workOrders i = Some wo ->
          nth_error (updatedWorkOrders result) i = Some wo' ->
          (startDate wo <> startDate wo' -> hasChange (changes result) wo StartDateField)
          /\ (endDate wo <> endDate wo' -> hasChange (changes result) wo EndDateField))
    /\ (explanation result = NoChangesRequired <-> changes result = []).
Proof.
  intros fuel wos wcs res Hr.
  destruct (reflow_inv fuel wos wcs res Hr) as (ids & Hsort & Hupd & Hch & _).
  destruct (topologicalOrder_ok _ _ Hsort) as (Hnd & _ & Hids & Hnd').
  destruct (place_is_recorded wos wcs ids Hnd) as (Hsound & Hcomplete & Hlen).
  set (ns := newSchedule (place wos wcs ids)) in *.
  split; [| split].
  - intros c Hc. rewrite Hch in Hc.
    destruct (Hsound c Hc) as (wo & slot & Hwo & Hget & Hd).
    destruct (nonMaintenanceOrders_In _ _ _ Hwo) as (Hm & id & _ & Hby).
    apply indexByNumber_get_In in Hby as [Hin _].
    destruct (In_nth_error _ _ Hin) as (i & Hi).
    exists i, wo, (updateOrder ns wo).
    split; auto. split; [rewrite Hupd; now apply map_nth_error |]. split; auto.
    destruct (updateOrder_placed ns wo slot Hm Hget) as [-> ->].
    now destruct slot.
  - intros i wo wo' Hi Hi'. rewrite Hupd, (map_nth_error _ _ _ Hi) in Hi'.
    injection Hi' as <-. rewrite Hch.
    destruct (isMaintenance wo) eqn:Hm.
    + unfold updateOrder. rewrite Hm. split; congruence.
    + assert (Hin : In wo wos) by (eapply nth_error_In; eauto).
      assert (Hq : In wo (nonMaintenanceOrders (indexByNumber wos) ids)).
      { apply nonMaintenanceOrders_complete; auto.
        - apply Hids. now apply in_map.
        - now apply indexByNumber_get_unique. }
      destruct (Hcomplete wo Hq) as (slot & Hget & H1 & H2).
      destruct (updateOrder_placed ns wo slot Hm Hget) as [-> ->]. auto.
  - unfold reflow in Hr. rewrite Hsort in Hr.
    destruct (Checker.validateSchedule fuel _ wcs) as [v |]; [| discriminate].
    destruct (negb (valid v)); [discriminate |]. injection Hr as <-.
    cbn [explanation changes].
    destruct (explanationParts (place wos wcs ids)) as [| p ps];
      destruct (changesSoFar (place wos wcs ids)) as [| c cs];
      try discriminate; split; auto; discriminate.
Qed.

Lemma changes_record_exactly_the_moves_witness :
  hasChange (changes Cases.cascadeResult) Examples.orderB StartDateField.
Proof.
  destruct (changes_record_exactly_the_moves 100 Examples.cascade [Examples.line1]
              Cases.cascadeResult ltac:(vm_compute; reflexivity)) as (_ & H & _).
  destruct (H 1%nat Examples.orderB Cases.placedB eq_refl eq_refl) as [Hs _].
  apply Hs. vm_compute. discriminate.
Defined.

(** ** The walk moves forward *)

Section ForwardFacts.
Variable shifts : list Shift.
Variable ranges : list MaintenanceRange.

Lemma getShiftSegmentEnd_ge dt l : dt <= getShiftSegmentEnd dt l.
Proof.
  induction l as [| s l IH]; simpl; [lia |].
  destruct (negb (dayOfWeek s =? toPlanDayOfWeek (weekday dt))); auto.
  destruct ((hour dt >=? startHour s) && (hour dt <? endHour s)) eqn:E; auto.
  apply andb_true_iff in E as [_ E]. apply Z.ltb_lt in E.
  apply hour_lt in E. lia.
Qed.

Lemma segmentEnd_fold_ge l dt e0 :
  dt <= e0 ->
  dt <= fold_left
          (fun segmentEnd r =>
             if (r_start r >? dt) && (r_start r <? segmentEnd) then r_start r
             else segmentEnd)
          l e0.
Proof.
  revert e0. induction l as [| r l IH]; intros e0 Hle; simpl; auto.
  apply IH. destruct ((r_start r >? dt) && (r_start r <? e0)) eqn:E; auto.
  apply andb_true_iff in E as [E _]. apply Z.gtb_lt in E. lia.
Qed.

Lemma getWorkingSegmentEnd_ge dt : dt <= getWorkingSegmentEnd dt shifts ranges.
Proof.
  unfold getWorkingSegmentEnd. apply segmentEnd_fold_ge. apply getShiftSegmentEnd_ge.
Qed.

Lemma walk_loop_ge i :
  forall current remaining flag,
    current <= walk_end (walk_loop shifts ranges i current remaining flag).
Proof.
  induction i as [| i IH]; intros current r flag; cbn [walk_loop]; [cbn; lia |].
  destruct (Z.gtb_spec r 0) as [Hpos | _]; cbn [negb]; [| cbn; lia]. cbv zeta.
  assert (Hnext : current
                  <= value (getNextWorkingMoment_traced
                              (getWorkingSegmentEnd current shifts ranges) shifts ranges)).
  { eapply Z.le_trans; [apply getWorkingSegmentEnd_ge |].
    apply getNextWorkingMoment_traced_ge. }
  destruct (diffMinutesFloor (getWorkingSegmentEnd current shifts ranges) current <=? 0).
  - eapply Z.le_trans; [exact Hnext | apply IH].
  - destruct (r <=? diffMinutesFloor (getWorkingSegmentEnd current shifts ranges) current).
    + cbn [walk_end]. unfold plusMinutes, MS_PER_MINUTE. lia.
    + eapply Z.le_trans; [exact Hnext | apply IH].
Qed.

Lemma calculateEnd_ge start duration :
  0 <= duration ->
  start <= calculateEndDateWithShiftsAndMaintenance start duration shifts ranges.
Proof.
  intros Hpos. unfold calculateEndDateWithShiftsAndMaintenance.
  destruct (nonEmpty shifts) eqn:Hne.
  - rewrite traced_some_shift by exact Hne.
    eapply Z.le_trans; [apply (getNextWorkingMoment_traced_ge shifts ranges start) |].
    apply walk_loop_ge.
  - destruct shifts; [| discriminate].
    unfold calculateEndDateWithShiftsAndMaintenance_traced. cbn [walk_end].
    unfold plusMinutes, MS_PER_MINUTE. lia.
Qed.
End ForwardFacts.

(** X18 (forward walk).  With a non-negative duration, or with at least one
    shift, [calculateEndDateWithShiftsAndMaintenance] returns an instant at or
    after the start. *)
Theorem the_walk_never_goes_back :
  forall start duration shifts ranges,
    (0 <= duration \/ shifts <> []) ->
    start <= calculateEndDateWithShiftsAndMaintenance start duration shifts ranges.
Proof.
  intros start duration shifts ranges [Hpos | Hne].
  - now apply calculateEnd_ge.
  - unfold calculateEndDateWithShiftsAndMaintenance.
    rewrite traced_some_shift by (destruct shifts; [contradiction | reflexivity]).
    eapply Z.le_trans; [apply (getNextWorkingMoment_traced_ge shifts ranges start) |].
    apply walk_loop_ge.
Qed.

Lemma the_walk_never_goes_back_witness :
  Examples.at_ Examples.monday 16 30
  <= calculateEndDateWithShiftsAndMaintenance (Examples.at_ Examples.monday 16 30) 60
       Examples.weekShifts [].
Proof.
  apply (the_walk_never_goes_back (Examples.at_ Examples.monday 16 30) 60
           Examples.weekShifts []).
  left. lia.
Defined.

(** X10 (start before end).  In every result of [reflow], a rescheduled order
    with a non-negative duration ends no earlier than it starts. *)
Theorem rescheduled_orders_end_after_they_start :
  forall fuel workOrders workCenters result i wo wo',
    reflow fuel workOrders workCenters = Some (inr result) ->
    nth_error workOrders i = Some wo ->
    nth_error (updatedWorkOrders result) i = Some wo' ->
    isMaintenance wo = false -> 0 <= durationMinutes wo ->
    startDate wo' <= endDate wo'.
Proof.
  intros fuel wos wcs res i wo wo' Hr Hi Hi' Hm Hpos.
  rewrite (reflow_ends_walked fuel wos wcs res i wo wo' Hr Hi Hi' Hm).
  now apply calculateEnd_ge.
Qed.

Lemma rescheduled_orders_end_after_they_start_witness :
  startDate Cases.placedB <= endDate Cases.placedB.
Proof.
  apply (rescheduled_orders_end_after_they_start 100 Examples.cascade [Examples.line1]
           Cases.cascadeResult 1%nat Examples.orderB Cases.placedB).
  - vm_compute. reflexivity.
  - reflexivity.
  - reflexivity.
  - reflexivity.
  - simpl. lia.
Defined.

(** ** A working segment, and the minutes of a range *)

(** X17 (working segment).  From a working instant, [getWorkingSegmentEnd]
    returns a later instant, no later than the end of the shift segment, such
    that every instant in between is working and no maintenance range starts
    in between. *)
Theorem working_segment_is_uninterrupted :
  forall current shifts ranges,
    Forall wellFormedShift shifts -> Forall alignedRange ranges ->
    working shifts ranges current = true ->
    let segmentEnd := getWorkingSegmentEnd current shifts ranges in
    current < segmentEnd
    /\ segmentEnd <= getShiftSegmentEnd current shifts
    /\ (forall t, current <= t < segmentEnd -> working shifts ranges t = true)
    /\ (forall r, In r ranges -> current < r_start r -> segmentEnd <= r_start r).
Proof.
  intros current shifts ranges Hwf Hal Hw segmentEnd.
  destruct (workingSegmentEnd_spec shifts ranges Hwf Hal current Hw) as (H1 & _ & H3).
  assert (Hin : isWithinShift current shifts = true) by (apply working_spec in Hw; tauto).
  destruct (shiftSegmentEnd_gen shifts current Hwf Hin) as (S1 & S2 & _).
  destruct (segmentEnd_fold ranges current (getShiftSegmentEnd current shifts) Hal S1 S2)
    as (_ & F2 & _ & F4).
  split; [exact H1 |]. split; [exact F2 |]. split; [exact H3 | exact F4].
Qed.

Lemma working_segment_is_uninterrupted_witness :
  Examples.at_ Examples.monday 16 30
  < getWorkingSegmentEnd (Examples.at_ Examples.monday 16 30) Examples.weekShifts [].
Proof.
  apply (working_segment_is_uninterrupted (Examples.at_ Examples.monday 16 30)
           Examples.weekShifts []).
  - calendar_facts.
  - constructor.
  - vm_compute. reflexivity.
Defined.

Section MinutesInRangeFacts.
Variable shifts : list Shift.

Lemma minutesInRange_loop_bounds fuel :
  forall current end' total r,
    minutesInRange_loop shifts fuel current end' total = Some r ->
    total <= r <= total + Z.max 0 (diffMinutesFloor end' current).
Proof.
  induction fuel as [| fuel IH]; intros current end' total r; [discriminate |].
  cbn [minutesInRange_loop].
  destruct (Z.ltb_spec current end') as [Hlt | Hge]; cbn [negb].
  2:{ intros [= <-]. lia. }
  cbv zeta.
  pose proof (getShiftSegmentEnd_ge current shifts) as Hseg.
  pose proof (getNextShiftStart_ge (getShiftSegmentEnd current shifts) shifts) as Hnext.
  remember (getShiftSegmentEnd current shifts) as segmentEnd eqn:E1.
  remember (getNextShiftStart segmentEnd shifts) as next eqn:E2. clear E1 E2.
  destruct (Z.gtb_spec segmentEnd end') as [Hover | Hunder].
  - replace (segmentEnd >=? end') with true by (symmetry; apply Z.geb_le; lia).
    replace (end' >? current) with true by (symmetry; apply Z.gtb_lt; lia).
    intros [= <-]. unfold diffMinutesFloor, MS_PER_MINUTE.
    Z.div_mod_to_equations. lia.
  - destruct (Z.gtb_spec segmentEnd current) as [Hprog | Hstay].
    + destruct (Z.geb_spec segmentEnd end') as [Hdone | Hmore].
      * intros [= <-]. unfold diffMinutesFloor, MS_PER_MINUTE.
        Z.div_mod_to_equations. lia.
      * intros Hrun. apply IH in Hrun. revert Hrun.
        unfold diffMinutesFloor, MS_PER_MINUTE. Z.div_mod_to_equations. lia.
    + destruct (Z.geb_spec segmentEnd end') as [Hdone | Hmore]; [lia |].
      intros Hrun. apply IH in Hrun. revert Hrun.
      unfold diffMinutesFloor, MS_PER_MINUTE. Z.div_mod_to_equations. lia.
Qed.
End MinutesInRangeFacts.

(** X23 (minutes in a range).  [minutesInRange] never reports a negative
    count nor more than the whole minutes between start and end, and on an
    interval that begins in a shift and ends within the same shift segment it
    returns those whole minutes after one iteration. *)
Theorem minutes_in_range_stay_within_the_span :
  forall fuel start end' shifts,
    (forall r, minutesInRange fuel start end' shifts = Some r ->
       0 <= r <= Z.max 0 (diffMinutesFloor end' start))
    /\ (isWithinShift start shifts = true -> start < end' ->
        end' <= getShiftSegmentEnd start shifts ->
        minutesInRange (S fuel) start end' shifts = Some (diffMinutesFloor end' start)).
Proof.
  intros fuel start end' shifts. split.
  - intros r. unfold minutesInRange.
    destruct ((start >=? end') || negb (nonEmpty shifts)); [intros [= <-]; lia |].
    remember (if negb (isWithinShift start shifts)
              then getNextShiftStart start shifts else start) as current eqn:Ec.
    assert (Hfrom : start <= current).
    { subst current. destruct (negb _); [apply getNextShiftStart_ge | lia]. }
    clear Ec. intros Hrun. apply minutesInRange_loop_bounds in Hrun. revert Hrun.
    unfold diffMinutesFloor, MS_PER_MINUTE. Z.div_mod_to_equations. lia.
  - intros Hin Hlt Hend. unfold minutesInRange.
    destruct (Z.geb_spec start end') as [Hbad | _]; [lia |].
    assert (Hne : nonEmpty shifts = true).
    { destruct shifts; [discriminate | reflexivity]. }
    rewrite Hne, Hin. cbn [negb orb minutesInRange_loop].
    replace (start <? end') with true by (symmetry; apply Z.ltb_lt; lia).
    cbn [negb]. cbv zeta.
    destruct (Z.gtb_spec (getShiftSegmentEnd start shifts) end') as [Hover | Hsame].
    + replace (end' >? start) with true by (symmetry; apply Z.gtb_lt; lia).
      replace (getShiftSegmentEnd start shifts >=? end') with true
        by (symmetry; apply Z.geb_le; lia).
      reflexivity.
    + assert (E : getShiftSegmentEnd start shifts = end') by lia. rewrite E.
      replace (end' >? start) with true by (symmetry; apply Z.gtb_lt; lia).
      replace (end' >=? end') with true by (symmetry; apply Z.geb_le; lia).
      reflexivity.
Qed.

Lemma minutes_in_range_stay_within_the_span_witness :
  minutesInRange 1 (Examples.at_ Examples.monday 16 0) (Examples.at_ Examples.monday 16 30)
    Examples.weekShifts = Some 30.
Proof.
  destruct (minutes_in_range_stay_within_the_span 0
              (Examples.at_ Examples.monday 16 0) (Examples.at_ Examples.monday 16 30)
              Examples.weekShifts) as [_ H].
  apply H; [reflexivity | reflexivity | vm_compute; discriminate].
Defined.

(** ** What the cycle error names *)

Section CycleReportFacts.

Lemma list_sum_positive {A : Type} (f : A -> nat) (l : list A) :
  list_sum (map f l) <> O -> exists x, In x l /\ f x <> O.
Proof.
  induction l as [| a l IH]; simpl; [congruence |].
  intros H. destruct (Nat.eq_dec (f a) 0) as [E | E].
  - rewrite E in H. destruct (IH H) as (x & Hx & Hf). exists x. auto.
  - exists a. auto.
Qed.

Lemma pendingEdges_source ch nodes result c :
  pendingEdges ch nodes result c <> O ->
  exists n, In n nodes /\ ~ In n result /\ In c (childrenOf ch n).
Proof.
  unfold pendingEdges. intros H.
  apply list_sum_positive in H as (n & Hn & Hf).
  exists n. split; auto.
  destruct (memString n result) eqn:E; [congruence |].
  split; [now apply memString_false |].
  apply occurrences_pos. lia.
Qed.

Lemma addEdge_origin wos byNumber wo g depId :
  In wo wos -> In depId (dependsOnWorkOrderIds wo) ->
  (forall n c, In c (childrenOf (children g) n) ->
     exists w, In w wos /\ workOrderNumber w = c /\ In n (dependsOnWorkOrderIds w)) ->
  forall n c, In c (childrenOf (children (addEdge byNumber wo g depId)) n) ->
    exists w, In w wos /\ workOrderNumber w = c /\ In n (dependsOnWorkOrderIds w).
Proof.
  intros Hwo Hdep Hg n c. unfold addEdge.
  destruct (negb (JsMap.has byNumber depId)); [apply Hg |]. simpl.
  destruct (string_dec depId n) as [<- | Hne].
  - rewrite childrenOf_set_same. intros H. apply in_app_or in H as [H | [<- | []]].
    + apply (Hg depId). exact H.
    + exists wo. auto.
  - rewrite childrenOf_set_other by exact Hne. apply Hg.
Qed.

Lemma addEdges_origin wos byNumber wo deps g :
  In wo wos -> incl deps (dependsOnWorkOrderIds wo) ->
  (forall n c, In c (childrenOf (children g) n) ->
     exists w, In w wos /\ workOrderNumber w = c /\ In n (dependsOnWorkOrderIds w)) ->
  forall n c, In c (childrenOf (children (fold_left (addEdge byNumber wo) deps g)) n) ->
    exists w, In w wos /\ workOrderNumber w = c /\ In n (dependsOnWorkOrderIds w).
Proof.
  intros Hwo. revert g. induction deps as [| d deps IH]; intros g Hincl Hg; simpl; auto.
  apply IH.
  - intros x Hx. apply Hincl. now right.
  - apply addEdge_origin; auto. apply Hincl. now left.
Qed.

Lemma buildGraph_fold_origin wos byNumber (l : list WorkOrder) g :
  incl l wos ->
  (forall n c, In c (childrenOf (children g) n) ->
     exists w, In w wos /\ workOrderNumber w = c /\ In n (dependsOnWorkOrderIds w)) ->
  forall n c,
    In c (childrenOf
            (children
               (fold_left
                  (fun g wo => fold_left (addEdge byNumber wo) (dependsOnWorkOrderIds wo) g)
                  l g)) n) ->
    exists w, In w wos /\ workOrderNumber w = c /\ In n (dependsOnWorkOrderIds w).
Proof.
  revert g. induction l as [| wo l IH]; intros g Hincl Hg; simpl; auto.
  apply IH.
  - intros x Hx. apply Hincl. now right.
  - apply addEdges_origin; auto.
    + apply Hincl. now left.
    + apply incl_refl.
Qed.

Lemma buildGraph_origin wos n c :
  In c (childrenOf (children (buildGraph wos)) n) ->
  exists w, In w wos /\ workOrderNumber w = c /\ In n (dependsOnWorkOrderIds w).
Proof.
  unfold buildGraph. apply buildGraph_fold_origin; [apply incl_refl |].
  destruct (initGraph_ok wos) as ((_ & _ & _ & Hch) & _ & _).
  intros m x Hx. exfalso.
  unfold initGraph in *.
  destruct (initGraph_gen wos (mkGraph JsMap.empty JsMap.empty))
    as (_ & _ & _ & H4 & _); simpl; auto; try discriminate; [constructor |].
  unfold childrenOf in Hx.
  destruct (JsMap.get _ m) as [v |] eqn:E; [| destruct Hx].
  apply H4 in E. subst v. destruct Hx.
Qed.

(** Kahn's loop ends in a state of its invariant with an empty queue. *)
Lemma kahn_final wos :
  exists result deg,
    kahn wos = Some (result, deg)
    /\ VisitInv (children (buildGraph wos)) (JsMap.keys (inDegree (buildGraph wos)))
         result [] (deg, []).
Proof.
  destruct (buildGraph_ok wos) as ((K1 & K2 & Hdeg & Hch) & Hnd & Hk).
  set (g := buildGraph wos) in *. set (nodes := JsMap.keys (inDegree g)) in *.
  assert (Hlen : (List.length nodes <= List.length wos)%nat).
  { rewrite <- (length_map workOrderNumber wos).
    apply NoDup_incl_length; auto. intros x Hx. now apply Hk. }
  destruct (kahn_loop_total (children g) nodes Hnd Hch (S (List.length wos))
              (initialQueue (inDegree g)) [] (inDegree g))
    as (result & deg & Hrun & Hinv).
  - split; [| split; [| split; [| split]]]; simpl; auto.
    + now apply initialQueue_NoDup.
    + intros x Hx. eapply In_keys_of_filter; eauto.
    + intros c Hc. rewrite (Hdeg c Hc). do 2 f_equal. unfold occurrences. simpl. lia.
    + intros c Hc. now apply initialQueue_In.
  - simpl. lia.
  - exists result, deg. split; auto.
Qed.
End CycleReportFacts.

(** X5 (what the cycle error names).  Every id named by the
    circular-dependency error of [reflow] belongs to an input order one of
    whose dependencies is named by the error too. *)
Theorem named_orders_wait_for_named_dependencies :
  forall fuel workOrders workCenters named id,
    reflow fuel workOrders workCenters = Some (inl (CircularDependency named)) ->
    In id named ->
    exists wo dep,
      In wo workOrders /\ workOrderNumber wo = id
      /\ In dep (dependsOnWorkOrderIds wo) /\ In dep named.
Proof.
  intros fuel wos wcs named id Hr Hid.
  destruct (kahn_final wos) as (result & deg & Hk & Hinv).
  destruct (buildGraph_ok wos) as (_ & _ & Hnodes).
  assert (Hnamed : named
                   = filter (fun x => negb (memString x result)) (map workOrderNumber wos)).
  { unfold reflow, topologicalOrder in Hr. rewrite Hk in Hr.
    destruct (negb (Nat.eqb _ _)).
    - now injection Hr as <-.
    - destruct (Checker.validateSchedule fuel _ wcs) as [v |]; [| discriminate].
      destruct (negb (valid v)); discriminate. }
  subst named. apply filter_In in Hid as [Hin Hout].
  apply negb_true_iff, memString_false in Hout.
  destruct Hinv as (_ & _ & _ & Hdeg & Hzero). cbn [fst snd] in *.
  apply Hnodes in Hin.
  assert (Hpending : pendingEdges (children (buildGraph wos))
                       (JsMap.keys (inDegree (buildGraph wos))) result id <> O).
  { intros E. apply Hout. rewrite <- (app_nil_r result). apply Hzero; auto.
    rewrite (Hdeg id Hin), E. reflexivity. }
  apply pendingEdges_source in Hpending as (n & Hn & Hnout & Hedge).
  apply buildGraph_origin in Hedge as (wo & Hwo & Hid & Hdep).
  exists wo, n. repeat split; auto.
  apply filter_In. split; [now apply Hnodes |].
  apply negb_true_iff. now apply memString_false.
Qed.

Lemma named_orders_wait_for_named_dependencies_witness :
  exists wo dep,
    In wo [Examples.cycleA; Examples.cycleB] /\ workOrderNumber wo = "A"%string
    /\ In dep (dependsOnWorkOrderIds wo) /\ In dep ["A"%string; "B"%string].
Proof.
  apply (named_orders_wait_for_named_dependencies 0 [Examples.cycleA; Examples.cycleB]
           [Examples.line1] ["A"%string; "B"%string] "A"%string).
  - vm_compute. reflexivity.
  - simpl. auto.
Defined.

(** ** The conflict check *)

Section ConflictReportFacts.

Lemma checkAdjacent_sound c sorted errs e :
  StronglySorted startsNoLater sorted ->
  In e (CheckerCommon.checkAdjacent c sorted errs) ->
  In e errs
  \/ exists a b,
       In a sorted /\ In b sorted
       /\ e = WorkCenterConflict c (workOrderNumber a) (endDate a) (workOrderNumber b)
                (startDate b)
       /\ startDate a <= startDate b < endDate a.
Proof.
  revert errs. induction sorted as [| a l IH]; intros errs Hs H; [now left |].
  destruct l as [| b rest]; [now left |].
  rewrite checkAdjacent_pair in H.
  inversion Hs as [| ? ? Hs' Hall]; subst.
  apply IH in H; auto.
  destruct H as [H | (x & y & Hx & Hy & He & Hov)].
  - destruct (endDate a >? startDate b) eqn:E; auto.
    apply in_app_or in H as [H | [<- | []]]; auto.
    right. exists a, b. apply Z.gtb_lt in E.
    inversion Hall as [| ? ? Hab _]; subst. unfold startsNoLater in Hab.
    split; [now left |]. split; [right; now left |]. split; [reflexivity | lia].
  - right. exists x, y. split; [now right |]. split; [now right | auto].
Qed.

Lemma set_entries {V : Type} (m : JsMap.t V) k v c g :
  In (c, g) (JsMap.set m k v) -> (c = k /\ g = v) \/ In (c, g) m.
Proof.
  induction m as [| [k' v'] m IH]; simpl.
  - intros [[= <- <-] | []]. auto.
  - destruct (String.eqb k' k) eqn:E.
    + apply String.eqb_eq in E. subst k'. intros [[= <- <-] | H]; auto.
    + intros [H | H]; auto. apply IH in H. tauto.
Qed.

Lemma groupByCenter_entries_gen wos (l : list WorkOrder) (m : JsMap.t (list WorkOrder)) :
  incl l wos ->
  (forall c g, In (c, g) m -> forall wo, In wo g -> In wo wos /\ workCenterId wo = c) ->
  forall c g,
    In (c, g)
       (fold_left
          (fun byCenter wo =>
             JsMap.set byCenter (workCenterId wo)
               (orDefault (JsMap.get byCenter (workCenterId wo)) [] ++ [wo]))
          l m) ->
    forall wo, In wo g -> In wo wos /\ workCenterId wo = c.
Proof.
  revert m. induction l as [| x l IH]; intros m Hincl Hm; simpl; auto.
  apply IH.
  - intros y Hy. apply Hincl. now right.
  - intros c g Hin wo Hwo. apply set_entries in Hin as [[-> ->] | Hin].
    + apply in_app_or in Hwo as [Hwo | [<- | []]].
      * destruct (JsMap.get m (workCenterId x)) as [g0 |] eqn:E; [| destruct Hwo].
        apply get_In in E. exact (Hm _ _ E wo Hwo).
      * split; auto. apply Hincl. now left.
    + exact (Hm c g Hin wo Hwo).
Qed.

Lemma groupByCenter_entries wos c g wo :
  In (c, g) (CheckerCommon.groupByCenter wos) -> In wo g ->
  In wo wos /\ workCenterId wo = c.
Proof.
  intros Hin Hwo. unfold CheckerCommon.groupByCenter in Hin.
  revert Hin wo Hwo. apply groupByCenter_entries_gen; [apply incl_refl |].
  intros c' g' [].
Qed.

Lemma conflicts_fold_sound wos (entries : list (string * list WorkOrder)) errs e :
  (forall c g, In (c, g) entries ->
     forall wo, In wo g -> In wo wos /\ workCenterId wo = c) ->
  In e (fold_left
          (fun errs entry =>
             CheckerCommon.checkAdjacent (fst entry)
               (CheckerCommon.sortByStart (snd entry)) errs)
          entries errs) ->
  In e errs \/ realConflict wos e.
Proof.
  revert errs. induction entries as [| [c g] entries IH]; intros errs Hent H; simpl in *;
    auto.
  apply IH in H; [| intros c' g' Hin; apply Hent; now right].
  destruct H as [H | H]; auto.
  apply checkAdjacent_sound in H; [| apply sortByStart_sorted].
  destruct H as [H | (a & b & Ha & Hb & -> & Hov)]; auto.
  right.
  apply (Permutation_in _ (sortByStart_perm g)) in Ha, Hb.
  destruct (Hent c g (or_introl eq_refl) a Ha) as [Ha1 Ha2].
  destruct (Hent c g (or_introl eq_refl) b Hb) as [Hb1 Hb2].
  exists a, b. rewrite Ha2.
  split; [exact Ha1 |]. split; [exact Hb1 |]. split; [now symmetry |].
  split; [reflexivity | exact Hov].
Qed.
End ConflictReportFacts.

(** X28 (conflict check).  Every error reported by [checkWorkCenterConflicts]
    names two orders of the schedule on the same center, the first starting
    no later than the second and ending after the second starts. *)
Theorem conflict_check_reports_real_conflicts :
  forall workOrders e,
    In e (CheckerCommon.checkWorkCenterConflicts workOrders []) ->
    realConflict workOrders e.
Proof.
  intros wos e H. unfold CheckerCommon.checkWorkCenterConflicts in H.
  apply (conflicts_fold_sound wos) in H.
  - destruct H as [[] | H]. exact H.
  - intros c g Hin wo Hwo. now apply (groupByCenter_entries wos c g).
Qed.

Lemma conflict_check_reports_real_conflicts_witness :
  realConflict Examples.cascade
    (WorkCenterConflict "Line1" "A" (Examples.at_ Examples.monday 10 0) "B"
       (Examples.at_ Examples.monday 9 0)).
Proof.
  apply (conflict_check_reports_real_conflicts Examples.cascade).
  vm_compute. auto.
Defined.

(** ** Records as objects: the result array *)

Section StoreFacts.
Variable ns : JsMap.t Slot.

Lemma deref_Forall2 (f : WorkOrder -> WorkOrder) store (es : list (Ref * WorkOrder)) refs :
  Forall2 (fun (e : Ref * WorkOrder) r => nth_error store r = Some (f (snd e))) es refs ->
  deref store refs = map (fun e => f (snd e)) es.
Proof.
  induction 1 as [| e r es refs He _ IH]; [reflexivity |].
  unfold deref in *. simpl. rewrite He, IH. reflexivity.
Qed.

Lemma Forall2_nth_error {A B : Type} (R : A -> B -> Prop) l l' i a :
  Forall2 R l l' -> nth_error l i = Some a ->
  exists b, nth_error l' i = Some b /\ R a b.
Proof.
  intros H. revert i. induction H as [| x y l l' Hxy _ IH]; intros i Hi.
  - destruct i; discriminate.
  - destruct i as [| i]; simpl in *.
    + injection Hi as <-. eauto.
    + auto.
Qed.

Lemma updateOrderRef_fold (es : list (Ref * WorkOrder)) :
  forall store out,
    Forall (fun e : Ref * WorkOrder => nth_error store (fst e) = Some (snd e)) es ->
    exists fresh refs,
      fold_left (updateOrderRef ns) es (store, out) = (store ++ fresh, out ++ refs)
      /\ Forall2 (Rebuilt ns store (store ++ fresh)) es refs.
Proof.
  induction es as [| e es IH]; intros store out Hes.
  - exists [], []. simpl. rewrite !app_nil_r. split; constructor.
  - inversion Hes as [| ? ? He Hes']; subst. rewrite fold_left_step.
    assert (Hlt : (fst e < List.length store)%nat)
      by (apply nth_error_Some; rewrite He; discriminate).
    assert (Hkeep :
      updateOrder ns (snd e) = snd e ->
      updateOrderRef ns (store, out) e = (store, out ++ [fst e]) ->
      (isMaintenance (snd e) = false ->
       JsMap.get ns (workOrderNumber (snd e)) <> None -> False) ->
      exists fresh refs,
        fold_left (updateOrderRef ns) es (updateOrderRef ns (store, out) e)
        = (store ++ fresh, out ++ refs)
        /\ Forall2 (Rebuilt ns store (store ++ fresh)) (e :: es) refs).
    { intros Hsame Hstep Hno. rewrite Hstep.
      destruct (IH store (out ++ [fst e]) Hes') as (fresh & refs & Hfold & Hall).
      exists fresh, (fst e :: refs). rewrite Hfold, <- app_assoc. split; [reflexivity |].
      constructor; [| exact Hall]. unfold Rebuilt. split; [| split].
      - rewrite Hsame. rewrite nth_error_app1; auto.
      - reflexivity.
      - intros Hm Hget. destruct (Hno Hm Hget). }
    destruct (isMaintenance (snd e)) eqn:Hm.
    { apply Hkeep.
      - unfold updateOrder. now rewrite Hm.
      - unfold updateOrderRef. cbn [fst snd]. now rewrite Hm.
      - discriminate. }
    destruct (JsMap.get ns (workOrderNumber (snd e))) as [next |] eqn:Hget.
    2: { apply Hkeep.
         - unfold updateOrder. now rewrite Hm, Hget.
         - unfold updateOrderRef. cbn [fst snd]. now rewrite Hm, Hget.
         - intros _ Hne. now apply Hne. }
    clear Hkeep. unfold updateOrderRef at 2. cbn [fst snd]. rewrite Hm, Hget.
    set (copy := mkWorkOrder _ _ _ _ _ _ _).
    destruct (IH (store ++ [copy]) (out ++ [List.length store])) as (fresh & refs & Hfold & Hall).
    { eapply Forall_impl; [| exact Hes']. intros a Ha.
      rewrite nth_error_app1; auto. apply nth_error_Some. rewrite Ha. discriminate. }
    exists (copy :: fresh), (List.length store :: refs).
    rewrite Hfold, <- !app_assoc. split; [reflexivity |].
    constructor.
    + unfold Rebuilt. cbn [fst snd]. split; [| split].
      * rewrite nth_error_app2, Nat.sub_diag by lia. simpl.
        unfold updateOrder. rewrite Hm, Hget. reflexivity.
      * rewrite Hm. discriminate.
      * intros _ _. lia.
    + eapply Forall2_impl; [| exact Hall].
      intros a r (H1 & H2 & H3). rewrite <- app_assoc in H1. repeat split; auto.
      intros Ha Hg. specialize (H3 Ha Hg). rewrite length_app in H3. simpl in H3. lia.
Qed.

Lemma combine_seq_held (pre l : list WorkOrder) :
  Forall (fun e : Ref * WorkOrder => nth_error (pre ++ l) (fst e) = Some (snd e))
    (combine (seq (List.length pre) (List.length l)) l).
Proof.
  revert pre. induction l as [| wo l IH]; intros pre; [constructor |].
  simpl. constructor.
  - simpl. rewrite nth_error_app2, Nat.sub_diag by lia. reflexivity.
  - specialize (IH (pre ++ [wo])). rewrite <- app_assoc, length_app in IH.
    simpl in IH. rewrite Nat.add_1_r in IH. exact IH.
Qed.

Lemma combine_seq_snd (f : WorkOrder -> WorkOrder) (l : list WorkOrder) k :
  map (fun e : Ref * WorkOrder => f (snd e)) (combine (seq k (List.length l)) l)
  = map f l.
Proof.
  revert k. induction l as [| wo l IH]; intros k; [reflexivity |].
  simpl. now rewrite IH.
Qed.

Lemma combine_seq_nth_error (l : list WorkOrder) k i wo :
  nth_error l i = Some wo ->
  nth_error (combine (seq k (List.length l)) l) i = Some ((k + i)%nat, wo).
Proof.
  revert k i. induction l as [| w l IH]; intros k i Hi; [destruct i; discriminate |].
  destruct i as [| i]; simpl in *.
  - injection Hi as <-. now rewrite Nat.add_0_r.
  - rewrite (IH (S k) i Hi). f_equal. f_equal. lia.
Qed.

(** The store after the map is the store before it with the copies added;
    the returned references refer to the updated records. *)
Lemma updateOrderRefs_spec wos :
  exists fresh refs,
    updateOrderRefs ns wos = (wos ++ fresh, refs)
    /\ deref (wos ++ fresh) refs = map (updateOrder ns) wos
    /\ List.length refs = List.length wos
    /\ forall i wo, nth_error wos i = Some wo ->
         exists ref', nth_error refs i = Some ref'
                      /\ Rebuilt ns wos (wos ++ fresh) (i, wo) ref'.
Proof.
  unfold updateOrderRefs.
  destruct (updateOrderRef_fold (combine (seq 0 (List.length wos)) wos) wos [])
    as (fresh & refs & Hfold & Hall).
  { exact (combine_seq_held [] wos). }
  exists fresh, refs. rewrite Hfold. split; [reflexivity |]. split; [| split].
  - rewrite <- (combine_seq_snd (updateOrder ns) wos 0).
    apply deref_Forall2. eapply Forall2_impl; [| exact Hall].
    intros a r (H & _). exact H.
  - rewrite <- (Forall2_length Hall), length_combine, length_seq. apply Nat.min_id.
  - intros i wo Hi.
    exact (Forall2_nth_error _ _ _ _ _ Hall (combine_seq_nth_error wos 0 i wo Hi)).
Qed.
End StoreFacts.


(** [reflowOnStore] and [reflow] have the same outcome. *)
Lemma reflowOnStore_reflow fuel wos wcs :
  withoutStore (reflowOnStore fuel wos wcs) = reflow fuel wos wcs.
Proof.
  unfold reflowOnStore, reflow, withoutStore.
  destruct (topologicalOrder wos) as [[e | ids] |]; try reflexivity.
  cbv zeta.
  destruct (updateOrderRefs_spec (newSchedule (place wos wcs ids)) wos)
    as (fresh & refs' & Hobj & Hderef & _ & _).
  rewrite Hobj. cbn [fst snd]. rewrite Hderef.
  destruct (Checker.validateSchedule fuel _ wcs) as [v |]; [| reflexivity].
  destruct (negb (valid v)); reflexivity.
Qed.

(** ** The placer's view of a work center *)

Section CenterSlotFacts.
Variable byNumber : JsMap.t WorkOrder.
Variable centers : JsMap.t WorkCenter.




End CenterSlotFacts.

(** ** Maintenance orders in a returned schedule *)

Section FixedOrderFacts.



End FixedOrderFacts.



